(** * SafePay Family: the risk-alert workflow of the backend

    A shallow embedding of the Express/Prisma/Socket.io backend
    (routes/transactions.js, routes/alerts.js, routes/trusted.js,
    routes/users.js, routes/auth.js, lib/mlService.js, lib/gemini.js,
    lib/socket.js, middleware/auth.js) together with the properties its
    design document states about it (Part II) and further properties that
    the code itself shows (Part III).

    Conventions of the embedding:
    - a Prisma table is a finite map from the row id to the row when the code
      only reaches it through the id (alerts, transactions), and a list of
      rows otherwise; ids are drawn from a counter kept with the tables;
    - a JavaScript number is kept as the rational that is written ([Q]);
      the built-ins that print a number print the double nearest to it; the
      special values that [parseFloat] can yield are kept apart in
      [Js.Number];
    - a route handler is a function from the world before the request to the
      world after it and the HTTP response; the decide handler is in addition
      cut at its [await]s, so that requests can be interleaved the way the
      Node event loop does it;
    - the outcome of a call to an external service (scoring service, text
      generator) is an argument of the handler. *)

From Stdlib Require Import QArith.
From stdpp Require Import gmap strings list fin_maps pretty sorting.

Set Warnings "-register-all".

(* ===================================================================== *)
(** * Part I: the program *)
(* ===================================================================== *)

(** ** JavaScript values and the built-ins the code calls *)
Module Js.

(** What running a block gives: a value, or an exception in flight. *)
Inductive Completion (A : Type) : Type :=
| Normal (a : A)
| Throw (err : string).
Global Arguments Normal {A} a.
Global Arguments Throw {A} err.

Definition bind {A B} (c : Completion A) (k : A → Completion B) : Completion B :=
  match c with
  | Normal a => k a
  | Throw e => Throw e
  end.

(** [try { body } catch (err) { handler }] *)
Definition try_catch {A} (body : Completion A) (handler : string → Completion A)
  : Completion A :=
  match body with
  | Normal a => Normal a
  | Throw e => handler e
  end.

(** A property that may be absent, [null], or hold a value. *)
Inductive nullable (A : Type) : Type :=
| Undefined
| Null
| Val (a : A).
Global Arguments Undefined {A}.
Global Arguments Null {A}.
Global Arguments Val {A} a.

(** [x ?? d] *)
Definition nullish_or {A} (x : nullable A) (d : A) : A :=
  match x with
  | Val a => a
  | _ => d
  end.

(** A number, or one of the special values that [parseFloat] can return
    and that a number too large for a double turns into. *)
Inductive Number : Type :=
| Finite (q : Q)
| NaN
| PosInfinity
| NegInfinity.

(** *** Strings

    A string of the model is a sequence of code units below 256, that is,
    text of the Latin-1 range; text beyond it is not represented. *)

(** The capital letters of the Latin-1 range are A to Z and U+00C0 to
    U+00DE without the multiplication sign U+00D7; the small letter of each
    is 32 further. *)
Definition lower (c : Ascii.ascii) : Ascii.ascii :=
  let n := Ascii.nat_of_ascii c in
  if ((65 <=? n)%nat && (n <=? 90)%nat)
     || ((192 <=? n)%nat && (n <=? 222)%nat && negb (n =? 215)%nat)
  then Ascii.ascii_of_nat (n + 32) else c.

(** [s.toLowerCase()] *)
Fixpoint toLowerCase (s : string) : string :=
  match s with
  | EmptyString => EmptyString
  | String c rest => String (lower c) (toLowerCase rest)
  end.

(** [s.includes(sub)] on strings *)
Fixpoint contains (s sub : string) : bool :=
  String.prefix sub s
  || match s with
     | EmptyString => false
     | String _ rest => contains rest sub
     end.

(** *** Numbers

    A number of the program is a double. A number written in the program or
    in a JSON document is kept as the rational that is written ([Q]); the
    runtime makes of it the nearest double, and the built-ins that print a
    number print that double. *)

Definition pow (b : Z) (e : Z) : Q :=
  if (0 <=? e)%Z then inject_Z (b ^ e) else / inject_Z (b ^ (- e)).

Definition floor (q : Q) : Z := (Qnum q / Z.pos (Qden q))%Z.

Definition abs (q : Q) : Q := if (Qnum q <? 0)%Z then (- q)%Q else q.

(** The largest [e] with [2^e <= q], for a positive [q]. *)
Definition floor_log2 (q : Q) : Z :=
  let e := (Z.log2 (Qnum q) - Z.log2 (Z.pos (Qden q)))%Z in
  if Qle_bool (pow 2 e) q then e else (e - 1)%Z.

(** The integer nearest to a non-negative [q], the even one on a tie. *)
Definition round_half_even (q : Q) : Z :=
  let f := floor q in
  let r := (q - inject_Z f)%Q in
  match (r ?= 1 # 2)%Q with
  | Lt => f
  | Gt => (f + 1)%Z
  | Eq => if Z.even f then f else (f + 1)%Z
  end.

(** The IEEE 754 double nearest to [q], ties to the even significand:
    a significand of 53 bits, the exponent of the last bit no lower than
    -1074, and infinity from [2^1024] on. *)
Definition nearest_double (q : Q) : Number :=
  if Qeq_bool q 0 then Finite 0
  else
    let a := abs q in
    let e := floor_log2 a in
    let qe := Z.max (e - 52) (-1074) in
    let m := round_half_even (a / pow 2 qe) in
    let v := Qred (inject_Z m * pow 2 qe) in
    if Qle_bool (pow 2 1024) v
    then (if (Qnum q <? 0)%Z then NegInfinity else PosInfinity)
    else Finite (if (Qnum q <? 0)%Z then Qred (- v) else v).

Fixpoint zeros (n : nat) : string :=
  match n with
  | O => EmptyString
  | S m => "0" +:+ zeros m
  end.

(** The largest [n] with [10^n <= q], for a positive [q]. *)
Definition floor_log10 (q : Q) : Z :=
  let up n := if Qle_bool (pow 10 (n + 1)) q then (n + 1)%Z else n in
  let down n := if Qle_bool (pow 10 n) q then n else (n - 1)%Z in
  down (down (up (up (floor_log2 q * 1233 / 4096)%Z))).

(** Reading the decimal [c * 10^p] gives back the double [x]. *)
Definition round_trips (x : Q) (c : Z) (p : Z) : bool :=
  match nearest_double (inject_Z c * pow 10 p) with
  | Finite v => Qeq_bool v x
  | _ => false
  end.

(** The shortest decimal [c * 10^p] that reads back as the double [x > 0],
    and among those of that length the nearest to [x]; [k] is the number of
    digits tried, [n0] the position of the decimal point. *)
Fixpoint shortest (fuel : nat) (k : Z) (x : Q) (n0 : Z) : Z * Z :=
  let p := (n0 - k)%Z in
  let y := (x / pow 10 p)%Q in
  let lo := floor y in
  let hi := (lo + 1)%Z in
  match fuel with
  | O => (round_half_even y, p)
  | S fuel' =>
      let ok_lo := (0 <? lo)%Z && round_trips x lo p in
      let ok_hi := round_trips x hi p in
      if ok_lo && ok_hi then
        match ((y - inject_Z lo) ?= (inject_Z hi - y))%Q with
        | Lt => (lo, p)
        | Gt => (hi, p)
        | Eq => if Z.even lo then (lo, p) else (hi, p)
        end
      else if ok_lo then (lo, p)
      else if ok_hi then (hi, p)
      else shortest fuel' (k + 1)%Z x n0
  end.

Fixpoint strip_zeros (fuel : nat) (c p : Z) : Z * Z :=
  match fuel with
  | O => (c, p)
  | S fuel' =>
      if (c mod 10 =? 0)%Z then strip_zeros fuel' (c / 10)%Z (p + 1)%Z else (c, p)
  end.

(** [Number::toString] of a positive double: its shortest digits, written
    out in full when the decimal point falls within 21 digits to the right
    or 6 zeros to the left, and with an exponent otherwise. *)
Definition positive_toString (x : Q) : string :=
  let n0 := (floor_log10 x + 1)%Z in
  let '(c, p) := shortest 17 1 x n0 in
  let '(c, p) := strip_zeros 400 c p in
  let ds := pretty c in
  let k := Z.of_nat (String.length ds) in
  let n := (p + k)%Z in
  if (k <=? n)%Z && (n <=? 21)%Z then ds +:+ zeros (Z.to_nat (n - k))
  else if (0 <? n)%Z && (n <=? 21)%Z then
    String.substring 0 (Z.to_nat n) ds +:+ "." +:+
    String.substring (Z.to_nat n) (Z.to_nat (k - n)) ds
  else if (-6 <? n)%Z && (n <=? 0)%Z then "0." +:+ zeros (Z.to_nat (- n)) +:+ ds
  else
    let e := (n - 1)%Z in
    let exponent := (if (e <? 0)%Z then "e-" else "e+") +:+ pretty (Z.abs e) in
    if (k =? 1)%Z then ds +:+ exponent
    else String.substring 0 1 ds +:+ "." +:+
         String.substring 1 (Z.to_nat (k - 1)) ds +:+ exponent.

Definition number_toString (x : Number) : string :=
  match x with
  | NaN => "NaN"
  | PosInfinity => "Infinity"
  | NegInfinity => "-Infinity"
  | Finite q =>
      if Qeq_bool q 0 then "0"
      else if (Qnum q <? 0)%Z then "-" +:+ positive_toString (abs q)
      else positive_toString q
  end.

(** The digits of [x.toFixed(digits)] for a double of magnitude below
    [10^21]: the multiple of [10^-digits] nearest to the double, the larger
    one on a tie. *)
Definition fixed (q : Q) (digits : nat) : string :=
  let scale := (10 ^ Z.of_nat digits)%Z in
  let r := floor (abs q * inject_Z scale + (1 # 2)) in
  let whole := pretty (r / scale)%Z in
  let frac := pretty (r mod scale)%Z in
  let sign := if (Qnum q <? 0)%Z then "-" else EmptyString in
  match digits with
  | O => sign +:+ whole
  | _ => sign +:+ whole +:+ "." +:+ zeros (digits - String.length frac) +:+ frac
  end.

Definition number_toFixed (x : Number) (digits : nat) : string :=
  match x with
  | Finite q =>
      if Qle_bool (pow 10 21) (abs q) then number_toString x else fixed q digits
  | _ => number_toString x
  end.

(** [x.toFixed(digits)] for the number written [q]. *)
Definition toFixed (q : Q) (digits : nat) : string :=
  number_toFixed (nearest_double q) digits.

(** [String(x)] for the number written [q]. *)
Definition toString (q : Q) : string := number_toString (nearest_double q).

(** A parsed JSON document. *)
Inductive Value : Type :=
| VNull
| VBool (b : bool)
| VNum (q : Q)
| VStr (s : string)
| VArr (items : list Value)
| VObj (fields : list (string * Value)).

(** Truthiness; [None] stands for [undefined]. *)
Definition truthy (v : option Value) : bool :=
  match v with
  | None => false
  | Some VNull => false
  | Some (VBool b) => b
  | Some (VNum q) =>
      match nearest_double q with
      | Finite v => negb (Qeq_bool v 0)
      | _ => true
      end
  | Some (VStr s) => negb (String.eqb s EmptyString)
  | Some (VArr _) => true
  | Some (VObj _) => true
  end.

Fixpoint assoc (k : string) (fields : list (string * Value)) : option Value :=
  match fields with
  | [] => None
  | (k', v) :: rest => if String.eqb k k' then Some v else assoc k rest
  end.

(** [v.k] for a key that is no built-in property: reading a property of
    [null] throws, of an object looks the key up, of anything else gives
    [undefined]. *)
Definition get (v : Value) (k : string) : Completion (option Value) :=
  match v with
  | VNull => Throw "TypeError: Cannot read properties of null"
  | VObj fields => Normal (assoc k fields)
  | _ => Normal None
  end.

Definition isArray (v : option Value) : bool :=
  match v with
  | Some (VArr _) => true
  | _ => false
  end.

(** [a || b] on values. *)
Definition or_else (a : option Value) (b : Value) : Value :=
  match a with
  | Some v => if truthy a then v else b
  | None => b
  end.

(** [a ?? b] on values. *)
Definition coalesce (a : option Value) (b : Value) : Value :=
  match a with
  | None | Some VNull => b
  | Some v => v
  end.

(** [v?.k] for a [v] that may be [undefined]. *)
Definition opt_get (v : option Value) (k : string) : option Value :=
  match v with
  | Some (VObj fields) => assoc k fields
  | _ => None
  end.

(** The value of a property that may be absent or [null]. *)
Definition value_of (x : nullable Value) : option Value :=
  match x with
  | Undefined => None
  | Null => Some VNull
  | Val v => Some v
  end.

(** [v === s] for a string [s]. *)
Definition is_string (v : Value) (s : string) : bool :=
  match v with
  | VStr s' => String.eqb s' s
  | _ => false
  end.

(** *** Method calls and conversions on values

    An exception carries the message that Node words it with; [name] is the
    expression the method is called on, as the message quotes it. A value
    read from JSON holds no function, so a property of that name on an
    object does not help. *)

Definition not_a_function {A} (name method : string) (v : Value) : Completion A :=
  match v with
  | VNull => Throw ("Cannot read properties of null (reading '" +:+ method +:+ "')")
  | _ => Throw (name +:+ "." +:+ method +:+ " is not a function")
  end.

(** [v.toFixed(digits)] *)
Definition call_toFixed (name : string) (v : Value) (digits : nat) : Completion string :=
  match v with
  | VNum q => Normal (toFixed q digits)
  | _ => not_a_function name "toFixed" v
  end.

(** [v.toLowerCase()] *)
Definition call_toLowerCase (name : string) (v : Value) : Completion string :=
  match v with
  | VStr s => Normal (toLowerCase s)
  | _ => not_a_function name "toLowerCase" v
  end.

(** [v.includes(code)] for a string [code]: membership in an array,
    containment in a string. *)
Definition call_includes (name : string) (v : Value) (code : string) : Completion bool :=
  match v with
  | VArr items => Normal (existsb (λ x, is_string x code) items)
  | VStr s => Normal (contains s code)
  | _ => not_a_function name "includes" v
  end.

(** [`${v}`]: an array prints its elements separated by commas, [null]
    among them as nothing; an object prints as [[object Object]], unless it
    has a property [toString] of its own, which is no function. *)
Fixpoint display (v : Value) : Completion string :=
  match v with
  | VNull => Normal "null"
  | VBool b => Normal (if b then "true" else "false")
  | VNum q => Normal (toString q)
  | VStr s => Normal s
  | VArr items =>
      (fix join (xs : list Value) : Completion string :=
         match xs with
         | [] => Normal EmptyString
         | x :: rest =>
             bind (match x with
                   | VNull => Normal EmptyString
                   | _ => display x
                   end) (λ s,
             match rest with
             | [] => Normal s
             | _ => bind (join rest) (λ r, Normal (s +:+ "," +:+ r))
             end)
         end) items
  | VObj fields =>
      match assoc "toString" fields with
      | Some _ => Throw "Cannot convert object to primitive value"
      | None => Normal "[object Object]"
      end
  end.

(** [`${v}`] for a [v] that may be [undefined]. *)
Definition interpolate (v : option Value) : Completion string :=
  match v with
  | None => Normal "undefined"
  | Some v => display v
  end.

Global Arguments toFixed : simpl never.
Global Arguments toString : simpl never.

End Js.


(** ** The rows of the database *)

Definition Id := nat.

Inductive Role : Type := SENIOR | FAMILY.

Inductive AlertStatus : Type := PENDING | APPROVED | DENIED | EXPIRED.

Inductive LinkStatus : Type := ACTIVE | REVOKED.

Global Instance Role_eq_dec : EqDecision Role.
Proof. solve_decision. Defined.
Global Instance AlertStatus_eq_dec : EqDecision AlertStatus.
Proof. solve_decision. Defined.
Global Instance LinkStatus_eq_dec : EqDecision LinkStatus.
Proof. solve_decision. Defined.

Definition status_name (s : AlertStatus) : string :=
  match s with
  | PENDING => "PENDING"
  | APPROVED => "APPROVED"
  | DENIED => "DENIED"
  | EXPIRED => "EXPIRED"
  end.

Record User : Type := mkUser {
  u_id : Id;
  u_email : string;
  u_name : string;
  u_role : Role;
  u_phone : option string;
  u_protectionMode : bool;
  u_riskThreshold : Q;
}.

Record RiskFlag : Type := mkRiskFlag {
  rf_flag : string;
  rf_description : string;
  rf_severity : string;
}.

Record Transaction : Type := mkTransaction {
  t_id : Id;
  t_userId : Id;
  t_amount : Js.Number;
  t_merchant : string;
  t_mcc : string;
  t_mccDesc : string;
  t_city : string;
  t_deviceId : option string;
  t_timestamp : nat;
  t_riskScore : option Q;
  t_riskLevel : option string;
  t_anomalyScore : option Q;
  t_fraudProbability : option Q;
  t_riskFlags : list RiskFlag;
  t_scoredAt : option nat;
}.

Record Alert : Type := mkAlert {
  a_id : Id;
  a_seniorId : Id;
  a_transactionId : Id;
  a_status : AlertStatus;
  a_aiSummary : option Js.Value;
  a_aiReasons : option Js.Value;
  a_aiAction : option Js.Value;
  a_usedFallback : Js.Value;
  a_createdAt : nat;
  a_resolvedAt : option nat;
}.

Record Approval : Type := mkApproval {
  ap_id : Id;
  ap_alertId : Id;
  ap_userId : Id;
  ap_decision : AlertStatus;
  ap_note : option string;
  ap_createdAt : nat;
}.

Record TrustedLink : Type := mkTrustedLink {
  l_id : Id;
  l_seniorId : Id;
  l_familyId : Id;
  l_status : LinkStatus;
}.

Record Db : Type := mkDb {
  users : list User;
  transactions : gmap Id Transaction;
  alerts : gmap Id Alert;
  approvals : list Approval;
  trustedLinks : list TrustedLink;
  nextId : Id;
}.

Definition empty_db : Db :=
  {| users := []; transactions := ∅; alerts := ∅; approvals := [];
     trustedLinks := []; nextId := 0 |}.

(** ** lib/socket.js: rooms, connections and delivery *)
Module Socket.

(** The room [user:{uid}]. *)
Inductive Room : Type := UserRoom (uid : Id).

Definition room_user (r : Room) : Id := match r with UserRoom uid => uid end.

Global Instance Room_eq_dec : EqDecision Room.
Proof. solve_decision. Defined.
Global Instance Room_countable : Countable Room.
Proof. apply (inj_countable' room_user UserRoom). by intros []. Defined.

Inductive Event : Type :=
| AlertNew (alert : Alert) (seniorName : string) (familyMembers : list Id)
| AlertUpdate (alert : Alert) (withApprovals : list Approval).

Definition event_name (e : Event) : string :=
  match e with
  | AlertNew _ _ _ => "alert:new"
  | AlertUpdate _ _ => "alert:update"
  end.

Definition event_alert (e : Event) : Alert :=
  match e with
  | AlertNew a _ _ => a
  | AlertUpdate a _ => a
  end.

(** A live connection: who it was authenticated as, and the rooms it is in
    (the room Socket.io names after the socket itself is never emitted to and
    is left out). *)
Record Conn : Type := mkConn {
  s_userId : Id;
  s_userRole : Role;
  s_rooms : gset Room;
}.

Record Delivery : Type := mkDelivery {
  d_socket : Id;
  d_event : Event;
}.

Record Io : Type := mkIo {
  sockets : gmap Id Conn;
  userSockets : gmap Id (gset Id);
  delivered : list Delivery;
}.

Definition empty_io : Io :=
  {| sockets := ∅; userSockets := ∅; delivered := [] |}.

(** What the handshake carries, after [jwt.verify]. *)
Inductive Handshake : Type :=
| NoToken
| InvalidToken
| Token (userId : Id) (role : Role).

(** [io.use(...)] followed by the [connection] handler for a new socket
    [sid]: a handshake without a valid token is refused; otherwise the socket
    joins its user's own room and is recorded in [userSockets]. *)
Definition connection (sid : Id) (h : Handshake) (s : Io) : Io :=
  match h with
  | NoToken | InvalidToken => s
  | Token userId role =>
      {| sockets :=
           <[sid := {| s_userId := userId; s_userRole := role;
                       s_rooms := {[ UserRoom userId ]} |}]> (sockets s);
         userSockets :=
           <[userId := {[ sid ]} ∪ default ∅ (userSockets s !! userId)]> (userSockets s);
         delivered := delivered s |}
  end.

Definition join (r : Room) (c : Conn) : Conn :=
  {| s_userId := s_userId c; s_userRole := s_userRole c;
     s_rooms := {[ r ]} ∪ s_rooms c |}.

(** [socket.on('join:senior', (seniorId) => socket.join(`user:${seniorId}`))] *)
Definition on_join_senior (sid : Id) (seniorId : Id) (s : Io) : Io :=
  {| sockets := alter (join (UserRoom seniorId)) sid (sockets s);
     userSockets := userSockets s;
     delivered := delivered s |}.

(** [socket.on('disconnect', ...)]: Socket.io takes the socket out of its
    rooms; the handler takes it out of [userSockets]. *)
Definition on_disconnect (sid : Id) (s : Io) : Io :=
  match sockets s !! sid with
  | None => s
  | Some c =>
      {| sockets := delete sid (sockets s);
         userSockets := alter (λ sids, sids ∖ {[ sid ]}) (s_userId c) (userSockets s);
         delivered := delivered s |}
  end.

Definition in_room (r : Room) (p : Id * Conn) : bool :=
  bool_decide (r ∈ s_rooms p.2).

(** [io.to(room).emit(event, payload)]: every socket in the room gets it. *)
Definition emit (r : Room) (e : Event) (s : Io) : Io :=
  {| sockets := sockets s;
     userSockets := userSockets s;
     delivered :=
       delivered s ++
       ((λ p, {| d_socket := p.1; d_event := e |}) <$>
          List.filter (in_room r) (map_to_list (sockets s))) |}.

End Socket.

(** ** The world a request runs in *)

Record World : Type := mkWorld {
  db : Db;
  io : Socket.Io;
  clock : nat;
  (** ids of the transactions sent to the scoring service so far *)
  scored : list Id;
}.

Definition empty_world : World :=
  {| db := empty_db; io := Socket.empty_io; clock := 0; scored := [] |}.

Definition with_db (w : World) (d : Db) : World :=
  {| db := d; io := io w; clock := clock w; scored := scored w |}.

Definition with_io (w : World) (s : Socket.Io) : World :=
  {| db := db w; io := s; clock := clock w; scored := scored w |}.

Definition tick (w : World) : World :=
  {| db := db w; io := io w; clock := S (clock w); scored := scored w |}.

Definition log_scored (tid : Id) (w : World) : World :=
  {| db := db w; io := io w; clock := clock w; scored := scored w ++ [tid] |}.

(** ** HTTP responses *)

Inductive Body : Type :=
| Error (msg : string)
| Decided (alert : Alert) (withApprovals : list Approval) (approval : Approval)
| Submitted (txn : Transaction) (alert : option Alert) (riskLevel : string) (riskScore : Q)
| LinkBody (l : TrustedLink)
| Success
| Settings (u : User).

Record Response : Type := mkResponse {
  r_status : nat;
  r_body : Body;
}.

Definition respond (code : nat) (b : Body) : Response :=
  {| r_status := code; r_body := b |}.

(** ** middleware/auth.js *)

(** [req.user], as [authenticate] selects it. *)
Record ReqUser : Type := mkReqUser {
  ru_id : Id;
  ru_email : string;
  ru_name : string;
  ru_role : Role;
  ru_protectionMode : bool;
}.

Definition find_user (uid : Id) (us : list User) : option User :=
  List.find (λ u, bool_decide (u_id u = uid)) us.

Definition find_user_by_email (email : string) (us : list User) : option User :=
  List.find (λ u, String.eqb (u_email u) email) us.

(** The [Authorization] header, after [jwt.verify]. *)
Inductive Bearer : Type :=
| NoHeader
| BadToken
| Verified (userId : Id).

(** [authenticate]: the answer is a 401 response or [req.user]. *)
Definition authenticate (d : Db) (token : Bearer) : Response + ReqUser :=
  match token with
  | NoHeader => inl (respond 401 (Error "No token provided"))
  | BadToken => inl (respond 401 (Error "Invalid or expired token"))
  | Verified uid =>
      match find_user uid (users d) with
      | None => inl (respond 401 (Error "User not found"))
      | Some u =>
          inr {| ru_id := u_id u; ru_email := u_email u; ru_name := u_name u;
                 ru_role := u_role u; ru_protectionMode := u_protectionMode u |}
      end
  end.

(** [requireSenior] *)
Definition requireSenior (u : ReqUser) : option Response :=
  match ru_role u with
  | SENIOR => None
  | FAMILY => Some (respond 403 (Error "Senior access only"))
  end.

(** ** The answer of the scoring service

    The scoring service is a separate program; the fields of its answer
    that the route stores are read with the types they are stored at:
    scores are numbers, the level is a string, the flags are flag records.
    The context for the explainer is handed on as the JSON value it is. *)

Record RiskResult : Type := mkRiskResult {
  risk_score : Q;
  risk_level : string;
  anomaly_score : Q;
  fraud_probability : Q;
  risk_flags : Js.nullable (list RiskFlag);
  gemini_prompt_context : Js.nullable Js.Value;
}.

(** ** lib/mlService.js *)
Module MlService.

(** How the [fetch] of [/score] ends. [HttpResponse code json]: a response
    with that status arrived; [json] is its body when that is a risk result
    of the contract, [None] when the body is not JSON. A JSON body of
    another shape is not among the outcomes: the route hands its fields to
    Prisma unchecked, and what Prisma makes of them is decided by the
    schema, which is not among the sources (a body that is [null] makes the
    route throw when it reads [riskResult.risk_score]). *)
Inductive FetchOutcome : Type :=
| NetworkError
| TimedOut
| HttpResponse (code : nat) (json : option RiskResult).

(** [response.ok] *)
Definition ok (code : nat) : bool := (200 <=? code)%nat && (code <=? 299)%nat.

Definition fetch_score (o : FetchOutcome) : Js.Completion RiskResult :=
  match o with
  | NetworkError => Js.Throw "fetch failed"
  | TimedOut => Js.Throw "The operation was aborted due to timeout"
  | HttpResponse code json =>
      if negb (ok code) then Js.Throw ("ML service error: " +:+ pretty code)
      else match json with
           | Some r => Js.Normal r
           | None => Js.Throw "Unexpected token in JSON"
           end
  end.

Definition default_result : RiskResult :=
  {| risk_score := 0.35;
     risk_level := "MEDIUM";
     anomaly_score := 0.35;
     fraud_probability := 0.35;
     risk_flags := Js.Val [];
     gemini_prompt_context := Js.Null |}.

Definition scoreTransaction (o : FetchOutcome) : Js.Completion RiskResult :=
  Js.try_catch (fetch_score o) (λ _, Js.Normal default_result).

End MlService.

(** ** lib/gemini.js *)
Module Gemini.

(** How the call to the text generator ends, once its text is stripped of
    markdown fences and given to [JSON.parse]. *)
Inductive Generation : Type :=
| GenerationFails (err : string)
| Unparsable
| Parsed (v : Js.Value).

Record Env : Type := mkEnv {
  hasApiKey : bool;
  generation : Generation;
}.

(** The object [explainTransaction] returns, through the four properties
    its caller reads. *)
Record Explanation : Type := mkExplanation {
  summary : option Js.Value;
  reasons : option Js.Value;
  action : option Js.Value;
  usedFallback : option Js.Value;
}.

(** [if (flags.includes(code)) reasons.push(text)] *)
Definition push_if_includes (flags : Js.Value) (code : string)
    (text : Js.Completion string) (reasons : list string)
  : Js.Completion (list string) :=
  Js.bind (Js.call_includes "flags" flags code) (λ c,
  if c then Js.bind text (λ s, Js.Normal (reasons ++ [s])) else Js.Normal reasons).

(** [buildFallbackExplanation]: [reasons] is the array the pushes build up.
    The context is whatever the scoring service sent under
    [gemini_prompt_context]; its fields are used without a check of their
    types, so [toFixed], [includes] and [toLowerCase] throw on a field of
    another type. *)
Definition buildFallbackExplanation (ctx : Js.nullable Js.Value)
  : Js.Completion Explanation :=
  let ctx := Js.or_else (Js.value_of ctx) (Js.VObj []) in
  Js.bind (Js.get ctx "transaction") (λ transaction,
  Js.bind (Js.get ctx "risk") (λ risk,
  Js.bind (Js.get ctx "user_baseline") (λ user_baseline,
  let amount := Js.coalesce (Js.opt_get transaction "amount") (Js.VNum 0) in
  let merchant := Js.coalesce (Js.opt_get transaction "merchant")
                    (Js.VStr "Unknown merchant") in
  let flags := Js.coalesce (Js.opt_get risk "flags") (Js.VArr []) in
  let ratio := Js.coalesce (Js.opt_get user_baseline "amount_ratio") (Js.VNum 1) in
  let reasons := [] in
  Js.bind (push_if_includes flags "LARGE_AMOUNT"
             (Js.bind (Js.call_toFixed "amount" amount 2) (λ a,
              Js.bind (Js.call_toFixed "ratio" ratio 1) (λ r,
              Js.Normal ("This purchase ($" +:+ a +:+ ") is " +:+ r
                           +:+ "x larger than your typical spending"))))
             reasons) (λ reasons,
  Js.bind (push_if_includes flags "HIGH_RISK_CATEGORY"
             (Js.Normal "This merchant type (gift cards or financial transfers) is commonly used in scams targeting seniors")
             reasons) (λ reasons,
  Js.bind (push_if_includes flags "NEW_LOCATION"
             (Js.bind (Js.interpolate (Js.opt_get transaction "city")) (λ c,
              Js.Normal ("This transaction is from an unfamiliar location: " +:+ c)))
             reasons) (λ reasons,
  Js.bind (push_if_includes flags "NEW_MERCHANT"
             (Js.bind (Js.display merchant) (λ m,
              Js.Normal ("You have not shopped at " +:+ String (Ascii.ascii_of_nat 34) m
                           +:+ String (Ascii.ascii_of_nat 34) " before")))
             reasons) (λ reasons,
  Js.bind (push_if_includes flags "UNUSUAL_TIME"
             (Js.Normal "This transaction occurred at an unusual hour for your spending pattern")
             reasons) (λ reasons,
  Js.bind (push_if_includes flags "HIGH_VELOCITY"
             (Js.Normal "Multiple transactions occurred in a short time period")
             reasons) (λ reasons,
  let reasons :=
    if (length reasons =? 0)%nat
    then reasons ++ ["This transaction looks different from your normal spending patterns"]
    else reasons in
  let riskLevel := Js.coalesce (Js.opt_get risk "level") (Js.VStr "HIGH") in
  let action :=
    if Js.is_string riskLevel "CRITICAL"
    then "Please contact your bank immediately if you did not make this purchase."
    else "Please review this transaction and confirm whether you made this purchase." in
  Js.bind (Js.call_toLowerCase "riskLevel" riskLevel) (λ level,
  Js.bind (Js.call_toFixed "amount" amount 2) (λ a,
  Js.bind (Js.display merchant) (λ m,
  Js.Normal
    {| summary := Some (Js.VStr ("We flagged a " +:+ level
                                   +:+ "-risk transaction of $" +:+ a
                                   +:+ " at " +:+ m +:+ ". Please review it carefully."));
       reasons := Some (Js.VArr (Js.VStr <$> reasons));
       action := Some (Js.VStr action);
       usedFallback := Some (Js.VBool true) |})))))))))))).

(** The [try] block of [explainTransaction]: the prompt reads
    [promptContext.prompt_template], which throws when the context is
    [null] or [undefined]; then the generator is called, its answer parsed
    and its shape checked. *)
Definition generate (env : Env) (promptContext : Js.nullable Js.Value)
  : Js.Completion Explanation :=
  Js.bind (match Js.value_of promptContext with
           | None => Js.Throw "TypeError: Cannot read properties of undefined"
           | Some v => Js.bind (Js.get v "prompt_template") Js.interpolate
           end) (λ _,
  Js.bind (match generation env with
           | GenerationFails err => Js.Throw err
           | Unparsable => Js.Throw "SyntaxError: Unexpected token"
           | Parsed v => Js.Normal v
           end) (λ parsed,
  Js.bind (Js.get parsed "summary") (λ p_summary,
  Js.bind (Js.get parsed "reasons") (λ p_reasons,
  Js.bind (Js.get parsed "action") (λ p_action,
  if negb (Js.truthy p_summary) || negb (Js.isArray p_reasons)
     || negb (Js.truthy p_action)
  then Js.Throw "Invalid Gemini response shape"
  else
    Js.bind (Js.get parsed "usedFallback") (λ p_usedFallback,
    Js.Normal {| summary := p_summary; reasons := p_reasons;
                 action := p_action; usedFallback := p_usedFallback |})))))).

(** [getClient]: there is a client exactly when an API key is configured. *)
Definition getClient (env : Env) : option unit :=
  if hasApiKey env then Some () else None.

(** The fallback is called outside the [try], in the branch without a
    client and in the [catch]: what it throws leaves [explainTransaction]. *)
Definition explainTransaction (env : Env) (promptContext : Js.nullable Js.Value)
  : Js.Completion Explanation :=
  match getClient env with
  | None => buildFallbackExplanation promptContext
  | Some _ =>
      Js.try_catch (generate env promptContext)
        (λ _, buildFallbackExplanation promptContext)
  end.

End Gemini.

(** ** Queries and updates on the tables *)

(** [trustedLink.findFirst({ where: { seniorId, familyId } })] *)
Definition find_link (seniorId familyId : Id) (ls : list TrustedLink) : option TrustedLink :=
  List.find (λ l, bool_decide (l_seniorId l = seniorId)
                  && bool_decide (l_familyId l = familyId)) ls.

(** [trustedLink.findFirst({ where: { seniorId, familyId, status: 'ACTIVE' } })] *)
Definition find_active_link (seniorId familyId : Id) (ls : list TrustedLink)
  : option TrustedLink :=
  List.find (λ l, bool_decide (l_seniorId l = seniorId)
                  && bool_decide (l_familyId l = familyId)
                  && bool_decide (l_status l = ACTIVE)) ls.

(** [trustedLink.findMany({ where: { seniorId, status: 'ACTIVE' } })] *)
Definition active_links (seniorId : Id) (ls : list TrustedLink) : list TrustedLink :=
  List.filter (λ l, bool_decide (l_seniorId l = seniorId)
                    && bool_decide (l_status l = ACTIVE)) ls.

Definition set_link_status (st : LinkStatus) (l : TrustedLink) : TrustedLink :=
  {| l_id := l_id l; l_seniorId := l_seniorId l; l_familyId := l_familyId l;
     l_status := st |}.

(** [trustedLink.update({ where: { id }, data: { status } })] *)
Definition update_link (lid : Id) (st : LinkStatus) (ls : list TrustedLink)
  : list TrustedLink :=
  (λ l, if bool_decide (l_id l = lid) then set_link_status st l else l) <$> ls.

Definition with_trustedLinks (d : Db) (ls : list TrustedLink) (next : Id) : Db :=
  {| users := users d; transactions := transactions d; alerts := alerts d;
     approvals := approvals d; trustedLinks := ls; nextId := next |}.

Definition with_users (d : Db) (us : list User) : Db :=
  {| users := us; transactions := transactions d; alerts := alerts d;
     approvals := approvals d; trustedLinks := trustedLinks d; nextId := nextId d |}.

Definition put_transaction (d : Db) (t : Transaction) (next : Id) : Db :=
  {| users := users d; transactions := <[t_id t := t]> (transactions d);
     alerts := alerts d; approvals := approvals d;
     trustedLinks := trustedLinks d; nextId := next |}.

Definition put_alert (d : Db) (a : Alert) (next : Id) : Db :=
  {| users := users d; transactions := transactions d;
     alerts := <[a_id a := a]> (alerts d); approvals := approvals d;
     trustedLinks := trustedLinks d; nextId := next |}.

Definition add_approval (d : Db) (ap : Approval) : Db :=
  {| users := users d; transactions := transactions d; alerts := alerts d;
     approvals := approvals d ++ [ap]; trustedLinks := trustedLinks d;
     nextId := S (nextId d) |}.

(** The [approvals] relation of an alert, as [include] loads it. *)
Definition approvals_of (aid : Id) (aps : list Approval) : list Approval :=
  List.filter (λ ap, bool_decide (ap_alertId ap = aid)) aps.

(** Modelled from the spec: the Prisma schema (prisma/schema.prisma) is not
    among the sources, so the column defaults of a new Alert row are taken
    from the design document, "PENDING (initial)" and "Produces a PENDING
    alert with empty resolution fields": a row created without [status] and
    [resolvedAt] starts PENDING and unresolved, stamped with the current
    time. *)
Definition new_alert (aid seniorId transactionId : Id)
    (aiSummary aiReasons aiAction : option Js.Value) (usedFallback : Js.Value)
    (now : nat) : Alert :=
  {| a_id := aid; a_seniorId := seniorId; a_transactionId := transactionId;
     a_status := PENDING;
     a_aiSummary := aiSummary; a_aiReasons := aiReasons; a_aiAction := aiAction;
     a_usedFallback := usedFallback;
     a_createdAt := now; a_resolvedAt := None |}.

(** [alert.update({ data: { status, resolvedAt } })] on one row. *)
Definition resolve (st : AlertStatus) (now : nat) (a : Alert) : Alert :=
  {| a_id := a_id a; a_seniorId := a_seniorId a; a_transactionId := a_transactionId a;
     a_status := st;
     a_aiSummary := a_aiSummary a; a_aiReasons := a_aiReasons a;
     a_aiAction := a_aiAction a; a_usedFallback := a_usedFallback a;
     a_createdAt := a_createdAt a; a_resolvedAt := Some now |}.

(** ** routes/transactions.js *)
Module Transactions.

(** [req.body]; [amount] is what [parseFloat(amount)] evaluates to, the
    fields handed on unchanged are strings. *)
Record TxnBody : Type := mkTxnBody {
  amount : Js.Number;
  merchant : string;
  mcc : string;
  mccDesc : option string;
  city : string;
  deviceId : option string;
}.

(** [s || d] for an optional string. *)
Definition or_string (s : option string) (d : string) : string :=
  match s with
  | Some x => if String.eqb x EmptyString then d else x
  | None => d
  end.

(** [s || null] *)
Definition or_null (s : option string) : option string :=
  match s with
  | Some x => if String.eqb x EmptyString then None else Some x
  | None => None
  end.

Definition threshold : Q := 0.3.

Definition created (userId : Id) (b : TxnBody) (tid : Id) (now : nat) : Transaction :=
  {| t_id := tid; t_userId := userId; t_amount := amount b;
     t_merchant := merchant b; t_mcc := mcc b;
     t_mccDesc := or_string (mccDesc b) "Unknown";
     t_city := city b; t_deviceId := or_null (deviceId b);
     t_timestamp := now;
     t_riskScore := None; t_riskLevel := None; t_anomalyScore := None;
     t_fraudProbability := None; t_riskFlags := []; t_scoredAt := None |}.

Definition with_risk (t : Transaction) (r : RiskResult) (now : nat) : Transaction :=
  {| t_id := t_id t; t_userId := t_userId t; t_amount := t_amount t;
     t_merchant := t_merchant t; t_mcc := t_mcc t; t_mccDesc := t_mccDesc t;
     t_city := t_city t; t_deviceId := t_deviceId t; t_timestamp := t_timestamp t;
     t_riskScore := Some (risk_score r);
     t_riskLevel := Some (risk_level r);
     t_anomalyScore := Some (anomaly_score r);
     t_fraudProbability := Some (fraud_probability r);
     t_riskFlags := Js.nullish_or (risk_flags r) [];
     t_scoredAt := Some now |}.

(** Steps 4 and 5 of the handler, entered when the score reaches the
    threshold: explain, create the alert, notify. *)
Definition raise_alert (w : World) (user : ReqUser) (scoredTxn : Transaction)
    (riskResult : RiskResult) (gem : Gemini.Env) : World * Response :=
  match Gemini.explainTransaction gem (gemini_prompt_context riskResult) with
  | Js.Throw err => (w, respond 500 (Error err))
  | Js.Normal explanation =>
      let alert :=
        new_alert (nextId (db w)) (ru_id user) (t_id scoredTxn)
          (Gemini.summary explanation) (Gemini.reasons explanation)
          (Gemini.action explanation)
          (Js.or_else (Gemini.usedFallback explanation) (Js.VBool false))
          (clock w) in
      let w := with_db w (put_alert (db w) alert (S (nextId (db w)))) in
      let links := active_links (ru_id user) (trustedLinks (db w)) in
      let alertPayload := Socket.AlertNew alert (ru_name user) (l_familyId <$> links) in
      let s := Socket.emit (Socket.UserRoom (ru_id user)) alertPayload (io w) in
      let s := foldl (λ s l, Socket.emit (Socket.UserRoom (l_familyId l)) alertPayload s)
                 s links in
      (tick (with_io w s),
       respond 201 (Submitted scoredTxn (Some alert)
                      (risk_level riskResult) (risk_score riskResult)))
  end.

(** [POST /api/transactions] *)
Definition post (w : World) (token : Bearer) (b : TxnBody)
    (ml : MlService.FetchOutcome) (gem : Gemini.Env) : World * Response :=
  match authenticate (db w) token with
  | inl r => (w, r)
  | inr user =>
  match requireSenior user with
  | Some r => (w, r)
  | None =>
      (* 1. save the transaction *)
      let txn := created (ru_id user) b (nextId (db w)) (clock w) in
      let w := with_db w (put_transaction (db w) txn (S (nextId (db w)))) in
      (* 2. score it *)
      let w := log_scored (t_id txn) w in
      match MlService.scoreTransaction ml with
      | Js.Throw err => (w, respond 500 (Error err))
      | Js.Normal riskResult =>
          (* 3. write the risk data back *)
          let scoredTxn := with_risk txn riskResult (clock w) in
          let w := with_db w (put_transaction (db w) scoredTxn (nextId (db w))) in
          (* 4. alert when risky *)
          if Qle_bool threshold (risk_score riskResult)
          then raise_alert w user scoredTxn riskResult gem
          else (tick w,
                respond 201 (Submitted scoredTxn None
                               (risk_level riskResult) (risk_score riskResult)))
      end
  end
  end.

End Transactions.

(** ** routes/alerts.js: [POST /api/alerts/:id/decide] *)
Module Alerts.

Record DecideReq : Type := mkDecideReq {
  q_token : Bearer;
  q_alertId : Id;
  q_decision : string;
  q_note : option string;
}.

(** [['APPROVED', 'DENIED'].includes(decision)] *)
Definition valid_decision (decision : string) : option AlertStatus :=
  if String.eqb decision "APPROVED" then Some APPROVED
  else if String.eqb decision "DENIED" then Some DENIED
  else None.

(** Where a request stands: each constructor but the last names the
    [await] the handler is suspended at, with the local variables that are
    live there. *)
Inductive Pc : Type :=
| Authenticating
| FindingAlert (user : ReqUser) (decision : AlertStatus)
| FindingLink (user : ReqUser) (decision : AlertStatus) (alert : Alert)
| CreatingApproval (user : ReqUser) (decision : AlertStatus) (alert : Alert)
| UpdatingAlert (user : ReqUser) (decision : AlertStatus) (alert : Alert)
    (approval : Approval)
| FindingWatchers (alert : Alert) (approval : Approval) (updated : Alert)
    (withApprovals : list Approval)
| Done (r : Response).

(** The code between [alert.findUnique] and the next [await]. *)
Definition after_find (user : ReqUser) (decision : AlertStatus) (found : option Alert)
  : Pc :=
  match found with
  | None => Done (respond 404 (Error "Alert not found"))
  | Some alert =>
      if negb (bool_decide (a_status alert = PENDING))
      then Done (respond 409
                   (Error ("Alert already "
                             +:+ Js.toLowerCase (status_name (a_status alert)))))
      else
        match ru_role user with
        | SENIOR =>
            if negb (bool_decide (a_seniorId alert = ru_id user))
            then Done (respond 403 (Error "Access denied"))
            else CreatingApproval user decision alert
        | FAMILY => FindingLink user decision alert
        end
  end.

(** One database call of the handler, and the code that follows it up to
    the next [await]. *)
Definition step (q : DecideReq) (w : World) (pc : Pc) : World * Pc :=
  match pc with
  | Authenticating =>
      match authenticate (db w) (q_token q) with
      | inl r => (w, Done r)
      | inr user =>
          match valid_decision (q_decision q) with
          | None => (w, Done (respond 400 (Error "decision must be APPROVED or DENIED")))
          | Some decision => (w, FindingAlert user decision)
          end
      end
  | FindingAlert user decision =>
      (w, after_find user decision (alerts (db w) !! q_alertId q))
  | FindingLink user decision alert =>
      match find_active_link (a_seniorId alert) (ru_id user) (trustedLinks (db w)) with
      | None => (w, Done (respond 403 (Error "Not in trusted circle")))
      | Some _ => (w, CreatingApproval user decision alert)
      end
  | CreatingApproval user decision alert =>
      let approval :=
        {| ap_id := nextId (db w); ap_alertId := a_id alert; ap_userId := ru_id user;
           ap_decision := decision; ap_note := q_note q; ap_createdAt := clock w |} in
      (with_db w (add_approval (db w) approval),
       UpdatingAlert user decision alert approval)
  | UpdatingAlert user decision alert approval =>
      match alerts (db w) !! a_id alert with
      | None => (w, Done (respond 500 (Error "Record to update not found.")))
      | Some row =>
          let updated := resolve decision (clock w) row in
          let withApprovals := approvals_of (a_id alert) (approvals (db w)) in
          let w := with_db w (put_alert (db w) updated (nextId (db w))) in
          let s := Socket.emit (Socket.UserRoom (a_seniorId alert))
                     (Socket.AlertUpdate updated withApprovals) (io w) in
          (tick (with_io w s), FindingWatchers alert approval updated withApprovals)
      end
  | FindingWatchers alert approval updated withApprovals =>
      let links := active_links (a_seniorId alert) (trustedLinks (db w)) in
      let s := foldl (λ s l, Socket.emit (Socket.UserRoom (l_familyId l))
                               (Socket.AlertUpdate updated withApprovals) s)
                 (io w) links in
      (with_io w s, Done (respond 200 (Decided updated withApprovals approval)))
  | Done r => (w, Done r)
  end.

Fixpoint run (fuel : nat) (q : DecideReq) (w : World) (pc : Pc) : World * Pc :=
  match fuel with
  | O => (w, pc)
  | S fuel' =>
      match pc with
      | Done _ => (w, pc)
      | _ => let '(w', pc') := step q w pc in run fuel' q w' pc'
      end
  end.

Definition response_of (pc : Pc) : option Response :=
  match pc with
  | Done r => Some r
  | _ => None
  end.

(** The handler run on its own, from the request to the response: it
    suspends at most six times. *)
Definition post_decide (w : World) (q : DecideReq) : World * option Response :=
  let '(w', pc) := run 6 q w Authenticating in (w', response_of pc).

(** Requests in flight together. *)
Record Task : Type := mkTask {
  k_req : DecideReq;
  k_pc : Pc;
}.

Definition start (q : DecideReq) : Task := {| k_req := q; k_pc := Authenticating |}.

(** The event loop resumes request number [i]. *)
Definition resume (i : nat) (st : World * list Task) : World * list Task :=
  match st.2 !! i with
  | None => st
  | Some k =>
      let '(w', pc') := step (k_req k) st.1 (k_pc k) in
      (w', <[i := {| k_req := k_req k; k_pc := pc' |}]> st.2)
  end.

(** The requests resumed in the order the schedule gives. *)
Definition interleave (schedule : list nat) (w : World) (tasks : list Task)
  : World * list Task :=
  foldl (λ st i, resume i st) (w, tasks) schedule.

End Alerts.

(** ** routes/trusted.js *)
Module Trusted.

(** [POST /api/trusted/invite] *)
Definition post_invite (w : World) (token : Bearer) (email : option string)
  : World * Response :=
  match authenticate (db w) token with
  | inl r => (w, r)
  | inr user =>
  match requireSenior user with
  | Some r => (w, r)
  | None =>
  match email with
  | None => (w, respond 400 (Error "email is required"))
  | Some email =>
      if String.eqb email EmptyString
      then (w, respond 400 (Error "email is required"))
      else
      match find_user_by_email email (users (db w)) with
      | None => (w, respond 404 (Error "No user found with that email"))
      | Some familyUser =>
          if negb (bool_decide (u_role familyUser = FAMILY))
          then (w, respond 400 (Error "That user is not a family member account"))
          else if bool_decide (u_id familyUser = ru_id user)
          then (w, respond 400 (Error "Cannot invite yourself"))
          else
            match find_link (ru_id user) (u_id familyUser) (trustedLinks (db w)) with
            | Some existing =>
                if bool_decide (l_status existing = ACTIVE)
                then (w, respond 409 (Error "Already in trusted circle"))
                else
                  (with_db w (with_trustedLinks (db w)
                                (update_link (l_id existing) ACTIVE (trustedLinks (db w)))
                                (nextId (db w))),
                   respond 200 (LinkBody (set_link_status ACTIVE existing)))
            | None =>
                let link := {| l_id := nextId (db w); l_seniorId := ru_id user;
                               l_familyId := u_id familyUser; l_status := ACTIVE |} in
                (with_db w (with_trustedLinks (db w) (trustedLinks (db w) ++ [link])
                              (S (nextId (db w)))),
                 respond 201 (LinkBody link))
            end
      end
  end
  end
  end.

(** [DELETE /api/trusted/:familyId] *)
Definition delete (w : World) (token : Bearer) (familyId : Id) : World * Response :=
  match authenticate (db w) token with
  | inl r => (w, r)
  | inr user =>
  match requireSenior user with
  | Some r => (w, r)
  | None =>
      match find_link (ru_id user) familyId (trustedLinks (db w)) with
      | None => (w, respond 404 (Error "Link not found"))
      | Some link =>
          (with_db w (with_trustedLinks (db w)
                        (update_link (l_id link) REVOKED (trustedLinks (db w)))
                        (nextId (db w))),
           respond 200 Success)
      end
  end
  end.

End Trusted.

(** ** routes/users.js *)
Module Users.

(** [req.body]: a property is [Some] when it passes the handler's test on
    it ([typeof] boolean, [typeof] number, truthy). *)
Record SettingsBody : Type := mkSettingsBody {
  protectionMode : option bool;
  riskThreshold : option Q;
  name : option string;
  phone : option string;
}.

Definition apply_settings (b : SettingsBody) (u : User) : User :=
  {| u_id := u_id u; u_email := u_email u;
     u_name := default (u_name u) (name b);
     u_role := u_role u;
     u_phone := match phone b with Some p => Some p | None => u_phone u end;
     u_protectionMode := default (u_protectionMode u) (protectionMode b);
     u_riskThreshold := default (u_riskThreshold u) (riskThreshold b) |}.

(** [PATCH /api/users/settings] *)
Definition patch_settings (w : World) (token : Bearer) (b : SettingsBody)
  : World * Response :=
  match authenticate (db w) token with
  | inl r => (w, r)
  | inr user =>
  match requireSenior user with
  | Some r => (w, r)
  | None =>
      match find_user (ru_id user) (users (db w)) with
      | None => (w, respond 500 (Error "Record to update not found."))
      | Some u =>
          let us := (λ x, if bool_decide (u_id x = ru_id user)
                          then apply_settings b x else x) <$> users (db w) in
          (with_db w (with_users (db w) us), respond 200 (Settings (apply_settings b u)))
      end
  end
  end.

End Users.

(** ** routes/auth.js: [GET /api/auth/me] *)
Module Auth.

(** [GET /api/auth/me]: the caller's own row, read afresh, through the
    selected columns that [User] has (id, email, name, role, phone,
    protectionMode, riskThreshold); [None] stands for the [null] that
    [findUnique] gives when the row is gone. *)
Definition get_me (d : Db) (token : Bearer) : Response + option User :=
  match authenticate d token with
  | inl r => inl r
  | inr user => inr (find_user (ru_id user) (users d))
  end.

End Auth.

(** ** middleware/auth.js: the guards no route above uses *)
Module Middleware.

(** [requireFamily] *)
Definition requireFamily (u : ReqUser) : option Response :=
  match ru_role u with
  | FAMILY => None
  | SENIOR => Some (respond 403 (Error "Family access only"))
  end.

(** [trustedLink.findFirst({ where: { seniorId, familyId, status: 'ACTIVE' } })]
    for a [seniorId] that may be [undefined]: Prisma drops an undefined
    condition from the filter. *)
Definition find_active_link_opt (seniorId : option Id) (familyId : Id)
    (ls : list TrustedLink) : option TrustedLink :=
  match seniorId with
  | Some s => find_active_link s familyId ls
  | None =>
      List.find (λ l, bool_decide (l_familyId l = familyId)
                      && bool_decide (l_status l = ACTIVE)) ls
  end.

(** [requireTrustedAccess(seniorIdParam)]: [seniorId] is what
    [req.params[seniorIdParam] || req.query[seniorIdParam]] gives, [None]
    when the request has neither. [None] as answer stands for [next()]. *)
Definition requireTrustedAccess (d : Db) (u : ReqUser) (seniorId : option Id)
  : option Response :=
  match ru_role u with
  | SENIOR =>
      if negb (bool_decide (Some (ru_id u) = seniorId))
      then Some (respond 403 (Error "Access denied"))
      else None
  | FAMILY =>
      match find_active_link_opt seniorId (ru_id u) (trustedLinks d) with
      | None => Some (respond 403 (Error "Not in trusted circle"))
      | Some _ => None
      end
  end.

End Middleware.

(** ** routes/alerts.js: [GET /api/alerts] and [GET /api/alerts/:id] *)
Module AlertsRead.

(** [senior: { select: { id, name, email } }] *)
Record SeniorView : Type := mkSeniorView {
  sv_id : Id;
  sv_name : string;
  sv_email : string;
}.

(** [approvals: { include: { user: { select: { id, name, role } } } }] *)
Record ApprovalView : Type := mkApprovalView {
  av_approval : Approval;
  av_user : option (Id * string * Role);
}.

(** An alert as the two routes answer it, with its relations loaded. *)
Record AlertView : Type := mkAlertView {
  v_alert : Alert;
  v_transaction : option Transaction;
  v_senior : option SeniorView;
  v_approvals : list ApprovalView;
}.

Definition include_user (d : Db) (ap : Approval) : ApprovalView :=
  {| av_approval := ap;
     av_user := (λ u, (u_id u, u_name u, u_role u)) <$> find_user (ap_userId ap) (users d) |}.

Definition include (d : Db) (a : Alert) : AlertView :=
  {| v_alert := a;
     v_transaction := transactions d !! a_transactionId a;
     v_senior := (λ u, {| sv_id := u_id u; sv_name := u_name u; sv_email := u_email u |})
                   <$> find_user (a_seniorId a) (users d);
     v_approvals := include_user d <$> approvals_of (a_id a) (approvals d) |}.

(** [req.query]: [status] and [seniorId] are [None] when absent or empty;
    [limit] and [offset] are the natural numbers [parseInt] makes of them,
    [None] when absent. *)
Record ListQuery : Type := mkListQuery {
  lq_status : option string;
  lq_seniorId : option Id;
  lq_limit : option nat;
  lq_offset : option nat;
}.

(** The [where] object: the seniors whose alerts are asked for ([None]: no
    condition on the senior) and the status asked for. *)
Record Where : Type := mkWhere {
  wh_seniors : option (list Id);
  wh_status : option AlertStatus;
}.

Definition matches (wh : Where) (a : Alert) : bool :=
  match wh_seniors wh with
  | None => true
  | Some ids => bool_decide (a_seniorId a ∈ ids)
  end
  && match wh_status wh with
     | None => true
     | Some st => bool_decide (a_status a = st)
     end.

(** The value of the [AlertStatus] enum a string names; Prisma refuses any
    other string. *)
Definition status_of_name (s : string) : option AlertStatus :=
  if String.eqb s "PENDING" then Some PENDING
  else if String.eqb s "APPROVED" then Some APPROVED
  else if String.eqb s "DENIED" then Some DENIED
  else if String.eqb s "EXPIRED" then Some EXPIRED
  else None.

(** [trustedLink.findMany({ where: { familyId, status: 'ACTIVE' } })] *)
Definition active_links_of_family (familyId : Id) (ls : list TrustedLink)
  : list TrustedLink :=
  List.filter (λ l, bool_decide (l_familyId l = familyId)
                    && bool_decide (l_status l = ACTIVE)) ls.

(** [orderBy: { createdAt: 'desc' }] *)
Definition newer_or_same (a b : Alert) : Prop := a_createdAt b ≤ a_createdAt a.

Global Instance newer_or_same_dec a b : Decision (newer_or_same a b).
Proof. unfold newer_or_same. apply _. Defined.

(** [alert.findMany({ where })] before [take] and [skip]: the matching rows,
    newest first. Rows created at the same time come in the order the
    database has them; the sort keeps that order. *)
Definition found (d : Db) (wh : Where) : list Alert :=
  merge_sort newer_or_same (List.filter (matches wh) ((map_to_list (alerts d)).*2)).

(** The senior part of the [where] object, or the refusal. *)
Definition scope (d : Db) (user : ReqUser) (seniorId : option Id)
  : Response + option (list Id) :=
  match ru_role user with
  | SENIOR => inr (Some [ru_id user])
  | FAMILY =>
      match seniorId with
      | Some s =>
          match find_active_link s (ru_id user) (trustedLinks d) with
          | None => inl (respond 403 (Error "Not in trusted circle"))
          | Some _ => inr (Some [s])
          end
      | None =>
          inr (Some (l_seniorId <$> active_links_of_family (ru_id user) (trustedLinks d)))
      end
  end.

(** [GET /api/alerts]: the page and the total. *)
Definition get_list (d : Db) (token : Bearer) (q : ListQuery)
  : Response + (list AlertView * nat) :=
  match authenticate d token with
  | inl r => inl r
  | inr user =>
      match scope d user (lq_seniorId q) with
      | inl r => inl r
      | inr seniors =>
          match lq_status q with
          | None =>
              let wh := {| wh_seniors := seniors; wh_status := None |} in
              inr (include d <$> take (default 20 (lq_limit q))
                                   (drop (default 0 (lq_offset q)) (found d wh)),
                   length (found d wh))
          | Some name =>
              match status_of_name name with
              | None => inl (respond 500 (Error "Invalid value for argument `status`."))
              | Some st =>
                  let wh := {| wh_seniors := seniors; wh_status := Some st |} in
                  inr (include d <$> take (default 20 (lq_limit q))
                                       (drop (default 0 (lq_offset q)) (found d wh)),
                       length (found d wh))
              end
          end
      end
  end.

(** [GET /api/alerts/:id] *)
Definition get_one (d : Db) (token : Bearer) (aid : Id) : Response + AlertView :=
  match authenticate d token with
  | inl r => inl r
  | inr user =>
      match alerts d !! aid with
      | None => inl (respond 404 (Error "Alert not found"))
      | Some alert =>
          match ru_role user with
          | SENIOR =>
              if negb (bool_decide (a_seniorId alert = ru_id user))
              then inl (respond 403 (Error "Access denied"))
              else inr (include d alert)
          | FAMILY =>
              match find_active_link (a_seniorId alert) (ru_id user) (trustedLinks d) with
              | None => inl (respond 403 (Error "Not in trusted circle"))
              | Some _ => inr (include d alert)
              end
          end
      end
  end.

End AlertsRead.

(** ** routes/transactions.js: [GET /api/transactions] *)
Module TransactionsRead.

(** A transaction with [alert: { select: { id, status } }]. *)
Record TxnView : Type := mkTxnView {
  tv_transaction : Transaction;
  tv_alert : option (Id * AlertStatus);
}.

Definition alert_of (d : Db) (t : Transaction) : option (Id * AlertStatus) :=
  (λ a, (a_id a, a_status a))
    <$> List.find (λ a, bool_decide (a_transactionId a = t_id t))
          ((map_to_list (alerts d)).*2).

Definition include (d : Db) (t : Transaction) : TxnView :=
  {| tv_transaction := t; tv_alert := alert_of d t |}.

(** [orderBy: { timestamp: 'desc' }] *)
Definition later_or_same (a b : Transaction) : Prop := t_timestamp b ≤ t_timestamp a.

Global Instance later_or_same_dec a b : Decision (later_or_same a b).
Proof. unfold later_or_same. apply _. Defined.

(** [transaction.findMany({ where: { userId } })] before [take] and [skip]. *)
Definition found (d : Db) (userId : Id) : list Transaction :=
  merge_sort later_or_same
    (List.filter (λ t, bool_decide (t_userId t = userId))
       ((map_to_list (transactions d)).*2)).

(** Whose transactions the caller gets, or the refusal. *)
Definition target (d : Db) (user : ReqUser) (seniorId : option Id) : Response + Id :=
  match ru_role user, seniorId with
  | FAMILY, Some s =>
      match find_active_link s (ru_id user) (trustedLinks d) with
      | None => inl (respond 403 (Error "Not in trusted circle"))
      | Some _ => inr s
      end
  | _, _ => inr (ru_id user)
  end.

(** [GET /api/transactions]: the page and the total; [limit] and [offset]
    as in [AlertsRead.ListQuery]. *)
Definition get_list (d : Db) (token : Bearer) (seniorId : option Id)
    (limit offset : option nat) : Response + (list TxnView * nat) :=
  match authenticate d token with
  | inl r => inl r
  | inr user =>
      match target d user seniorId with
      | inl r => inl r
      | inr targetUserId =>
          inr (include d <$> take (default 20 limit)
                               (drop (default 0 offset) (found d targetUserId)),
               length (found d targetUserId))
      end
  end.

End TransactionsRead.

(** ** lib/socket.js: the emit helpers *)
Module SocketHelpers.

(** [emitNewAlert(io, seniorId, alertData)] *)
Definition emitNewAlert (s : Socket.Io) (seniorId : Id) (alert : Alert)
    (seniorName : string) (familyMembers : list Id) : Socket.Io :=
  Socket.emit (Socket.UserRoom seniorId)
    (Socket.AlertNew alert seniorName familyMembers) s.

(** [emitAlertUpdate(io, seniorId, alertData)] *)
Definition emitAlertUpdate (s : Socket.Io) (seniorId : Id) (alert : Alert)
    (withApprovals : list Approval) : Socket.Io :=
  Socket.emit (Socket.UserRoom seniorId) (Socket.AlertUpdate alert withApprovals) s.

(** [emitToUser(io, userId, event, data)] *)
Definition emitToUser (s : Socket.Io) (userId : Id) (e : Socket.Event) : Socket.Io :=
  Socket.emit (Socket.UserRoom userId) e s.

End SocketHelpers.

(** ** The system as a whole: requests and socket events, one after another *)

Inductive Op : Type :=
| Submit (token : Bearer) (b : Transactions.TxnBody)
    (ml : MlService.FetchOutcome) (gem : Gemini.Env)
| Decide (q : Alerts.DecideReq)
| Invite (token : Bearer) (email : option string)
| Revoke (token : Bearer) (familyId : Id)
| PatchSettings (token : Bearer) (b : Users.SettingsBody)
| Connect (sid : Id) (h : Socket.Handshake)
| JoinSenior (sid : Id) (seniorId : Id)
| Disconnect (sid : Id).

Definition apply (w : World) (op : Op) : World :=
  match op with
  | Submit token b ml gem => (Transactions.post w token b ml gem).1
  | Decide q => (Alerts.post_decide w q).1
  | Invite token email => (Trusted.post_invite w token email).1
  | Revoke token familyId => (Trusted.delete w token familyId).1
  | PatchSettings token b => (Users.patch_settings w token b).1
  | Connect sid h => with_io w (Socket.connection sid h (io w))
  | JoinSenior sid seniorId => with_io w (Socket.on_join_senior sid seniorId (io w))
  | Disconnect sid => with_io w (Socket.on_disconnect sid (io w))
  end.

Definition apply_all (w : World) (ops : list Op) : World := foldl apply w ops.

(** ** Vocabulary of the properties *)

(** *** The risk context of the contract

    The scoring service is a separate program; by its contract the context
    it hands over holds the prompt, the facts of the transaction (amount,
    merchant, city), the risk part (the codes of the triggered flags, the
    level) and the ratio of the amount to the user's baseline. Amounts and
    ratios are numbers, names and levels are strings, flags are flag codes.
    A field can be absent or [null]. *)

Record CtxTransaction : Type := mkCtxTransaction {
  ct_amount : Js.nullable Q;
  ct_merchant : Js.nullable string;
  ct_city : Js.nullable string;
}.

Record CtxRisk : Type := mkCtxRisk {
  cr_flags : Js.nullable (list string);
  cr_level : Js.nullable string;
}.

Record CtxBaseline : Type := mkCtxBaseline {
  cb_amount_ratio : Js.nullable Q;
}.

Record PromptContext : Type := mkPromptContext {
  prompt_template : Js.nullable string;
  pc_transaction : Js.nullable CtxTransaction;
  pc_risk : Js.nullable CtxRisk;
  pc_user_baseline : Js.nullable CtxBaseline;
}.

(** The JSON document of such a context: an absent field has no key, a
    [null] field the value [null]. *)
Definition field {A} (k : string) (enc : A → Js.Value) (x : Js.nullable A)
  : list (string * Js.Value) :=
  match x with
  | Js.Undefined => []
  | Js.Null => [(k, Js.VNull)]
  | Js.Val a => [(k, enc a)]
  end.

Definition json_of_transaction (t : CtxTransaction) : Js.Value :=
  Js.VObj (field "amount" Js.VNum (ct_amount t)
           ++ field "merchant" Js.VStr (ct_merchant t)
           ++ field "city" Js.VStr (ct_city t)).

Definition json_of_risk (r : CtxRisk) : Js.Value :=
  Js.VObj (field "flags" (λ fs, Js.VArr (Js.VStr <$> fs)) (cr_flags r)
           ++ field "level" Js.VStr (cr_level r)).

Definition json_of_baseline (b : CtxBaseline) : Js.Value :=
  Js.VObj (field "amount_ratio" Js.VNum (cb_amount_ratio b)).

Definition json_of_context (c : PromptContext) : Js.Value :=
  Js.VObj (field "prompt_template" Js.VStr (prompt_template c)
           ++ field "transaction" json_of_transaction (pc_transaction c)
           ++ field "risk" json_of_risk (pc_risk c)
           ++ field "user_baseline" json_of_baseline (pc_user_baseline c)).

(** What the route finds under [gemini_prompt_context] when the scoring
    service sent the context [c], or none. *)
Definition context_json (c : Js.nullable PromptContext) : Js.nullable Js.Value :=
  match c with
  | Js.Undefined => Js.Undefined
  | Js.Null => Js.Null
  | Js.Val c => Js.Val (json_of_context c)
  end.

(** What a context says, field by field; [None] where it says nothing. *)
Definition said {A} (x : Js.nullable A) : option A :=
  match x with
  | Js.Val a => Some a
  | _ => None
  end.

Definition transaction_of (c : Js.nullable PromptContext) : option CtxTransaction :=
  said c ≫= λ c, said (pc_transaction c).

Definition risk_of (c : Js.nullable PromptContext) : option CtxRisk :=
  said c ≫= λ c, said (pc_risk c).

Definition baseline_of (c : Js.nullable PromptContext) : option CtxBaseline :=
  said c ≫= λ c, said (pc_user_baseline c).

Definition amount_of (c : Js.nullable PromptContext) : option Q :=
  transaction_of c ≫= λ t, said (ct_amount t).

Definition merchant_of (c : Js.nullable PromptContext) : option string :=
  transaction_of c ≫= λ t, said (ct_merchant t).

Definition flags_of (c : Js.nullable PromptContext) : list string :=
  default [] (risk_of c ≫= λ r, said (cr_flags r)).

Definition level_of (c : Js.nullable PromptContext) : option string :=
  risk_of c ≫= λ r, said (cr_level r).

Definition ratio_of (c : Js.nullable PromptContext) : option Q :=
  baseline_of c ≫= λ b, said (cb_amount_ratio b).

(** The city as a sentence prints it: a city that is [null] prints as
    "null", one that is absent, alone or with the whole transaction, as
    "undefined". *)
Definition city_text (c : Js.nullable PromptContext) : string :=
  match transaction_of c with
  | Some t =>
      match ct_city t with
      | Js.Val s => s
      | Js.Null => "null"
      | Js.Undefined => "undefined"
      end
  | None => "undefined"
  end.

(** The six flag types that have a template of their own, in the order of
    the templates. *)
Inductive FlagType : Type :=
| LargeAmount | HighRiskCategory | NewLocation | NewMerchant | UnusualTime | HighVelocity.

Definition flag_types : list FlagType :=
  [LargeAmount; HighRiskCategory; NewLocation; NewMerchant; UnusualTime; HighVelocity].

Definition flag_code (f : FlagType) : string :=
  match f with
  | LargeAmount => "LARGE_AMOUNT"
  | HighRiskCategory => "HIGH_RISK_CATEGORY"
  | NewLocation => "NEW_LOCATION"
  | NewMerchant => "NEW_MERCHANT"
  | UnusualTime => "UNUSUAL_TIME"
  | HighVelocity => "HIGH_VELOCITY"
  end.

(** The flag types whose code is among the flags of the context. *)
Definition triggered (c : Js.nullable PromptContext) : list FlagType :=
  List.filter (λ f, bool_decide (flag_code f ∈ flags_of c)) flag_types.

(** The sentence of a flag type, filled in from the context: an amount
    that is not said counts as 0, a ratio as 1, a merchant as "Unknown
    merchant". *)
Definition sentence (c : Js.nullable PromptContext) (f : FlagType) : string :=
  match f with
  | LargeAmount =>
      "This purchase ($" +:+ Js.toFixed (default 0%Q (amount_of c)) 2 +:+ ") is "
        +:+ Js.toFixed (default 1%Q (ratio_of c)) 1
        +:+ "x larger than your typical spending"
  | HighRiskCategory =>
      "This merchant type (gift cards or financial transfers) is commonly used in scams targeting seniors"
  | NewLocation =>
      "This transaction is from an unfamiliar location: " +:+ city_text c
  | NewMerchant =>
      "You have not shopped at " +:+ String (Ascii.ascii_of_nat 34)
        (default "Unknown merchant" (merchant_of c))
        +:+ String (Ascii.ascii_of_nat 34) " before"
  | UnusualTime =>
      "This transaction occurred at an unusual hour for your spending pattern"
  | HighVelocity =>
      "Multiple transactions occurred in a short time period"
  end.

(** The explanation made of the templates alone: a summary of level, amount
    and merchant (a level that is not said counts as HIGH), one sentence per
    triggered flag type, or the generic sentence when none is triggered,
    the advice, stronger for the level CRITICAL, and the mark of a
    fallback. *)
Definition template_explanation (c : Js.nullable PromptContext) : Gemini.Explanation :=
  {| Gemini.summary :=
       Some (Js.VStr ("We flagged a " +:+ Js.toLowerCase (default "HIGH" (level_of c))
                        +:+ "-risk transaction of $"
                        +:+ Js.toFixed (default 0%Q (amount_of c)) 2
                        +:+ " at " +:+ default "Unknown merchant" (merchant_of c)
                        +:+ ". Please review it carefully."));
     Gemini.reasons :=
       Some (Js.VArr (Js.VStr <$>
               match triggered c with
               | [] => ["This transaction looks different from your normal spending patterns"]
               | fs => sentence c <$> fs
               end));
     Gemini.action :=
       Some (Js.VStr
               (if bool_decide (level_of c = Some "CRITICAL")
                then "Please contact your bank immediately if you did not make this purchase."
                else "Please review this transaction and confirm whether you made this purchase."));
     Gemini.usedFallback := Some (Js.VBool true) |}.

(** The reply has the three required fields in the required shape. *)
Definition well_formed (v : Js.Value) : bool :=
  match v with
  | Js.VObj fields =>
      Js.truthy (Js.assoc "summary" fields)
      && Js.isArray (Js.assoc "reasons" fields)
      && Js.truthy (Js.assoc "action" fields)
  | _ => false
  end.

(** The generator gave nothing usable: no client, no context to build the
    prompt from, an unreachable generator, a reply that is no JSON, or one
    that lacks a required field. *)
Definition generator_failed (env : Gemini.Env) (c : Js.nullable PromptContext) : bool :=
  negb (Gemini.hasApiKey env)
  || match c with Js.Val _ => false | _ => true end
  || match Gemini.generation env with
     | Gemini.GenerationFails _ => true
     | Gemini.Unparsable => true
     | Gemini.Parsed v => negb (well_formed v)
     end.

(** The scoring service gave no usable answer: unreachable, timed out, an
    error status, or a body that is no JSON. *)
Definition scoring_down (ml : MlService.FetchOutcome) : bool :=
  match ml with
  | MlService.NetworkError => true
  | MlService.TimedOut => true
  | MlService.HttpResponse code json =>
      negb (MlService.ok code) || match json with None => true | Some _ => false end
  end.

(** Socket [sid] is connected and in room [r]. *)
Definition subscribed (sid : Id) (r : Socket.Room) (s : Socket.Io) : Prop :=
  ∃ c, Socket.sockets s !! sid = Some c ∧ r ∈ Socket.s_rooms c.

(** The operation neither closes socket [sid] nor opens a socket under the
    same id. *)
Definition keeps_connection (sid : Id) (op : Op) : Prop :=
  match op with
  | Disconnect sid' => sid' ≠ sid
  | Connect sid' _ => sid' ≠ sid
  | _ => True
  end.

(** From [s] to [s'] the connections stayed as they were and nothing that
    was delivered got lost. *)
Definition io_extends (s s' : Socket.Io) : Prop :=
  Socket.sockets s' = Socket.sockets s
  ∧ ∀ d, d ∈ Socket.delivered s → d ∈ Socket.delivered s'.

(** How many more times a request can be suspended. *)
Definition remaining (pc : Alerts.Pc) : nat :=
  match pc with
  | Alerts.Authenticating => 6
  | Alerts.FindingAlert _ _ => 5
  | Alerts.FindingLink _ _ _ => 4
  | Alerts.CreatingApproval _ _ _ => 3
  | Alerts.UpdatingAlert _ _ _ _ => 2
  | Alerts.FindingWatchers _ _ _ _ => 1
  | Alerts.Done _ => 0
  end.

(** Lines 124 to 160 of routes/alerts.js run without interruption: record
    the approval, update the alert, notify the senior's room and the rooms
    of the active family members, answer. *)
Definition commit (q : Alerts.DecideReq) (w : World) (user : ReqUser)
    (decision : AlertStatus) (alert : Alert) : World * Alerts.Pc :=
  let approval :=
    {| ap_id := nextId (db w); ap_alertId := a_id alert; ap_userId := ru_id user;
       ap_decision := decision; ap_note := Alerts.q_note q; ap_createdAt := clock w |} in
  let w1 := with_db w (add_approval (db w) approval) in
  match alerts (db w) !! a_id alert with
  | None => (w1, Alerts.Done (respond 500 (Error "Record to update not found.")))
  | Some row =>
      let updated := resolve decision (clock w) row in
      let withApprovals := approvals_of (a_id alert) (approvals (db w) ++ [approval]) in
      let w2 := with_db w1 (put_alert (db w1) updated (nextId (db w1))) in
      let s := Socket.emit (Socket.UserRoom (a_seniorId alert))
                 (Socket.AlertUpdate updated withApprovals) (io w2) in
      let w3 := tick (with_io w2 s) in
      let links := active_links (a_seniorId alert) (trustedLinks (db w3)) in
      let s' := foldl (λ s l, Socket.emit (Socket.UserRoom (l_familyId l))
                                (Socket.AlertUpdate updated withApprovals) s)
                  (io w3) links in
      (with_io w3 s',
       Alerts.Done (respond 200 (Decided updated withApprovals approval)))
  end.

(** The request was refused. *)
Definition failed (r : Response) : Prop := 400 ≤ r_status r.

(** The trusted link from [seniorId] to [familyId], if there is one. *)
Definition link_between (w : World) (seniorId familyId : Id) : option TrustedLink :=
  find_link seniorId familyId (trustedLinks (db w)).

(** The links [after] are the links [before] with the status of the row
    [lid] set to [st]: every row is in its place, the row [lid] with the new
    status and its other fields as they were, every other row as it was. *)
Definition status_set (lid : Id) (st : LinkStatus) (before after : list TrustedLink)
  : Prop :=
  length after = length before
  ∧ ∀ i x, before !! i = Some x →
      after !! i =
        Some (if decide (l_id x = lid)
              then {| l_id := l_id x; l_seniorId := l_seniorId x;
                      l_familyId := l_familyId x; l_status := st |}
              else x).

(** From [w] to [w'] nothing but the table of trusted links (and the
    counter of ids) may have changed. *)
Definition only_links_differ (w w' : World) : Prop :=
  users (db w') = users (db w)
  ∧ transactions (db w') = transactions (db w)
  ∧ alerts (db w') = alerts (db w)
  ∧ approvals (db w') = approvals (db w)
  ∧ io w' = io w
  ∧ clock w' = clock w
  ∧ scored w' = scored w.

(** ** The demo household of lib/seed.js *)

Definition margaret : User :=
  {| u_id := 1; u_email := "margaret@demo.com"; u_name := "Margaret Johnson";
     u_role := SENIOR; u_phone := None; u_protectionMode := true;
     u_riskThreshold := 0.3 |}.

Definition sarah : User :=
  {| u_id := 2; u_email := "sarah@demo.com"; u_name := "Sarah Johnson";
     u_role := FAMILY; u_phone := None; u_protectionMode := false;
     u_riskThreshold := 0.3 |}.

(** The two accounts, nothing else yet. *)
Definition household : World :=
  {| db := {| users := [margaret; sarah]; transactions := ∅; alerts := ∅;
              approvals := []; trustedLinks := []; nextId := 3 |};
     io := Socket.empty_io; clock := 0; scored := [] |}.

(** The household after Margaret invited Sarah. *)
Definition circle : World := apply household (Invite (Verified 1) (Some "sarah@demo.com")).

Definition coinflip : Transactions.TxnBody :=
  {| Transactions.amount := Js.Finite 850;
     Transactions.merchant := "CoinFlip ATM";
     Transactions.mcc := "6051";
     Transactions.mccDesc := Some "Gift Cards/Crypto";
     Transactions.city := "Unknown City";
     Transactions.deviceId := None |}.

(** The risk context of the CoinFlip withdrawal against a baseline of $45. *)
Definition coinflip_context : Js.nullable PromptContext :=
  Js.Val
    {| prompt_template := Js.Val "A transaction was flagged...";
       pc_transaction :=
         Js.Val {| ct_amount := Js.Val 850%Q; ct_merchant := Js.Val "CoinFlip ATM";
                   ct_city := Js.Val "Unknown City" |};
       pc_risk :=
         Js.Val {| cr_flags := Js.Val ["LARGE_AMOUNT"; "HIGH_RISK_CATEGORY";
                                       "NEW_LOCATION"; "UNUSUAL_TIME"];
                   cr_level := Js.Val "CRITICAL" |};
       pc_user_baseline := Js.Val {| cb_amount_ratio := Js.Val (850 / 45)%Q |} |}.

(** The scoring service answers with a given score and tier. *)
Definition scored_as (score : Q) (level : string) : MlService.FetchOutcome :=
  MlService.HttpResponse 200
    (Some {| risk_score := score; risk_level := level;
             anomaly_score := score; fraud_probability := score;
             risk_flags := Js.Val []; gemini_prompt_context := Js.Null |}).

Definition no_gemini : Gemini.Env :=
  {| Gemini.hasApiKey := false; Gemini.generation := Gemini.Unparsable |}.

(** The scoring service answers with a given score and tier and hands over
    a given context. *)
Definition scored_with (score : Q) (level : string) (ctx : Js.nullable Js.Value)
  : MlService.FetchOutcome :=
  MlService.HttpResponse 200
    (Some {| risk_score := score; risk_level := level;
             anomaly_score := score; fraud_probability := score;
             risk_flags := Js.Val []; gemini_prompt_context := ctx |}).

(** The context of the CoinFlip withdrawal with the amount sent as a string. *)
Definition string_amount_context : Js.nullable Js.Value :=
  Js.Val
    (Js.VObj
       [("prompt_template", Js.VStr "A transaction was flagged...");
        ("transaction", Js.VObj [("amount", Js.VStr "850.00");
                                 ("merchant", Js.VStr "CoinFlip ATM");
                                 ("city", Js.VStr "Unknown City")]);
        ("risk", Js.VObj [("flags", Js.VArr [Js.VStr "LARGE_AMOUNT";
                                             Js.VStr "HIGH_RISK_CATEGORY";
                                             Js.VStr "NEW_LOCATION";
                                             Js.VStr "UNUSUAL_TIME"]);
                          ("level", Js.VStr "CRITICAL")]);
        ("user_baseline", Js.VObj [("amount_ratio", Js.VNum (850 / 45))])]).

(** The circle with one pending alert: Margaret's CoinFlip withdrawal,
    scored 0.97. *)
Definition flagged : World :=
  apply circle (Submit (Verified 1) coinflip (scored_as 0.97 "CRITICAL") no_gemini).

(** ** Two decisions on the flagged alert, in flight together *)

(** Margaret approves alert 5. *)
Definition margaret_approves : Alerts.DecideReq :=
  {| Alerts.q_token := Verified 1; Alerts.q_alertId := 5;
     Alerts.q_decision := "APPROVED"; Alerts.q_note := None |}.

(** Sarah denies alert 5. *)
Definition sarah_denies : Alerts.DecideReq :=
  {| Alerts.q_token := Verified 2; Alerts.q_alertId := 5;
     Alerts.q_decision := "DENIED"; Alerts.q_note := Some "Looks like a scam" |}.

Definition both_in_flight : list Alerts.Task :=
  [Alerts.start margaret_approves; Alerts.start sarah_denies].

(** Both requests get as far as their status check (request 0 through
    [authenticate] and [alert.findUnique], request 1 in addition through
    [trustedLink.findFirst]) before either writes. *)
Definition both_checked : list nat := [0; 0; 1; 1; 1].

(** Request 0 records its approval. *)
Definition first_approval : list nat := [0].

(** Request 0 updates the alert and notifies. *)
Definition first_finishes : list nat := [0; 0].

(** Request 1 records its approval. *)
Definition second_approval : list nat := [1].

(** Request 1 updates the alert and notifies. *)
Definition second_finishes : list nat := [1; 1].

Definition race : list nat :=
  both_checked ++ first_approval ++ first_finishes ++ second_approval ++ second_finishes.

(** The status of alert 5 and the decisions of the approvals recorded. *)
Definition observe (st : World * list Alerts.Task)
  : option (AlertStatus * option nat) * list AlertStatus :=
  ((λ a, (a_status a, a_resolvedAt a)) <$> alerts (db st.1) !! 5,
   ap_decision <$> approvals (db st.1)).

(** The status codes the requests were answered with so far. *)
Definition answers (st : World * list Alerts.Task) : list (option nat) :=
  (λ k, r_status <$> Alerts.response_of (Alerts.k_pc k)) <$> st.2.

(** The alert table is sound: a row sits under its own id, ids handed out
    so far are below the counter, and a row is unresolved exactly when it is
    PENDING. *)
Definition alerts_sound (d : Db) : Prop :=
  ∀ k a, alerts d !! k = Some a →
    a_id a = k ∧ k < nextId d ∧ (a_resolvedAt a = None ↔ a_status a = PENDING).

(** The decision a suspended request carries is one of the two a request
    can make. *)
Definition pc_sound (pc : Alerts.Pc) : Prop :=
  match pc with
  | Alerts.FindingAlert _ d | Alerts.FindingLink _ d _
  | Alerts.CreatingApproval _ d _ | Alerts.UpdatingAlert _ d _ _ =>
      d = APPROVED ∨ d = DENIED
  | _ => True
  end.

(** ** Vocabulary of the further properties *)

(** The transaction table is sound: a row sits under its own id, below the
    counter. *)
Definition transactions_sound (d : Db) : Prop :=
  ∀ k t, transactions d !! k = Some t → t_id t = k ∧ k < nextId d.

(** Every alert is about a stored transaction of its senior, and every
    approval is about a stored alert. *)
Definition references_sound (d : Db) : Prop :=
  (∀ k a, alerts d !! k = Some a →
     ∃ t, transactions d !! a_transactionId a = Some t ∧ t_userId t = a_seniorId a)
  ∧ (∀ ap, ap ∈ approvals d → is_Some (alerts d !! ap_alertId ap)).

(** A PENDING alert has no approval; any other has exactly one, and it
    carries the alert's status. *)
Definition decided_once (d : Db) : Prop :=
  ∀ k a, alerts d !! k = Some a →
    (a_status a = PENDING → approvals_of k (approvals d) = [])
    ∧ (a_status a ≠ PENDING →
         ∃ ap, approvals_of k (approvals d) = [ap] ∧ ap_decision ap = a_status a).

(** No two link rows share an id or join the same senior to the same family
    member, and the ids are below the counter. *)
Definition links_sound (d : Db) : Prop :=
  NoDup (l_id <$> trustedLinks d)
  ∧ (∀ l, l ∈ trustedLinks d → l_id l < nextId d)
  ∧ (∀ l l', l ∈ trustedLinks d → l' ∈ trustedLinks d →
       l_seniorId l = l_seniorId l' → l_familyId l = l_familyId l' → l = l').

(** The registry [userSockets] lists under a user exactly the live sockets
    that were authenticated as that user. *)
Definition registry_sound (s : Socket.Io) : Prop :=
  ∀ sid u,
    (∃ sids, Socket.userSockets s !! u = Some sids ∧ sid ∈ sids)
    ↔ (∃ c, Socket.sockets s !! sid = Some c ∧ Socket.s_userId c = u).

(** A socket id is handed out once: a [Connect] comes with an id that no
    live socket has. *)
Definition fresh_connect (w : World) (op : Op) : Prop :=
  match op with
  | Connect sid _ => Socket.sockets (io w) !! sid = None
  | _ => True
  end.

(** The operation opens no socket under the id [sid]. *)
Definition not_connect (sid : Id) (op : Op) : Prop :=
  match op with
  | Connect sid' _ => sid' ≠ sid
  | _ => True
  end.

(** What was delivered to socket [sid] so far. *)
Definition deliveries_to (sid : Id) (s : Socket.Io) : list Socket.Delivery :=
  List.filter (λ d, bool_decide (Socket.d_socket d = sid)) (Socket.delivered s).

(** The caller may see and decide the alerts of [seniorId]: it is that
    senior, or a family member with an ACTIVE link from that senior. *)
Definition may_access (d : Db) (user : ReqUser) (seniorId : Id) : Prop :=
  match ru_role user with
  | SENIOR => seniorId = ru_id user
  | FAMILY => is_Some (find_active_link seniorId (ru_id user) (trustedLinks d))
  end.

(** What of an alert is written once: everything but its status and the
    time of its resolution. *)
Definition content (a : Alert)
  : Id * Id * Id * option Js.Value * option Js.Value * option Js.Value * Js.Value * nat :=
  (a_id a, a_seniorId a, a_transactionId a, a_aiSummary a, a_aiReasons a,
   a_aiAction a, a_usedFallback a, a_createdAt a).

(** The ways one request, served alone at time [now], changes the tables. *)
Inductive db_change (d : Db) (now : nat) : Db → Prop :=
| change_none : db_change d now d
| change_transaction t :
    t_id t = nextId d →
    db_change d now (put_transaction d t (S (nextId d)))
| change_alert t a :
    t_id t = nextId d → a_id a = S (nextId d) →
    a_transactionId a = nextId d → a_seniorId a = t_userId t →
    a_status a = PENDING → a_resolvedAt a = None →
    db_change d now (put_alert (put_transaction d t (S (nextId d))) a (S (S (nextId d))))
| change_decision alert decision ap :
    alerts d !! a_id alert = Some alert → a_status alert = PENDING →
    decision = APPROVED ∨ decision = DENIED →
    ap_id ap = nextId d → ap_alertId ap = a_id alert → ap_decision ap = decision →
    db_change d now
      (put_alert (add_approval d ap) (resolve decision now alert) (S (nextId d)))
| change_link_status l st :
    l ∈ trustedLinks d →
    db_change d now
      (with_trustedLinks d (update_link (l_id l) st (trustedLinks d)) (nextId d))
| change_link_new l :
    find_link (l_seniorId l) (l_familyId l) (trustedLinks d) = None →
    l_id l = nextId d →
    db_change d now (with_trustedLinks d (trustedLinks d ++ [l]) (S (nextId d)))
| change_users us :
    db_change d now (with_users d us).

(** All four tables are sound. *)
Definition db_sound (d : Db) : Prop :=
  alerts_sound d ∧ transactions_sound d ∧ references_sound d ∧ links_sound d.

(** ** Vocabulary of the notifications *)

(** Along [ops], every [Connect] comes with an id that no live socket has. *)
Fixpoint fresh_connects (w : World) (ops : list Op) : Prop :=
  match ops with
  | [] => True
  | op :: ops => fresh_connect w op ∧ fresh_connects (apply w op) ops
  end.

(** Every live socket is in the room of the user it was authenticated as. *)
Definition own_room_sound (s : Socket.Io) : Prop :=
  ∀ sid c, Socket.sockets s !! sid = Some c →
    Socket.UserRoom (Socket.s_userId c) ∈ Socket.s_rooms c.

(** The sockets that are in room [r]. *)
Definition members (r : Socket.Room) (s : Socket.Io) : list Id :=
  (List.filter (Socket.in_room r) (map_to_list (Socket.sockets s))).*1.

(** One copy of [e] for every socket of every room of [rooms], room after
    room. *)
Definition fanout (e : Socket.Event) (rooms : list Socket.Room) (s : Socket.Io)
  : list Socket.Delivery :=
  rooms ≫= (λ r, (λ sid, {| Socket.d_socket := sid; Socket.d_event := e |}) <$> members r s).

(** The rooms an event about an alert of [seniorId] is emitted to: the
    senior's own, then the room of every family member with an ACTIVE link,
    in the order of the link table. *)
Definition audience (d : Db) (seniorId : Id) : list Socket.Room :=
  Socket.UserRoom seniorId
    :: ((λ l, Socket.UserRoom (l_familyId l)) <$> active_links seniorId (trustedLinks d)).

(** From [s] to [s'] the event [e] was emitted to [rooms], and nothing else
    happened to the sockets. *)
Definition announces (s s' : Socket.Io) (e : Socket.Event) (rooms : list Socket.Room)
  : Prop :=
  Socket.sockets s' = Socket.sockets s
  ∧ Socket.userSockets s' = Socket.userSockets s
  ∧ Socket.delivered s' = Socket.delivered s ++ fanout e rooms s.

(** The request was not answered with a new alert. *)
Definition without_alert (r : Response) : Prop :=
  ∀ txn alert level score, r ≠ respond 201 (Submitted txn (Some alert) level score).

(** ** The household with Sarah's dashboard connected *)

(** Sarah's dashboard opens socket 7 and watches Margaret. *)
(** The alert of [flagged]. *)
Definition coinflip_alert : Alert :=
  new_alert 5 1 4
    (Some (Js.VStr "We flagged a high-risk transaction of $0.00 at Unknown merchant. Please review it carefully."))
    (Some (Js.VArr [Js.VStr "This transaction looks different from your normal spending patterns"]))
    (Some (Js.VStr "Please review this transaction and confirm whether you made this purchase."))
    (Js.VBool true) 0.

Definition watched : World :=
  apply_all circle [Connect 7 (Socket.Token 2 FAMILY); JoinSenior 7 1].

(** ** Vocabulary of the history *)

(** From [d] to [d'] nothing that was stored got lost: every transaction is
    there unchanged; every alert is there with the content it was created
    with, and unchanged altogether once it is resolved; the approvals were
    only added to; every trusted link is there with its id, senior and
    family member. *)
Definition history_kept (d d' : Db) : Prop :=
  (∀ k t, transactions d !! k = Some t → transactions d' !! k = Some t)
  ∧ (∀ k a, alerts d !! k = Some a →
       ∃ a', alerts d' !! k = Some a' ∧ content a' = content a
             ∧ (a_status a ≠ PENDING → a' = a))
  ∧ (∃ more, approvals d' = approvals d ++ more)
  ∧ (∀ l, l ∈ trustedLinks d →
       ∃ l', l' ∈ trustedLinks d' ∧ l_id l' = l_id l
             ∧ l_seniorId l' = l_seniorId l ∧ l_familyId l' = l_familyId l).

(** ** Vocabulary of the lists *)

(** The same query with another page asked for. *)
Definition with_page (q : AlertsRead.ListQuery) (limit offset : option nat)
  : AlertsRead.ListQuery :=
  {| AlertsRead.lq_status := AlertsRead.lq_status q;
     AlertsRead.lq_seniorId := AlertsRead.lq_seniorId q;
     AlertsRead.lq_limit := limit; AlertsRead.lq_offset := offset |}.

(** The alert of the first answer is at least as new as that of the second. *)
Definition no_older (v v' : AlertsRead.AlertView) : Prop :=
  a_createdAt (AlertsRead.v_alert v') ≤ a_createdAt (AlertsRead.v_alert v).

(** The transaction of the first answer is at least as late as that of the
    second. *)
Definition no_earlier (v v' : TransactionsRead.TxnView) : Prop :=
  t_timestamp (TransactionsRead.tv_transaction v')
  ≤ t_timestamp (TransactionsRead.tv_transaction v).

(** The query without parameters. *)
Definition plain_query : AlertsRead.ListQuery :=
  {| AlertsRead.lq_status := None; AlertsRead.lq_seniorId := None;
     AlertsRead.lq_limit := None; AlertsRead.lq_offset := None |}.

(** ** Vocabulary of the trusted circle *)

(** The operation is no invitation. *)
Definition not_invite (op : Op) : Prop :=
  match op with
  | Invite _ _ => False
  | _ => True
  end.

(** [GET /api/alerts] asked for the alerts of one senior. *)
Definition alerts_of_senior (seniorId : Id) (status : option string)
    (limit offset : option nat) : AlertsRead.ListQuery :=
  {| AlertsRead.lq_status := status; AlertsRead.lq_seniorId := Some seniorId;
     AlertsRead.lq_limit := limit; AlertsRead.lq_offset := offset |}.

(** Who a token stands for: the id, email and role of the authenticated
    user, or the refusal. *)
Definition identity_of (x : Response + ReqUser) : Response + (Id * string * Role) :=
  match x with
  | inl r => inl r
  | inr u => inr (ru_id u, ru_email u, ru_role u)
  end.

(** ** Vocabulary of the interleaved decisions *)

(** The request has not passed its [approval.create] yet. *)
Definition before_create (pc : Alerts.Pc) : nat :=
  match pc with
  | Alerts.Authenticating | Alerts.FindingAlert _ _ | Alerts.FindingLink _ _ _
  | Alerts.CreatingApproval _ _ _ => 1
  | _ => 0
  end.

(** How many of the requests in flight have not passed their
    [approval.create] yet. *)
Definition still_to_create (tasks : list Alerts.Task) : nat :=
  sum_list ((λ k, before_create (Alerts.k_pc k)) <$> tasks).

(* ===================================================================== *)
(** * Part II: the properties *)
(* ===================================================================== *)

(** ** Sanity checks of the built-ins *)

Example toFixed_850 : Js.toFixed 850 2 = "850.00".
Proof. vm_compute. reflexivity. Qed.

Example toFixed_ratio : Js.toFixed (850 / 45) 1 = "18.9".
Proof. vm_compute. reflexivity. Qed.

(** The double nearest to 1.005 lies below it, the one nearest to 0.005
    above it. *)
Example toFixed_rounds_the_double :
  Js.toFixed 1.005 2 = "1.00" ∧ Js.toFixed 0.005 2 = "0.01"
  ∧ Js.toFixed 1.45 1 = "1.4" ∧ Js.toFixed 8.35 1 = "8.3"
  ∧ Js.toFixed 2.675 2 = "2.67" ∧ Js.toFixed 0.35 1 = "0.3"
  ∧ Js.toFixed 2.5 0 = "3" ∧ Js.toFixed (-1.5) 0 = "-2"
  ∧ Js.toFixed (-0.001) 2 = "-0.00".
Proof. vm_compute. repeat split. Qed.

Example toFixed_large :
  Js.toFixed (inject_Z (10 ^ 21)) 2 = "1e+21"
  ∧ Js.toFixed (inject_Z (10 ^ 400)) 2 = "Infinity".
Proof. vm_compute. repeat split. Qed.

Example toString_numbers :
  Js.toString 850 = "850" ∧ Js.toString 0.1 = "0.1"
  ∧ Js.toString (850 / 45) = "18.88888888888889"
  ∧ Js.toString 0.000001 = "0.000001" ∧ Js.toString 0.0000001 = "1e-7"
  ∧ Js.toString (-42.5) = "-42.5"
  ∧ Js.toString (inject_Z (10 ^ 21)) = "1e+21".
Proof. vm_compute. repeat split. Qed.

Example toLowerCase_level : Js.toLowerCase "CRITICAL" = "critical".
Proof. reflexivity. Qed.

Example includes_on_values :
  Js.call_includes "flags" (Js.VArr [Js.VStr "NEW_LOCATION"; Js.VNum 1]) "NEW_LOCATION"
    = Js.Normal true
  ∧ Js.call_includes "flags" (Js.VArr [Js.VStr "NEW_LOCATION"]) "NEW_MERCHANT"
    = Js.Normal false
  ∧ Js.call_includes "flags" (Js.VStr "NEW_LOCATION,NEW_MERCHANT") "NEW_MERCHANT"
    = Js.Normal true
  ∧ Js.call_includes "flags" (Js.VNum 3) "NEW_MERCHANT"
    = Js.Throw "flags.includes is not a function".
Proof. repeat split. Qed.

Example display_of_values :
  Js.display (Js.VArr [Js.VNum 1; Js.VNull; Js.VArr [Js.VStr "a"; Js.VBool true]])
    = Js.Normal "1,,a,true"
  ∧ Js.display (Js.VObj [("city", Js.VStr "Tampa")]) = Js.Normal "[object Object]"
  ∧ Js.display (Js.VObj [("toString", Js.VStr "Tampa")])
    = Js.Throw "Cannot convert object to primitive value"
  ∧ Js.interpolate None = Js.Normal "undefined"
  ∧ Js.interpolate (Some Js.VNull) = Js.Normal "null".
Proof. vm_compute. repeat split. Qed.

Example truthy_values :
  Js.truthy None = false ∧ Js.truthy (Some Js.VNull) = false
  ∧ Js.truthy (Some (Js.VStr EmptyString)) = false
  ∧ Js.truthy (Some (Js.VStr "0")) = true
  ∧ Js.truthy (Some (Js.VNum 0)) = false ∧ Js.truthy (Some (Js.VNum 0.5)) = true
  ∧ Js.truthy (Some (Js.VArr [])) = true ∧ Js.truthy (Some (Js.VObj [])) = true
  ∧ Js.truthy (Some (Js.VBool false)) = false.
Proof. vm_compute. repeat split. Qed.

(** ** The explainer (lib/gemini.js) *)
Section Explainer.

Import Gemini.

(** The prompt of a context of the contract can be written out. *)
Lemma prompt_is_readable c :
  ∃ s, Js.bind (Js.get (json_of_context c) "prompt_template") Js.interpolate
       = Js.Normal s.
Proof.
  destruct c as [[| |?] [| |?] [| |?] [| |?]]; simpl; eauto.
Qed.

Lemma generate_failed env c :
  hasApiKey env = true → generator_failed env c = true →
  ∃ err, generate env (context_json c) = Js.Throw err.
Proof.
  unfold generator_failed, generate. intros -> Hf. simpl in Hf.
  destruct c as [| |c]; [simpl; eauto..|].
  cbn [context_json Js.value_of]. destruct (prompt_is_readable c) as [s ->].
  cbn [Js.bind].
  destruct (generation env) as [err| |v]; simpl; eauto.
  simpl in Hf.
  destruct v as [|b|q|s'|items|fields]; simpl in *; eauto.
  destruct (Js.truthy (Js.assoc "summary" fields)); simpl in *; eauto.
  destruct (Js.isArray (Js.assoc "reasons" fields)); simpl in *; eauto.
  destruct (Js.truthy (Js.assoc "action" fields)); simpl in *; eauto.
  discriminate.
Qed.

(** What the fallback reads in a context of the contract: the three parts,
    of which a part that is [null] reads like one that is absent. *)
Lemma fallback_parts c :
  ∃ transaction risk user_baseline,
    let v := Js.or_else (Js.value_of (context_json c)) (Js.VObj []) in
    Js.get v "transaction" = Js.Normal transaction
    ∧ Js.get v "risk" = Js.Normal risk
    ∧ Js.get v "user_baseline" = Js.Normal user_baseline
    ∧ (∀ k, Js.opt_get transaction k
            = Js.opt_get (json_of_transaction <$> transaction_of c) k)
    ∧ (∀ k, Js.opt_get risk k = Js.opt_get (json_of_risk <$> risk_of c) k)
    ∧ (∀ k, Js.opt_get user_baseline k
            = Js.opt_get (json_of_baseline <$> baseline_of c) k).
Proof.
  destruct c as [| |[pt tr rk bl]]; [do 3 eexists; repeat split..|].
  destruct pt as [| |?], tr as [| |?], rk as [| |?], bl as [| |?];
    do 3 eexists; repeat split.
Qed.

Lemma fallback_transaction (t : option CtxTransaction) :
  Js.coalesce (Js.opt_get (json_of_transaction <$> t) "amount") (Js.VNum 0)
    = Js.VNum (default 0%Q (t ≫= λ t, said (ct_amount t)))
  ∧ Js.coalesce (Js.opt_get (json_of_transaction <$> t) "merchant")
      (Js.VStr "Unknown merchant")
    = Js.VStr (default "Unknown merchant" (t ≫= λ t, said (ct_merchant t)))
  ∧ Js.interpolate (Js.opt_get (json_of_transaction <$> t) "city")
    = Js.Normal match t with
                | Some t => match ct_city t with
                            | Js.Val s => s
                            | Js.Null => "null"
                            | Js.Undefined => "undefined"
                            end
                | None => "undefined"
                end.
Proof.
  destruct t as [[[| |?] [| |?] [| |?]]|]; repeat split.
Qed.

Lemma fallback_risk (r : option CtxRisk) :
  Js.coalesce (Js.opt_get (json_of_risk <$> r) "flags") (Js.VArr [])
    = Js.VArr (Js.VStr <$> default [] (r ≫= λ r, said (cr_flags r)))
  ∧ Js.coalesce (Js.opt_get (json_of_risk <$> r) "level") (Js.VStr "HIGH")
    = Js.VStr (default "HIGH" (r ≫= λ r, said (cr_level r))).
Proof.
  destruct r as [[[| |?] [| |?]]|]; repeat split.
Qed.

Lemma fallback_baseline (b : option CtxBaseline) :
  Js.coalesce (Js.opt_get (json_of_baseline <$> b) "amount_ratio") (Js.VNum 1)
    = Js.VNum (default 1%Q (b ≫= λ b, said (cb_amount_ratio b))).
Proof.
  destruct b as [[[| |?]]|]; reflexivity.
Qed.

(** [flags.includes(code)] on the flags of a context of the contract. *)
Lemma includes_flag (flags : list string) (code : string) :
  Js.call_includes "flags" (Js.VArr (Js.VStr <$> flags)) code
  = Js.Normal (bool_decide (code ∈ flags)).
Proof.
  cbn [Js.call_includes]. f_equal.
  induction flags as [|x flags IH]; [done|].
  rewrite fmap_cons. cbn [existsb Js.is_string]. rewrite IH.
  destruct (String.eqb_spec x code) as [->|Hne]; simpl.
  - symmetry. apply bool_decide_eq_true_2. left.
  - destruct (bool_decide (code ∈ flags)) eqn:H.
    + apply bool_decide_eq_true in H. symmetry. apply bool_decide_eq_true_2. by right.
    + apply bool_decide_eq_false in H. symmetry. apply bool_decide_eq_false_2.
      intros [?|?]%elem_of_cons; [by subst|done].
Qed.

(** On a context of the contract, or none, the fallback returns, and what
    it returns is the explanation made of the templates. *)
Lemma buildFallbackExplanation_template c :
  buildFallbackExplanation (context_json c) = Js.Normal (template_explanation c).
Proof.
  unfold buildFallbackExplanation.
  destruct (fallback_parts c) as (tr & rk & bl & Htr & Hrk & Hbl & Ht & Hr & Hb).
  cbv zeta in Htr, Hrk, Hbl. rewrite Htr, Hrk, Hbl. cbn [Js.bind].
  rewrite !Ht, !Hr, !Hb.
  destruct (fallback_transaction (transaction_of c)) as (-> & -> & ->).
  destruct (fallback_risk (risk_of c)) as (-> & ->).
  rewrite fallback_baseline.
  unfold push_if_includes. rewrite !includes_flag.
  unfold template_explanation, triggered, flag_types, city_text.
  cbn [List.filter flag_code].
  fold (flags_of c) (amount_of c) (merchant_of c) (ratio_of c) (level_of c).
  replace (Js.is_string (Js.VStr (default "HIGH" (level_of c))) "CRITICAL")
    with (bool_decide (level_of c = Some "CRITICAL")).
  2:{ destruct (level_of c) as [l|]; [|done]. simpl.
      destruct (String.eqb_spec l "CRITICAL") as [->|Hne].
      - by apply bool_decide_eq_true_2.
      - apply bool_decide_eq_false_2. by intros [=]. }
  cbn [Js.call_toFixed Js.call_toLowerCase Js.display].
  destruct (bool_decide ("LARGE_AMOUNT" ∈ flags_of c));
  destruct (bool_decide ("HIGH_RISK_CATEGORY" ∈ flags_of c));
  destruct (bool_decide ("NEW_LOCATION" ∈ flags_of c));
  destruct (bool_decide ("NEW_MERCHANT" ∈ flags_of c));
  destruct (bool_decide ("UNUSUAL_TIME" ∈ flags_of c));
  destruct (bool_decide ("HIGH_VELOCITY" ∈ flags_of c)); reflexivity.
Qed.

(** On a context of the contract, or none, [explainTransaction] returns;
    what it returns after a failure of the generator is the explanation
    made of the templates. *)
Lemma explainTransaction_returns env c :
  ∃ e, explainTransaction env (context_json c) = Js.Normal e
       ∧ (generator_failed env c = true → e = template_explanation c).
Proof.
  unfold explainTransaction, getClient.
  destruct (hasApiKey env) eqn:Hkey; cbn [Js.try_catch].
  - destruct (generator_failed env c) eqn:Hf.
    + destruct (generate_failed env c Hkey Hf) as [err ->]. cbn [Js.try_catch].
      rewrite buildFallbackExplanation_template. eauto.
    + destruct (generate env (context_json c)) as [e|err]; cbn [Js.try_catch].
      * eexists; split; [reflexivity|discriminate].
      * rewrite buildFallbackExplanation_template. eauto.
  - rewrite buildFallbackExplanation_template. eauto.
Qed.

(** Without a context the explainer returns, whatever the generator does. *)
Lemma explainTransaction_null env :
  ∃ e, explainTransaction env Js.Null = Js.Normal e.
Proof.
  destruct (explainTransaction_returns env Js.Null) as (e & He & _). eauto.
Qed.

End Explainer.

(** C8 (the code departs from it): the scoring service sends the context of
    the CoinFlip withdrawal with the amount as the string "850.00".
    [explainTransaction] does not return: the fallback, which both the
    branch without a client and the [catch] call outside any [try], calls
    [amount.toFixed] on the string and throws. So it is without an API key
    and, with one, when the generator is unreachable, when its reply does
    not parse and when the reply lacks a required field. The submission is
    then answered 500 with the message of the exception; the transaction is
    stored and scored, no alert is stored and nothing is emitted. *)
Theorem explanation_throws_on_a_string_amount :
  let keyed reply := {| Gemini.hasApiKey := true; Gemini.generation := reply |} in
  let thrown : Js.Completion Gemini.Explanation :=
    Js.Throw "amount.toFixed is not a function" in
  Gemini.buildFallbackExplanation string_amount_context = thrown
  ∧ Gemini.explainTransaction no_gemini string_amount_context = thrown
  ∧ Gemini.explainTransaction (keyed (Gemini.GenerationFails "fetch failed"))
      string_amount_context = thrown
  ∧ Gemini.explainTransaction (keyed Gemini.Unparsable) string_amount_context = thrown
  ∧ Gemini.explainTransaction
      (keyed (Gemini.Parsed (Js.VObj [("summary", Js.VStr "Looks risky")])))
      string_amount_context = thrown
  ∧ let answered :=
      Transactions.post circle (Verified 1) coinflip
        (scored_with 0.97 "CRITICAL" string_amount_context) no_gemini in
    answered.2 = respond 500 (Error "amount.toFixed is not a function")
    ∧ (∃ txn, transactions (db answered.1) !! 4 = Some txn
              ∧ t_merchant txn = "CoinFlip ATM"
              ∧ t_riskScore txn = Some 0.97%Q
              ∧ t_riskLevel txn = Some "CRITICAL")
    ∧ alerts (db answered.1) = ∅
    ∧ Socket.delivered (io answered.1) = [].
Proof.
  vm_compute. repeat split. eexists. repeat split.
Qed.

(** A reply without reasons and action is answered with the fallback. *)
Example incomplete_reply_falls_back :
  Gemini.explainTransaction
    {| Gemini.hasApiKey := true;
       Gemini.generation := Gemini.Parsed (Js.VObj [("summary", Js.VStr "Looks risky")]) |}
    (context_json coinflip_context)
  = Js.Normal
      {| Gemini.summary := Some (Js.VStr "We flagged a critical-risk transaction of $850.00 at CoinFlip ATM. Please review it carefully.");
         Gemini.reasons :=
           Some (Js.VArr
                   [Js.VStr "This purchase ($850.00) is 18.9x larger than your typical spending";
                    Js.VStr "This merchant type (gift cards or financial transfers) is commonly used in scams targeting seniors";
                    Js.VStr "This transaction is from an unfamiliar location: Unknown City";
                    Js.VStr "This transaction occurred at an unusual hour for your spending pattern"]);
         Gemini.action := Some (Js.VStr "Please contact your bank immediately if you did not make this purchase.");
         Gemini.usedFallback := Some (Js.VBool true) |}.
Proof. vm_compute. reflexivity. Qed.

(** A reply of the required shape is returned as it came. *)
Example complete_reply_is_returned :
  Gemini.explainTransaction
    {| Gemini.hasApiKey := true;
       Gemini.generation :=
         Gemini.Parsed (Js.VObj [("summary", Js.VStr "Looks risky");
                                 ("reasons", Js.VArr [Js.VStr "a"; Js.VStr "b"]);
                                 ("action", Js.VStr "Call your bank")]) |}
    (context_json coinflip_context)
  = Js.Normal
      {| Gemini.summary := Some (Js.VStr "Looks risky");
         Gemini.reasons := Some (Js.VArr [Js.VStr "a"; Js.VStr "b"]);
         Gemini.action := Some (Js.VStr "Call your bank");
         Gemini.usedFallback := None |}.
Proof. reflexivity. Qed.

(** The fallback on contexts that are not of the contract: flags sent as
    one string are searched as text; a merchant sent as a number is printed
    as the number; flags or a level of another type make it throw. *)
Example fallback_on_other_contexts :
  Js.bind
    (Gemini.buildFallbackExplanation
       (Js.Val (Js.VObj [("risk", Js.VObj [("flags", Js.VStr "UNUSUAL_TIME,HIGH_VELOCITY")])])))
    (λ e, Js.Normal (Gemini.reasons e))
  = Js.Normal
      (Some (Js.VArr
               [Js.VStr "This transaction occurred at an unusual hour for your spending pattern";
                Js.VStr "Multiple transactions occurred in a short time period"]))
  ∧ Js.bind
      (Gemini.buildFallbackExplanation
         (Js.Val (Js.VObj [("transaction", Js.VObj [("merchant", Js.VNum 7)])])))
      (λ e, Js.Normal (Gemini.summary e))
    = Js.Normal
        (Some (Js.VStr "We flagged a high-risk transaction of $0.00 at 7. Please review it carefully."))
  ∧ Gemini.buildFallbackExplanation
      (Js.Val (Js.VObj [("risk", Js.VObj [("flags", Js.VNum 2)])]))
    = Js.Throw "flags.includes is not a function"
  ∧ Gemini.buildFallbackExplanation
      (Js.Val (Js.VObj [("risk", Js.VObj [("level", Js.VNum 3)])]))
    = Js.Throw "riskLevel.toLowerCase is not a function"
  ∧ Gemini.buildFallbackExplanation (Js.Val (Js.VStr "not an object"))
    = Gemini.buildFallbackExplanation Js.Null.
Proof. vm_compute. repeat split. Qed.

(** ** Scoring outage (lib/mlService.js, routes/transactions.js) *)
Section Outage.

Lemma scoreTransaction_default ml :
  scoring_down ml = true →
  MlService.scoreTransaction ml = Js.Normal MlService.default_result.
Proof.
  unfold scoring_down, MlService.scoreTransaction, MlService.fetch_score.
  destruct ml as [| |code [r|]]; simpl; try reflexivity.
  - destruct (MlService.ok code); simpl; [discriminate|reflexivity].
  - destruct (MlService.ok code); reflexivity.
Qed.

Lemma authenticate_found d uid u :
  find_user uid (users d) = Some u →
  authenticate d (Verified uid) =
  inr {| ru_id := u_id u; ru_email := u_email u; ru_name := u_name u;
         ru_role := u_role u; ru_protectionMode := u_protectionMode u |}.
Proof. intros H. unfold authenticate. by rewrite H. Qed.

Lemma find_user_id uid us u : find_user uid us = Some u → u_id u = uid.
Proof.
  unfold find_user. intros H. apply find_some in H as [_ H].
  by apply bool_decide_eq_true in H.
Qed.

End Outage.

(** C3: a transaction submitted by a senior while the scoring service is
    unreachable or times out is still accepted (201): the transaction is
    stored with the submitted fields, its scoring annex holds the fixed
    neutral result (0.35, MEDIUM, 0.35, 0.35, no flags), the explainer is
    handed the [null] context, and, 0.35 reaching the threshold 0.30, a
    PENDING alert is stored for it. *)
Theorem scoring_outage_fails_open (w : World) (uid : Id) (u : User)
    (b : Transactions.TxnBody) (ml : MlService.FetchOutcome) (gem : Gemini.Env) :
  find_user uid (users (db w)) = Some u →
  u_role u = SENIOR →
  scoring_down ml = true →
  ∃ w' txn alert,
    Transactions.post w (Verified uid) b ml gem
      = (w', respond 201 (Submitted txn (Some alert) "MEDIUM" 0.35))
    ∧ MlService.scoreTransaction ml = Js.Normal MlService.default_result
    ∧ gemini_prompt_context MlService.default_result = Js.Null
    ∧ transactions (db w') !! t_id txn = Some txn
    ∧ t_userId txn = uid
    ∧ t_amount txn = Transactions.amount b
    ∧ t_merchant txn = Transactions.merchant b
    ∧ t_riskScore txn = Some 0.35%Q
    ∧ t_riskLevel txn = Some "MEDIUM"
    ∧ t_anomalyScore txn = Some 0.35%Q
    ∧ t_fraudProbability txn = Some 0.35%Q
    ∧ t_riskFlags txn = []
    ∧ alerts (db w') !! a_id alert = Some alert
    ∧ a_transactionId alert = t_id txn
    ∧ a_seniorId alert = uid
    ∧ a_status alert = PENDING
    ∧ a_resolvedAt alert = None.
Proof.
  intros Hu Hrole Hdown.
  pose proof (find_user_id _ _ _ Hu) as Hid.
  unfold Transactions.post.
  rewrite (authenticate_found _ _ _ Hu). unfold requireSenior. simpl. rewrite Hrole.
  rewrite (scoreTransaction_default _ Hdown). simpl.
  unfold Transactions.raise_alert. simpl.
  destruct (explainTransaction_null gem) as (e & ->).
  do 3 eexists. split; [reflexivity|]. simpl.
  repeat split; try done.
  - apply lookup_insert_eq.
  - apply lookup_insert_eq.
Qed.

Lemma scoring_outage_fails_open_witness :
  ∃ w' txn alert,
    Transactions.post
      {| db := {| users := [mkUser 1 "margaret@demo.com" "Margaret" SENIOR None true 0.3];
                  transactions := ∅; alerts := ∅; approvals := []; trustedLinks := [];
                  nextId := 2 |};
         io := Socket.empty_io; clock := 0; scored := [] |}
      (Verified 1)
      (Transactions.mkTxnBody (Js.Finite 42.5) "Publix" "5411" None "Tampa" None)
      MlService.TimedOut
      (Gemini.mkEnv false Gemini.Unparsable)
    = (w', respond 201 (Submitted txn (Some alert) "MEDIUM" 0.35))
    ∧ a_status alert = PENDING.
Proof.
  edestruct (scoring_outage_fails_open
    {| db := {| users := [mkUser 1 "margaret@demo.com" "Margaret" SENIOR None true 0.3];
                transactions := ∅; alerts := ∅; approvals := []; trustedLinks := [];
                nextId := 2 |};
       io := Socket.empty_io; clock := 0; scored := [] |}
    1 (mkUser 1 "margaret@demo.com" "Margaret" SENIOR None true 0.3)
    (Transactions.mkTxnBody (Js.Finite 42.5) "Publix" "5411" None "Tampa" None)
    MlService.TimedOut (Gemini.mkEnv false Gemini.Unparsable))
    as (w' & txn & alert & H).
  - reflexivity.
  - reflexivity.
  - reflexivity.
  - exists w', txn, alert. split; [apply H|]. apply H.
Defined.

(** ** Delivery (lib/socket.js) *)
Section Delivery.

Import Socket.

Lemma emit_sockets r e s : sockets (emit r e s) = sockets s.
Proof. reflexivity. Qed.

Lemma emit_subscribed sid r r' e s :
  subscribed sid r s → subscribed sid r (emit r' e s).
Proof. intros H. exact H. Qed.

Lemma emit_keeps d r e s : d ∈ delivered s → d ∈ delivered (emit r e s).
Proof. intros H. simpl. apply elem_of_app. by left. Qed.

(** An emit to a room reaches every socket that is in it. *)
Lemma emit_delivers sid r e s :
  subscribed sid r s → {| d_socket := sid; d_event := e |} ∈ delivered (emit r e s).
Proof.
  intros (c & Hc & Hr). simpl. apply elem_of_app. right.
  apply list_elem_of_fmap. exists (sid, c). split; [reflexivity|].
  apply list_elem_of_In, filter_In. split.
  - apply list_elem_of_In. by apply elem_of_map_to_list.
  - unfold in_room. simpl. by apply bool_decide_eq_true.
Qed.

(** It reaches no other socket. *)
Lemma emit_delivers_only d r e s :
  d ∈ delivered (emit r e s) →
  d ∈ delivered s ∨ (d_event d = e ∧ subscribed (d_socket d) r s).
Proof.
  simpl. intros H. apply elem_of_app in H as [H|H]; [by left|right].
  apply list_elem_of_fmap in H as ([sid c] & -> & H).
  apply list_elem_of_In, filter_In in H as [Hin Hr].
  apply list_elem_of_In, elem_of_map_to_list in Hin.
  split; [reflexivity|]. exists c. split; [exact Hin|].
  unfold in_room in Hr. by apply bool_decide_eq_true in Hr.
Qed.

Lemma emit_each_sockets (room_of : TrustedLink → Room) e links s :
  sockets (foldl (λ s l, emit (room_of l) e s) s links) = sockets s.
Proof. revert s. induction links as [|l links IH]; intros s; simpl; [done|by rewrite IH]. Qed.

Lemma emit_each_keeps (room_of : TrustedLink → Room) e links s d :
  d ∈ delivered s → d ∈ delivered (foldl (λ s l, emit (room_of l) e s) s links).
Proof.
  revert s. induction links as [|l links IH]; intros s H; simpl; [done|].
  apply IH. by apply emit_keeps.
Qed.

Lemma emit_each_delivers_only (room_of : TrustedLink → Room) e links s d :
  d ∈ delivered (foldl (λ s l, emit (room_of l) e s) s links) →
  d ∈ delivered s
  ∨ ∃ l, l ∈ links ∧ d_event d = e ∧ subscribed (d_socket d) (room_of l) s.
Proof.
  revert s. induction links as [|l links IH]; intros s H; simpl in H; [by left|].
  apply IH in H as [H|(l' & Hl' & He & Hsub)].
  - apply emit_delivers_only in H as [H|[He Hsub]]; [by left|right].
    exists l. split; [by left|done].
  - right. exists l'. split; [by right|done].
Qed.

End Delivery.

(** ** What the handlers do to the sockets *)
Section HandlersAndSockets.

Import Socket.

Lemma io_extends_refl s : io_extends s s.
Proof. by split. Qed.

Lemma io_extends_trans s1 s2 s3 : io_extends s1 s2 → io_extends s2 s3 → io_extends s1 s3.
Proof. intros [H1 H2] [H3 H4]. split; [congruence|auto]. Qed.

Lemma io_extends_emit r e s : io_extends s (emit r e s).
Proof. split; [reflexivity|]. intros d. apply emit_keeps. Qed.

Lemma io_extends_emit_each (room_of : TrustedLink → Room) e links s :
  io_extends s (foldl (λ s l, emit (room_of l) e s) s links).
Proof. split; [apply emit_each_sockets|]. intros d. apply emit_each_keeps. Qed.

Lemma io_extends_subscribed sid r s s' :
  io_extends s s' → subscribed sid r s → subscribed sid r s'.
Proof. intros [Hs _] (c & Hc & Hr). exists c. by rewrite Hs. Qed.

Create HintDb io.
Hint Resolve io_extends_refl io_extends_emit io_extends_emit_each : io.

Lemma raise_alert_io w user scoredTxn riskResult gem :
  io_extends (io w) (io (Transactions.raise_alert w user scoredTxn riskResult gem).1).
Proof.
  unfold Transactions.raise_alert.
  destruct (Gemini.explainTransaction _ _); simpl; [|auto with io].
  eapply io_extends_trans; [|apply io_extends_emit_each]. auto with io.
Qed.

Lemma post_io w token b ml gem :
  io_extends (io w) (io (Transactions.post w token b ml gem).1).
Proof.
  unfold Transactions.post.
  destruct (authenticate _ _) as [r|user]; simpl; [auto with io|].
  destruct (requireSenior user); simpl; [auto with io|].
  destruct (MlService.scoreTransaction ml) as [riskResult|err]; simpl; [|auto with io].
  destruct (Qle_bool _ _); simpl; [|auto with io].
  match goal with |- io_extends _ (io (Transactions.raise_alert ?w' _ _ _ _).1) =>
    exact (raise_alert_io w' _ _ _ _) end.
Qed.

(** The alert a submission answers with was announced to every socket in
    the senior's room. *)
Lemma post_delivers w token b ml gem w' txn alert level score sid :
  Transactions.post w token b ml gem
    = (w', respond 201 (Submitted txn (Some alert) level score)) →
  subscribed sid (UserRoom (a_seniorId alert)) (io w) →
  ∃ seniorName familyMembers,
    {| d_socket := sid; d_event := AlertNew alert seniorName familyMembers |}
      ∈ delivered (io w').
Proof.
  unfold Transactions.post.
  destruct (authenticate _ _) as [r|user] eqn:Ha; simpl.
  { intros [= <- ->]. unfold authenticate in Ha. repeat case_match; simplify_eq. }
  destruct (requireSenior user) as [r|] eqn:Hrs; simpl.
  { intros [= <- ->]. unfold requireSenior in Hrs. case_match; simplify_eq. }
  destruct (MlService.scoreTransaction ml) as [riskResult|err]; simpl; [|intros [=]].
  destruct (Qle_bool _ _); simpl; [|intros [=]].
  unfold Transactions.raise_alert.
  destruct (Gemini.explainTransaction _ _) as [e|err]; simpl; [|intros [=]].
  intros [= <- <- <- _ _] Hsub. simpl in Hsub.
  do 2 eexists. apply emit_each_keeps. apply emit_delivers. exact Hsub.
Qed.

End HandlersAndSockets.

(** ** The decide handler run on its own (routes/alerts.js) *)
Section DecideAlone.

Import Alerts.

Lemma run_done n q w r : run n q w (Done r) = (w, Done r).
Proof. by destruct n. Qed.

Lemma run_S n q w pc :
  run (S n) q w pc = run n q (step q w pc).1 (step q w pc).2.
Proof.
  simpl. destruct pc; try (by destruct (step q w _)).
  simpl. by rewrite run_done.
Qed.

(** The three writes-and-notify steps that follow a passed access check. *)
Lemma run_commit n q w user decision alert :
  run (3 + n) q w (CreatingApproval user decision alert) = commit q w user decision alert.
Proof.
  change (3 + n)%nat with (S (S (S n))).
  rewrite !run_S. unfold commit. simpl.
  destruct (alerts (db w) !! a_id alert) as [row|]; simpl; by rewrite run_done.
Qed.

(** The handler in direct style. *)
Lemma post_decide_eq w q :
  post_decide w q =
  match authenticate (db w) (q_token q) with
  | inl r => (w, Some r)
  | inr user =>
      match valid_decision (q_decision q) with
      | None => (w, Some (respond 400 (Error "decision must be APPROVED or DENIED")))
      | Some decision =>
          match after_find user decision (alerts (db w) !! q_alertId q) with
          | FindingLink u d alert =>
              match find_active_link (a_seniorId alert) (ru_id u) (trustedLinks (db w)) with
              | None => (w, Some (respond 403 (Error "Not in trusted circle")))
              | Some _ => ((commit q w u d alert).1, response_of (commit q w u d alert).2)
              end
          | CreatingApproval u d alert =>
              ((commit q w u d alert).1, response_of (commit q w u d alert).2)
          | pc => (w, response_of pc)
          end
      end
  end.
Proof.
  unfold post_decide. rewrite run_S. cbn [step].
  destruct (authenticate _ _) as [r|user]; cbn [fst snd].
  { by rewrite run_done. }
  destruct (valid_decision _) as [decision|]; cbn [fst snd].
  2: { by rewrite run_done. }
  rewrite run_S. cbn [step fst snd].
  destruct (after_find user decision _) as [| | u d alert | u d alert | | |r] eqn:Hpc.
  - unfold after_find in Hpc. repeat case_match; simplify_eq.
  - unfold after_find in Hpc. repeat case_match; simplify_eq.
  - rewrite run_S. cbn [step].
    destruct (find_active_link _ _ _); cbn [fst snd].
    + rewrite (run_commit 0). by destruct (commit q w u d alert).
    + by rewrite run_done.
  - rewrite (run_commit 1). by destruct (commit q w u d alert).
  - unfold after_find in Hpc. repeat case_match; simplify_eq.
  - unfold after_find in Hpc. repeat case_match; simplify_eq.
  - by rewrite run_done.
Qed.

Lemma step_remaining q w pc : remaining (step q w pc).2 ≤ pred (remaining pc).
Proof.
  destruct pc; simpl; try lia.
  - destruct (authenticate _ _); simpl; [lia|].
    destruct (valid_decision _); simpl; lia.
  - unfold after_find. destruct (alerts (db w) !! q_alertId q) as [alert|]; simpl; [|lia].
    destruct (bool_decide _); simpl; [|lia].
    destruct (ru_role user); simpl; [|lia].
    destruct (bool_decide _); simpl; lia.
  - destruct (find_active_link _ _ _); simpl; lia.
  - destruct (alerts (db w) !! a_id alert); simpl; lia.
Qed.

Lemma run_ends n q w pc :
  remaining pc ≤ n → ∃ r, (run n q w pc).2 = Done r.
Proof.
  revert w pc. induction n as [|n IH]; intros w pc Hn.
  - destruct pc; simpl in Hn; try lia. simpl. eauto.
  - rewrite run_S. apply IH.
    pose proof (step_remaining q w pc). lia.
Qed.

(** Every request is answered. *)
Lemma post_decide_answers w q : ∃ r, (post_decide w q).2 = Some r.
Proof.
  unfold post_decide.
  destruct (run_ends 6 q w Authenticating) as [r Hr]; [simpl; lia|].
  destruct (run 6 q w Authenticating) as [w' pc]. simpl in *. subst pc.
  simpl. eauto.
Qed.

End DecideAlone.

(** ** The decide handler and the sockets *)
Section DecideAndSockets.

Import Alerts Socket.

Lemma after_find_family user decision found u d alert :
  after_find user decision found = FindingLink u d alert →
  u = user ∧ d = decision ∧ found = Some alert
  ∧ a_status alert = PENDING ∧ ru_role user = FAMILY.
Proof.
  unfold after_find. intros H. repeat case_match; simplify_eq.
  repeat split; try done.
  match goal with H : negb (bool_decide _) = false |- _ =>
    apply negb_false_iff, bool_decide_eq_true in H; exact H end.
Qed.

Lemma after_find_senior user decision found u d alert :
  after_find user decision found = CreatingApproval u d alert →
  u = user ∧ d = decision ∧ found = Some alert
  ∧ a_status alert = PENDING ∧ ru_role user = SENIOR ∧ a_seniorId alert = ru_id user.
Proof.
  unfold after_find. intros H. repeat case_match; simplify_eq.
  repeat match goal with H : negb (bool_decide _) = false |- _ =>
    apply negb_false_iff, bool_decide_eq_true in H end.
  done.
Qed.

Lemma after_find_refused user decision found r :
  after_find user decision found = Done r →
  r_status r = 404 ∨ r_status r = 409 ∨ r_status r = 403.
Proof. unfold after_find. intros H. repeat case_match; simplify_eq; simpl; auto. Qed.

Lemma commit_io q w user decision alert :
  io_extends (io w) (io (commit q w user decision alert).1).
Proof.
  unfold commit. destruct (alerts (db w) !! a_id alert); simpl.
  - eapply io_extends_trans;
      [|apply (io_extends_emit_each (λ l, UserRoom (l_familyId l)))].
    apply io_extends_emit.
  - apply io_extends_refl.
Qed.

Lemma post_decide_io w q : io_extends (io w) (io (post_decide w q).1).
Proof.
  rewrite post_decide_eq.
  repeat case_match; simpl; try apply io_extends_refl; apply commit_io.
Qed.

Lemma commit_delivers q w user decision alert updated withApprovals approval sid :
  (commit q w user decision alert).2
    = Done (respond 200 (Decided updated withApprovals approval)) →
  subscribed sid (UserRoom (a_seniorId alert)) (io w) →
  {| d_socket := sid; d_event := AlertUpdate updated withApprovals |}
    ∈ delivered (io (commit q w user decision alert).1).
Proof.
  unfold commit. destruct (alerts (db w) !! a_id alert); simpl; [|intros [=]].
  intros [= <- <- _] Hsub.
  apply emit_each_keeps. by apply emit_delivers.
Qed.

(** The update a successful decision answers with was announced to every
    socket in the room of the alert's senior. *)
Lemma post_decide_delivers w q alert w' updated withApprovals approval sid :
  alerts (db w) !! q_alertId q = Some alert →
  post_decide w q = (w', Some (respond 200 (Decided updated withApprovals approval))) →
  subscribed sid (UserRoom (a_seniorId alert)) (io w) →
  {| d_socket := sid; d_event := AlertUpdate updated withApprovals |} ∈ delivered (io w').
Proof.
  intros Halert. rewrite post_decide_eq.
  destruct (authenticate _ _) as [r|user] eqn:Ha.
  { intros [= <- ->]. unfold authenticate in Ha. repeat case_match; simplify_eq. }
  destruct (valid_decision _) as [decision|]; [|intros [=]].
  destruct (after_find user decision _) as [| | u d a | u d a | | |r] eqn:Hpc;
    try (intros [=]; fail).
  - apply after_find_family in Hpc as (-> & -> & Hf & _). rewrite Halert in Hf.
    simplify_eq. destruct (find_active_link _ _ _); [|intros [=]].
    intros [= <- Hr] Hsub. eapply commit_delivers; [|done].
    destruct (commit q w user decision a).2; simplify_eq/=. reflexivity.
  - apply after_find_senior in Hpc as (-> & -> & Hf & _). rewrite Halert in Hf.
    simplify_eq.
    intros [= <- Hr] Hsub. eapply commit_delivers; [|done].
    destruct (commit q w user decision a).2; simplify_eq/=. reflexivity.
  - apply after_find_refused in Hpc. intros [= <- ->]. simpl in Hpc. lia.
Qed.

Lemma post_invite_io w token email : io (Trusted.post_invite w token email).1 = io w.
Proof. unfold Trusted.post_invite. by repeat case_match. Qed.

Lemma delete_io w token familyId : io (Trusted.delete w token familyId).1 = io w.
Proof. unfold Trusted.delete. by repeat case_match. Qed.

Lemma patch_settings_io w token b : io (Users.patch_settings w token b).1 = io w.
Proof. unfold Users.patch_settings. by repeat case_match. Qed.

(** A subscription lasts as long as the socket. *)
Lemma apply_keeps_subscription w op sid r :
  keeps_connection sid op →
  subscribed sid r (io w) → subscribed sid r (io (apply w op)).
Proof.
  intros Hop Hsub. destruct op; simpl in *.
  - eapply io_extends_subscribed; [apply post_io|done].
  - eapply io_extends_subscribed; [apply post_decide_io|done].
  - by rewrite post_invite_io.
  - by rewrite delete_io.
  - by rewrite patch_settings_io.
  - destruct Hsub as (c & Hc & Hr). exists c. split; [|done].
    unfold connection. destruct h; simpl; try done.
    by rewrite lookup_insert_ne.
  - destruct Hsub as (c & Hc & Hr).
    destruct (decide (sid0 = sid)) as [->|Hne].
    + exists (join (UserRoom seniorId) c). split.
      * simpl. rewrite lookup_alter_eq. by rewrite Hc.
      * simpl. set_solver.
    + exists c. split; [|done]. simpl. by rewrite lookup_alter_ne.
  - destruct Hsub as (c & Hc & Hr). exists c. split; [|done].
    unfold on_disconnect. destruct (sockets (io w) !! sid0); simpl; [|done].
    by rewrite lookup_delete_ne.
Qed.

Lemma apply_all_keeps_subscription ops w sid r :
  Forall (keeps_connection sid) ops →
  subscribed sid r (io w) → subscribed sid r (io (apply_all w ops)).
Proof.
  revert w. induction ops as [|op ops IH]; intros w Hops Hsub; [done|].
  inversion Hops; subst. simpl. apply IH; [done|].
  by apply apply_keeps_subscription.
Qed.

End DecideAndSockets.

(** C10: [join:senior] subscribes unconditionally. For every connected
    socket, whatever user and role it was authenticated as, and every senior
    id, the handler puts the socket into the room [user:{seniorId}] without
    reading the database (so without looking at any trusted link); from then
    on, for as long as the socket stays connected, whatever is emitted to
    that room is delivered to the socket: every [alert:new] that a
    submission of that senior answers with, and every [alert:update] that a
    decision on one of that senior's alerts answers with. *)
Theorem join_senior_is_unchecked (w : World) (sid seniorId : Id) (c : Socket.Conn)
    (ops : list Op) :
  Socket.sockets (io w) !! sid = Some c →
  Forall (keeps_connection sid) ops →
  let w1 := apply w (JoinSenior sid seniorId) in
  let w2 := apply_all w1 ops in
  db w1 = db w
  ∧ subscribed sid (Socket.UserRoom seniorId) (io w1)
  ∧ subscribed sid (Socket.UserRoom seniorId) (io w2)
  ∧ (∀ e, {| Socket.d_socket := sid; Socket.d_event := e |}
            ∈ Socket.delivered (Socket.emit (Socket.UserRoom seniorId) e (io w2)))
  ∧ (∀ token b ml gem w3 txn alert level score,
       Transactions.post w2 token b ml gem
         = (w3, respond 201 (Submitted txn (Some alert) level score)) →
       a_seniorId alert = seniorId →
       ∃ seniorName familyMembers,
         {| Socket.d_socket := sid;
            Socket.d_event := Socket.AlertNew alert seniorName familyMembers |}
           ∈ Socket.delivered (io w3))
  ∧ (∀ q alert w3 updated withApprovals approval,
       alerts (db w2) !! Alerts.q_alertId q = Some alert →
       a_seniorId alert = seniorId →
       Alerts.post_decide w2 q
         = (w3, Some (respond 200 (Decided updated withApprovals approval))) →
       {| Socket.d_socket := sid;
          Socket.d_event := Socket.AlertUpdate updated withApprovals |}
         ∈ Socket.delivered (io w3)).
Proof.
  intros Hc Hops w1 w2.
  assert (Hsub1 : subscribed sid (Socket.UserRoom seniorId) (io w1)).
  { exists (Socket.join (Socket.UserRoom seniorId) c). split.
    - simpl. rewrite lookup_alter_eq. by rewrite Hc.
    - simpl. set_solver. }
  assert (Hsub2 : subscribed sid (Socket.UserRoom seniorId) (io w2)).
  { by apply apply_all_keeps_subscription. }
  split; [reflexivity|]. split; [exact Hsub1|]. split; [exact Hsub2|].
  split; [intros e; by apply emit_delivers|]. split.
  - intros token b ml gem w3 txn alert level score Hpost Hsenior.
    eapply post_delivers; [exact Hpost|]. by rewrite Hsenior.
  - intros q alert w3 updated withApprovals approval Halert Hsenior Hdec.
    eapply post_decide_delivers; [exact Halert|exact Hdec|]. by rewrite Hsenior.
Qed.

Lemma join_senior_is_unchecked_witness :
  subscribed 7 (Socket.UserRoom 1)
    (io (apply_all
           (apply (with_io empty_world
                     (Socket.connection 7 (Socket.Token 2 FAMILY) Socket.empty_io))
                  (JoinSenior 7 1))
           [Disconnect 8; Revoke (Verified 1) 2])).
Proof.
  refine (proj1 (proj2 (proj2
    (join_senior_is_unchecked
       (with_io empty_world (Socket.connection 7 (Socket.Token 2 FAMILY) Socket.empty_io))
       7 1
       {| Socket.s_userId := 2; Socket.s_userRole := FAMILY;
          Socket.s_rooms := {[ Socket.UserRoom 2 ]} |}
       [Disconnect 8; Revoke (Verified 1) 2] _ _)))).
  - reflexivity.
  - repeat constructor. simpl. lia.
Defined.

(** ** The trusted circle (routes/trusted.js) *)
Section TrustedCircle.

Lemma find_link_pair s f ls l :
  find_link s f ls = Some l → l_seniorId l = s ∧ l_familyId l = f.
Proof.
  unfold find_link. intros H. apply find_some in H as [_ H].
  apply andb_true_iff in H as [H1 H2].
  by apply bool_decide_eq_true in H1, H2.
Qed.

(** Updating the row that [findFirst] gave is seen by the next [findFirst]. *)
Lemma find_link_update s f ls l st :
  find_link s f ls = Some l →
  find_link s f (update_link (l_id l) st ls) = Some (set_link_status st l).
Proof.
  unfold find_link, update_link.
  induction ls as [|x ls IH]; simpl; [done|].
  destruct (bool_decide (l_seniorId x = s) && bool_decide (l_familyId x = f)) eqn:Hx.
  - intros [= ->]. rewrite (bool_decide_eq_true_2 (l_id l = l_id l)) by done.
    simpl. by rewrite Hx.
  - intros H. destruct (bool_decide (l_id x = l_id l)); simpl; rewrite Hx; by apply IH.
Qed.

Lemma find_link_new s f ls l :
  find_link s f ls = None → l_seniorId l = s → l_familyId l = f →
  find_link s f (ls ++ [l]) = Some l.
Proof.
  unfold find_link. intros Hnone <- <-.
  induction ls as [|x ls IH]; simpl in *.
  - by rewrite !bool_decide_eq_true_2.
  - destruct (bool_decide (l_seniorId x = l_seniorId l)
              && bool_decide (l_familyId x = l_familyId l)); [done|by apply IH].
Qed.

Lemma update_link_length lid st ls : length (update_link lid st ls) = length ls.
Proof. unfold update_link. apply length_fmap. Qed.

Lemma find_link_elem s f ls l : find_link s f ls = Some l → l ∈ ls.
Proof.
  unfold find_link. intros H. apply find_some in H as [H _].
  by apply list_elem_of_In.
Qed.

Lemma update_link_status_set lid st ls : status_set lid st ls (update_link lid st ls).
Proof.
  split; [apply update_link_length|].
  intros i x Hx. unfold update_link. rewrite list_lookup_fmap, Hx. simpl.
  unfold set_link_status. by destruct (decide (l_id x = lid));
    [rewrite bool_decide_eq_true_2|rewrite bool_decide_eq_false_2].
Qed.

End TrustedCircle.

(** C9: the trusted circle operations of a senior [uid]. Inviting a family
    account other than oneself creates an ACTIVE link when the pair has
    none (201): the table gains that one row, under a fresh id, at its end.
    It reactivates the pair's link when it is REVOKED (200): that row, the
    same id, senior and family, is now ACTIVE, and every other row is as it
    was. It is refused without any change when the link is already ACTIVE
    (409), when no account has that email (404), when the account is no
    FAMILY account or is the senior's own (400). Revoking sets the pair's
    link to REVOKED and keeps the row (200), every other row being as it
    was; it is refused without any change when the pair has no link (404).
    Nothing but the table of links changes in any of these. *)
Theorem invite_and_revoke (w : World) (uid : Id) (u : User) :
  find_user uid (users (db w)) = Some u →
  u_role u = SENIOR →
  (∀ email t,
     email ≠ EmptyString →
     find_user_by_email email (users (db w)) = Some t →
     u_role t = FAMILY → u_id t ≠ uid →
     let w' := (Trusted.post_invite w (Verified uid) (Some email)).1 in
     let r := (Trusted.post_invite w (Verified uid) (Some email)).2 in
     (link_between w uid (u_id t) = None →
        let link := {| l_id := nextId (db w); l_seniorId := uid;
                       l_familyId := u_id t; l_status := ACTIVE |} in
        r = respond 201 (LinkBody link)
        ∧ trustedLinks (db w') = trustedLinks (db w) ++ [link]
        ∧ link_between w' uid (u_id t) = Some link
        ∧ nextId (db w') = S (nextId (db w))
        ∧ only_links_differ w w')
     ∧ (∀ l, link_between w uid (u_id t) = Some l → l_status l = REVOKED →
          let l' := {| l_id := l_id l; l_seniorId := uid;
                       l_familyId := u_id t; l_status := ACTIVE |} in
          r = respond 200 (LinkBody l')
          ∧ l ∈ trustedLinks (db w)
          ∧ link_between w' uid (u_id t) = Some l'
          ∧ status_set (l_id l) ACTIVE (trustedLinks (db w)) (trustedLinks (db w'))
          ∧ nextId (db w') = nextId (db w)
          ∧ only_links_differ w w')
     ∧ (∀ l, link_between w uid (u_id t) = Some l → l_status l = ACTIVE →
          r = respond 409 (Error "Already in trusted circle") ∧ w' = w))
  ∧ (∀ email,
       let w' := (Trusted.post_invite w (Verified uid) (Some email)).1 in
       let r := (Trusted.post_invite w (Verified uid) (Some email)).2 in
       email ≠ EmptyString →
       (find_user_by_email email (users (db w)) = None →
          r = respond 404 (Error "No user found with that email") ∧ w' = w)
       ∧ (∀ t, find_user_by_email email (users (db w)) = Some t →
            u_role t ≠ FAMILY →
            r = respond 400 (Error "That user is not a family member account")
            ∧ w' = w)
       ∧ (∀ t, find_user_by_email email (users (db w)) = Some t →
            u_role t = FAMILY → u_id t = uid →
            r = respond 400 (Error "Cannot invite yourself") ∧ w' = w))
  ∧ (∀ familyId,
       let w' := (Trusted.delete w (Verified uid) familyId).1 in
       let r := (Trusted.delete w (Verified uid) familyId).2 in
       (∀ l, link_between w uid familyId = Some l →
          let l' := {| l_id := l_id l; l_seniorId := uid;
                       l_familyId := familyId; l_status := REVOKED |} in
          r = respond 200 Success
          ∧ l ∈ trustedLinks (db w)
          ∧ link_between w' uid familyId = Some l'
          ∧ status_set (l_id l) REVOKED (trustedLinks (db w)) (trustedLinks (db w'))
          ∧ nextId (db w') = nextId (db w)
          ∧ only_links_differ w w')
       ∧ (link_between w uid familyId = None →
          r = respond 404 (Error "Link not found") ∧ w' = w)).
Proof.
  intros Hu Hrole.
  pose proof (find_user_id _ _ _ Hu) as Hid.
  split; [|split].
  - intros email t Hemail Ht Htrole Htid.
    unfold Trusted.post_invite, link_between.
    rewrite (authenticate_found _ _ _ Hu). unfold requireSenior. simpl.
    rewrite Hrole, Hid. apply String.eqb_neq in Hemail. rewrite Hemail, Ht.
    rewrite Htrole. simpl. rewrite bool_decide_eq_false_2 by done.
    split; [|split].
    + intros Hnone. rewrite Hnone. simpl.
      split; [done|]. split; [done|]. split; [by apply find_link_new|done].
    + intros l Hl Hst. rewrite Hl, Hst. simpl.
      destruct (find_link_pair _ _ _ _ Hl) as [Hs Hf].
      split; [by rewrite <- Hs, <- Hf|]. split; [by eapply find_link_elem|].
      split; [rewrite (find_link_update _ _ _ _ _ Hl); by rewrite <- Hs, <- Hf|].
      split; [apply update_link_status_set|done].
    + intros l Hl Hst. rewrite Hl, Hst. simpl. done.
  - intros email w' r Hemail. subst w' r.
    unfold Trusted.post_invite.
    rewrite (authenticate_found _ _ _ Hu). unfold requireSenior. simpl.
    rewrite Hrole, Hid. apply String.eqb_neq in Hemail. rewrite Hemail.
    split; [|split].
    + intros ->. done.
    + intros t -> Ht. rewrite bool_decide_eq_false_2 by done. done.
    + intros t -> Ht ->. rewrite !bool_decide_eq_true_2 by done. done.
  - intros familyId. unfold Trusted.delete, link_between.
    rewrite (authenticate_found _ _ _ Hu). unfold requireSenior. simpl.
    rewrite Hrole, Hid. split.
    + intros l Hl. rewrite Hl. simpl.
      destruct (find_link_pair _ _ _ _ Hl) as [Hs Hf].
      split; [done|]. split; [by eapply find_link_elem|].
      split; [rewrite (find_link_update _ _ _ _ _ Hl); by rewrite <- Hs, <- Hf|].
      split; [apply update_link_status_set|done].
    + intros ->. done.
Qed.

Lemma invite_and_revoke_witness :
  (Trusted.post_invite household (Verified 1) (Some "sarah@demo.com")).2
    = respond 201 (LinkBody {| l_id := 3; l_seniorId := 1; l_familyId := 2;
                                l_status := ACTIVE |})
  ∧ trustedLinks (db (Trusted.post_invite household (Verified 1) (Some "sarah@demo.com")).1)
    = [{| l_id := 3; l_seniorId := 1; l_familyId := 2; l_status := ACTIVE |}]
  ∧ link_between (Trusted.delete circle (Verified 1) 2).1 1 2
    = Some {| l_id := 3; l_seniorId := 1; l_familyId := 2; l_status := REVOKED |}
  ∧ status_set 3 REVOKED (trustedLinks (db circle))
      (trustedLinks (db (Trusted.delete circle (Verified 1) 2).1)).
Proof.
  pose proof (proj1 (proj1 (invite_and_revoke household 1 margaret eq_refl eq_refl)
                       "sarah@demo.com" sarah ltac:(discriminate) eq_refl eq_refl
                       ltac:(simpl; lia)) eq_refl) as (Hr & Hl & _).
  pose proof (proj1 (proj2 (proj2 (invite_and_revoke circle 1 margaret eq_refl eq_refl)) 2)
                {| l_id := 3; l_seniorId := 1; l_familyId := 2; l_status := ACTIVE |}
                eq_refl) as (_ & _ & Hb & Hs & _).
  split; [exact Hr|]. split; [exact Hl|]. split; [exact Hb|exact Hs].
Defined.

(** ** Worked requests *)

Example flagged_alert :
  alerts (db flagged) !! 5 =
  Some (new_alert 5 1 4
          (Some (Js.VStr "We flagged a high-risk transaction of $0.00 at Unknown merchant. Please review it carefully."))
          (Some (Js.VArr [Js.VStr "This transaction looks different from your normal spending patterns"]))
          (Some (Js.VStr "Please review this transaction and confirm whether you made this purchase."))
          (Js.VBool true) 0).
Proof. vm_compute. reflexivity. Qed.

Example circle_link :
  trustedLinks (db circle) =
  [{| l_id := 3; l_seniorId := 1; l_familyId := 2; l_status := ACTIVE |}].
Proof. reflexivity. Qed.

(** ** The alert threshold (routes/transactions.js, routes/users.js) *)

(** What does hold: for a senior's submission that the scoring service
    answers and for which the explainer returns, an alert is created
    exactly when the score reaches the fixed 0.30, whatever threshold the
    user row stores; it starts PENDING and unresolved. *)
Lemma alert_iff_score_reaches_fixed_threshold w uid u b r gem e :
  find_user uid (users (db w)) = Some u →
  u_role u = SENIOR →
  Gemini.explainTransaction gem (gemini_prompt_context r) = Js.Normal e →
  ∃ w' txn alert,
    Transactions.post w (Verified uid) b (MlService.HttpResponse 200 (Some r)) gem
      = (w', respond 201 (Submitted txn alert (risk_level r) (risk_score r)))
    ∧ (is_Some alert ↔ (0.3 <= risk_score r)%Q)
    ∧ (∀ a, alert = Some a →
         alerts (db w') !! a_id a = Some a
         ∧ a_seniorId a = uid ∧ a_transactionId a = t_id txn
         ∧ a_status a = PENDING ∧ a_resolvedAt a = None).
Proof.
  intros Hu Hrole He. pose proof (find_user_id _ _ _ Hu) as Hid.
  unfold Transactions.post.
  rewrite (authenticate_found _ _ _ Hu). unfold requireSenior. simpl. rewrite Hrole.
  simpl. destruct (Qle_bool Transactions.threshold (risk_score r)) eqn:Hle.
  - unfold Transactions.raise_alert. cbn [db with_db log_scored]. rewrite He.
    do 3 eexists. split; [reflexivity|]. split; [split; [|by eauto]|].
    + intros _. by apply Qle_bool_iff.
    + intros a [= <-]. simpl. split; [apply lookup_insert_eq|done].
  - do 3 eexists. split; [reflexivity|]. split; [split|].
    + intros [a [=]].
    + intros H. apply Qle_bool_iff in H. unfold Transactions.threshold in Hle. congruence.
    + intros a [=].
Qed.

(** C4 (the code departs from it): Margaret raises her own threshold to
    0.90 through [PATCH /api/users/settings]; the row stores it; her next
    transaction is scored 0.50, below her threshold, and a PENDING alert is
    created all the same, because the handler compares with the constant
    0.3. *)
Theorem stored_riskThreshold_is_ignored :
  let w1 := apply household
              (PatchSettings (Verified 1)
                 {| Users.protectionMode := None; Users.riskThreshold := Some 0.9%Q;
                    Users.name := None; Users.phone := None |}) in
  (u_riskThreshold <$> find_user 1 (users (db w1))) = Some 0.9%Q
  ∧ Qle_bool 0.9 0.5 = false
  ∧ ∃ w2 txn alert,
      Transactions.post w1 (Verified 1) coinflip (scored_as 0.5 "HIGH") no_gemini
        = (w2, respond 201 (Submitted txn (Some alert) "HIGH" 0.5))
      ∧ alerts (db w2) !! a_id alert = Some alert
      ∧ a_seniorId alert = 1
      ∧ a_status alert = PENDING.
Proof.
  split; [reflexivity|]. split; [reflexivity|].
  do 3 eexists. split; [vm_compute; reflexivity|]. by vm_compute.
Qed.

(** ** Validation of submissions (routes/transactions.js) *)

(** C7 (the code departs from it): a submission with the amount -5 is not
    rejected. It is stored as it came, sent to the scoring service, and
    answered with 201. *)
Theorem negative_amount_is_accepted :
  let b := {| Transactions.amount := Js.Finite (-5);
              Transactions.merchant := "Publix"; Transactions.mcc := "5411";
              Transactions.mccDesc := None; Transactions.city := "Tampa";
              Transactions.deviceId := None |} in
  ∃ w' txn,
    Transactions.post household (Verified 1) b (scored_as 0.1 "LOW") no_gemini
      = (w', respond 201 (Submitted txn None "LOW" 0.1))
    ∧ transactions (db w') !! t_id txn = Some txn
    ∧ t_amount txn = Js.Finite (-5)
    ∧ scored w' = [t_id txn].
Proof.
  do 2 eexists. split; [vm_compute; reflexivity|]. by vm_compute.
Qed.

(** The handler never looks at the body before it stores it: whatever the
    amount, a senior's submission is stored and sent for scoring. *)
Lemma post_stores_before_anything_else w uid u b ml gem :
  find_user uid (users (db w)) = Some u →
  u_role u = SENIOR →
  let w' := (Transactions.post w (Verified uid) b ml gem).1 in
  (∃ txn, transactions (db w') !! nextId (db w) = Some txn
          ∧ t_amount txn = Transactions.amount b)
  ∧ nextId (db w) ∈ scored w'.
Proof.
  intros Hu Hrole. unfold Transactions.post.
  rewrite (authenticate_found _ _ _ Hu). unfold requireSenior. simpl. rewrite Hrole.
  destruct (MlService.scoreTransaction ml) as [r|err]; simpl.
  - destruct (Qle_bool _ _); simpl.
    + unfold Transactions.raise_alert.
      destruct (Gemini.explainTransaction _ _); simpl;
        (split; [eexists; split; [apply lookup_insert_eq|done]|set_solver]).
    + split; [eexists; split; [apply lookup_insert_eq|done]|set_solver].
  - split; [eexists; split; [apply lookup_insert_eq|done]|set_solver].
Qed.

(** ** Revocation and delivery (routes/trusted.js, lib/socket.js) *)

(** Revoking touches the links only: transactions, alerts and approvals
    stay as they were. *)
Lemma delete_keeps_history w token familyId :
  let w' := (Trusted.delete w token familyId).1 in
  transactions (db w') = transactions (db w)
  ∧ alerts (db w') = alerts (db w)
  ∧ approvals (db w') = approvals (db w).
Proof. unfold Trusted.delete. by repeat case_match. Qed.

(** What does hold of the fanout: an [alert:new] goes to the sockets in the
    senior's room and to the sockets in the room of a family member whose
    link is ACTIVE when the alert is raised, and to no other socket. *)
Lemma raise_alert_addresses w user scoredTxn riskResult gem d :
  d ∈ Socket.delivered (io (Transactions.raise_alert w user scoredTxn riskResult gem).1) →
  d ∈ Socket.delivered (io w)
  ∨ subscribed (Socket.d_socket d) (Socket.UserRoom (ru_id user)) (io w)
  ∨ ∃ l, l ∈ active_links (ru_id user) (trustedLinks (db w))
         ∧ subscribed (Socket.d_socket d) (Socket.UserRoom (l_familyId l)) (io w).
Proof.
  unfold Transactions.raise_alert.
  destruct (Gemini.explainTransaction _ _); simpl; [|by left].
  intros H.
  apply (emit_each_delivers_only (λ l, Socket.UserRoom (l_familyId l))) in H
    as [H|(l & Hl & _ & Hsub)].
  - apply emit_delivers_only in H as [H|[_ Hsub]]; [by left|right; by left].
  - right; right. exists l. split; done.
Qed.

(** C5 (the code departs from it): Sarah's dashboard connects and watches
    Margaret ([join:senior]); Margaret then revokes Sarah. Nothing has been
    delivered so far. Margaret's next risky transaction raises an alert whose
    payload lists no family member, and the [alert:new] is delivered to
    Sarah's socket all the same, through Margaret's room, which the socket
    never left; so is the [alert:update] when Margaret decides. *)
Theorem revoked_reviewer_still_notified :
  let w1 := apply_all circle
              [Connect 7 (Socket.Token 2 FAMILY); JoinSenior 7 1; Revoke (Verified 1) 2] in
  (l_status <$> link_between w1 1 2) = Some REVOKED
  ∧ (Socket.s_userId <$> Socket.sockets (io w1) !! 7) = Some 2
  ∧ Socket.delivered (io w1) = []
  ∧ ∃ w2 txn alert w3 updated withApprovals approval,
      Transactions.post w1 (Verified 1) coinflip (scored_as 0.97 "CRITICAL") no_gemini
        = (w2, respond 201 (Submitted txn (Some alert) "CRITICAL" 0.97))
      ∧ a_seniorId alert = 1
      ∧ Socket.delivered (io w2)
        = [ {| Socket.d_socket := 7;
               Socket.d_event := Socket.AlertNew alert "Margaret Johnson" [] |} ]
      ∧ Alerts.post_decide w2
          {| Alerts.q_token := Verified 1; Alerts.q_alertId := a_id alert;
             Alerts.q_decision := "APPROVED"; Alerts.q_note := None |}
        = (w3, Some (respond 200 (Decided updated withApprovals approval)))
      ∧ Socket.delivered (io w3)
        = [ {| Socket.d_socket := 7;
               Socket.d_event := Socket.AlertNew alert "Margaret Johnson" [] |};
            {| Socket.d_socket := 7;
               Socket.d_event := Socket.AlertUpdate updated withApprovals |} ].
Proof.
  split; [reflexivity|]. split; [reflexivity|]. split; [reflexivity|].
  do 7 eexists.
  split; [vm_compute; reflexivity|].
  split; [reflexivity|].
  split; [vm_compute; reflexivity|].
  split; [vm_compute; reflexivity|].
  vm_compute; reflexivity.
Qed.

(** ** Requests served one at a time *)
Section OneAtATime.

Lemma valid_decision_cases s d :
  Alerts.valid_decision s = Some d → d = APPROVED ∨ d = DENIED.
Proof. unfold Alerts.valid_decision. intros H. repeat case_match; simplify_eq; auto. Qed.

Lemma alerts_sound_empty : alerts_sound empty_db.
Proof. intros k a H. simpl in H. by rewrite lookup_empty in H. Qed.

(** Rows that only see the counter grow stay sound. *)
Lemma alerts_sound_grow d d' :
  alerts d' = alerts d → nextId d ≤ nextId d' → alerts_sound d → alerts_sound d'.
Proof.
  intros Ha Hn Hs k a H. rewrite Ha in H. destruct (Hs k a H) as (? & ? & ?).
  repeat split; try tauto. lia.
Qed.

Lemma post_alerts w token b ml gem :
  let w' := (Transactions.post w token b ml gem).1 in
  nextId (db w) ≤ nextId (db w')
  ∧ (alerts (db w') = alerts (db w)
     ∨ ∃ a, alerts (db w') = <[S (nextId (db w)) := a]> (alerts (db w))
            ∧ a_id a = S (nextId (db w)) ∧ S (nextId (db w)) < nextId (db w')
            ∧ a_status a = PENDING ∧ a_resolvedAt a = None).
Proof.
  unfold Transactions.post.
  destruct (authenticate _ _); simpl; [auto|].
  destruct (requireSenior _); simpl; [auto|].
  destruct (MlService.scoreTransaction ml); simpl; [|auto].
  destruct (Qle_bool _ _); simpl; [|auto].
  unfold Transactions.raise_alert.
  destruct (Gemini.explainTransaction _ _); simpl; [|auto].
  split; [lia|]. right. eexists. split; [reflexivity|]. simpl. repeat split; lia.
Qed.

Lemma commit_alerts q w user decision alert :
  alerts (db w) !! a_id alert = Some alert →
  let w' := (commit q w user decision alert).1 in
  nextId (db w') = S (nextId (db w))
  ∧ alerts (db w') = <[a_id alert := resolve decision (clock w) alert]> (alerts (db w)).
Proof. intros H. unfold commit. rewrite H. simpl. done. Qed.

Lemma post_decide_alerts w q :
  alerts_sound (db w) →
  let w' := (Alerts.post_decide w q).1 in
  nextId (db w) ≤ nextId (db w')
  ∧ (alerts (db w') = alerts (db w)
     ∨ ∃ alert decision now,
         alerts (db w) !! a_id alert = Some alert ∧ a_status alert = PENDING
         ∧ (decision = APPROVED ∨ decision = DENIED)
         ∧ alerts (db w') = <[a_id alert := resolve decision now alert]> (alerts (db w))).
Proof.
  intros Hs. rewrite post_decide_eq.
  destruct (authenticate _ _) as [r|user]; simpl; [auto|].
  destruct (Alerts.valid_decision _) as [decision|] eqn:Hd; simpl; [|auto].
  apply valid_decision_cases in Hd.
  destruct (Alerts.after_find user decision _) as [| | u d a | u d a | | |r] eqn:Hpc;
    simpl; auto.
  - apply after_find_family in Hpc as (-> & -> & Hf & Hst & _).
    destruct (find_active_link _ _ _); simpl; [|auto].
    destruct (Hs _ _ Hf) as (Hid & _). rewrite <- Hid in Hf.
    destruct (commit_alerts q w user decision a Hf) as [Hn Ha].
    split; [lia|]. right. by eauto 10.
  - apply after_find_senior in Hpc as (-> & -> & Hf & Hst & _).
    destruct (Hs _ _ Hf) as (Hid & _). rewrite <- Hid in Hf.
    destruct (commit_alerts q w user decision a Hf) as [Hn Ha].
    split; [lia|]. right. by eauto 10.
Qed.

Lemma post_invite_alerts w token email :
  let w' := (Trusted.post_invite w token email).1 in
  alerts (db w') = alerts (db w) ∧ nextId (db w) ≤ nextId (db w').
Proof. unfold Trusted.post_invite. repeat case_match; simpl; split; (done || lia). Qed.

Lemma delete_alerts w token familyId :
  let w' := (Trusted.delete w token familyId).1 in
  alerts (db w') = alerts (db w) ∧ nextId (db w) ≤ nextId (db w').
Proof. unfold Trusted.delete. repeat case_match; simpl; split; (done || lia). Qed.

Lemma patch_settings_alerts w token b :
  let w' := (Users.patch_settings w token b).1 in
  alerts (db w') = alerts (db w) ∧ nextId (db w) ≤ nextId (db w').
Proof. unfold Users.patch_settings. repeat case_match; simpl; split; (done || lia). Qed.

(** What does hold of the alert invariant: requests served one at a time
    keep the table sound, and leave a resolved alert exactly as it is. *)
Lemma apply_alerts_sound w op :
  alerts_sound (db w) →
  alerts_sound (db (apply w op))
  ∧ ∀ k a, alerts (db w) !! k = Some a → a_status a ≠ PENDING →
           alerts (db (apply w op)) !! k = Some a.
Proof.
  intros Hs. destruct op; simpl.
  - destruct (post_alerts w token b ml gem) as [Hn [Ha|(a & Ha & Hid & Hlt & Hst & Hres)]].
    + split; [by eapply alerts_sound_grow|]. intros k a' Hk _. by rewrite Ha.
    + split.
      * intros k a' Hk. rewrite Ha in Hk.
        destruct (decide (k = S (nextId (db w)))) as [->|Hne].
        -- rewrite lookup_insert_eq in Hk. simplify_eq.
           repeat split; done.
        -- rewrite lookup_insert_ne in Hk by done.
           destruct (Hs k a' Hk) as (? & ? & ?). repeat split; try tauto. lia.
      * intros k a' Hk _. rewrite Ha. rewrite lookup_insert_ne; [done|].
        destruct (Hs k a' Hk) as (? & ? & ?). lia.
  - destruct (post_decide_alerts w q Hs)
      as [Hn [Ha|(alert & decision & now & Hal & Hst & Hd & Ha)]].
    + split; [by eapply alerts_sound_grow|]. intros k a' Hk _. by rewrite Ha.
    + split.
      * intros k a' Hk. rewrite Ha in Hk.
        destruct (decide (k = a_id alert)) as [->|Hne].
        -- rewrite lookup_insert_eq in Hk. simplify_eq.
           destruct (Hs _ _ Hal) as (? & ? & ?).
           repeat split; simpl; try done; try lia; destruct Hd; by subst.
        -- rewrite lookup_insert_ne in Hk by done.
           destruct (Hs k a' Hk) as (? & ? & ?). repeat split; try tauto. lia.
      * intros k a' Hk Hres. rewrite Ha. rewrite lookup_insert_ne; [done|].
        intros <-. congruence.
  - destruct (post_invite_alerts w token email) as [Ha Hn].
    split; [by eapply alerts_sound_grow|]. intros k a Hk _. by rewrite Ha.
  - destruct (delete_alerts w token familyId) as [Ha Hn].
    split; [by eapply alerts_sound_grow|]. intros k a Hk _. by rewrite Ha.
  - destruct (patch_settings_alerts w token b) as [Ha Hn].
    split; [by eapply alerts_sound_grow|]. intros k a Hk _. by rewrite Ha.
  - done.
  - done.
  - done.
Qed.

Lemma apply_all_alerts_sound ops w :
  alerts_sound (db w) →
  alerts_sound (db (apply_all w ops))
  ∧ ∀ k a, alerts (db w) !! k = Some a → a_status a ≠ PENDING →
           alerts (db (apply_all w ops)) !! k = Some a.
Proof.
  revert w. induction ops as [|op ops IH]; intros w Hs; [done|].
  simpl. destruct (apply_alerts_sound w op Hs) as [Hs' Hkeep].
  destruct (IH _ Hs') as [Hs'' Hkeep'].
  split; [done|]. intros k a Hk Hres. apply Hkeep'; [|done]. by apply Hkeep.
Qed.

End OneAtATime.

(** ** Requests interleaved at their awaits *)
Section Interleaved.

Import Alerts.

(** What does hold however the requests are interleaved: the table stays
    sound, so an alert is resolved exactly when it is not PENDING. *)
Lemma step_alerts_sound q w pc :
  alerts_sound (db w) → pc_sound pc →
  alerts_sound (db (step q w pc).1) ∧ pc_sound (step q w pc).2.
Proof.
  intros Hs Hpc. destruct pc; simpl in *.
  - destruct (authenticate _ _); simpl; [done|].
    destruct (valid_decision _) eqn:Hd; simpl; [|done].
    split; [done|]. by eapply valid_decision_cases.
  - split; [done|]. unfold after_find. repeat case_match; simpl; done.
  - destruct (find_active_link _ _ _); simpl; done.
  - split; [|done]. eapply alerts_sound_grow; [| |exact Hs]; simpl; [done|lia].
  - destruct (alerts (db w) !! a_id alert) as [row|] eqn:Hrow; simpl; [|done].
    split; [|done]. intros k a Hk. simpl in Hk.
    destruct (Hs _ _ Hrow) as (Hid & Hlt & _).
    destruct (decide (k = a_id row)) as [->|Hne].
    + rewrite lookup_insert_eq in Hk. simplify_eq. simpl.
      split; [done|]. split; [lia|]. destruct Hpc; subst; done.
    + rewrite lookup_insert_ne in Hk by done. by apply Hs.
  - done.
  - done.
Qed.

Lemma resume_alerts_sound i w tasks :
  alerts_sound (db w) → Forall (λ k, pc_sound (k_pc k)) tasks →
  alerts_sound (db (resume i (w, tasks)).1)
  ∧ Forall (λ k, pc_sound (k_pc k)) (resume i (w, tasks)).2.
Proof.
  intros Hs Hks. unfold resume. simpl.
  destruct (tasks !! i) as [k|] eqn:Hk; [|done].
  assert (Hpc : pc_sound (k_pc k)).
  { eapply (Forall_lookup_1 _ _ _ _ Hks Hk). }
  destruct (step_alerts_sound (k_req k) w (k_pc k) Hs Hpc) as [Hs' Hpc'].
  destruct (step (k_req k) w (k_pc k)) as [w' pc']. simpl in *.
  split; [done|]. apply Forall_insert; done.
Qed.

Lemma interleave_alerts_sound schedule w tasks :
  alerts_sound (db w) → Forall (λ k, pc_sound (k_pc k)) tasks →
  alerts_sound (db (interleave schedule w tasks).1).
Proof.
  unfold interleave. revert w tasks.
  induction schedule as [|i schedule IH]; intros w tasks Hs Hks; [done|].
  simpl. destruct (resume_alerts_sound i w tasks Hs Hks) as [Hs' Hks'].
  destruct (resume i (w, tasks)) as [w' tasks']. by apply IH.
Qed.

(** What does hold of a request served alone on a sound table: it is
    refused and changes nothing, or it is answered 200 having recorded one
    approval and resolved the alert with the decision made. *)
Lemma decide_alone_all_or_nothing w q :
  alerts_sound (db w) →
  ∃ r, (post_decide w q).2 = Some r
       ∧ ((r_status r ≠ 200 ∧ (post_decide w q).1 = w)
          ∨ (∃ alert decision approval,
               alerts (db w) !! q_alertId q = Some alert
               ∧ a_status alert = PENDING
               ∧ valid_decision (q_decision q) = Some decision
               ∧ ap_alertId approval = q_alertId q ∧ ap_decision approval = decision
               ∧ approvals (db (post_decide w q).1) = approvals (db w) ++ [approval]
               ∧ alerts (db (post_decide w q).1)
                 = <[q_alertId q := resolve decision (clock w) alert]> (alerts (db w))
               ∧ r = respond 200
                       (Decided (resolve decision (clock w) alert)
                          (approvals_of (q_alertId q) (approvals (db w) ++ [approval]))
                          approval))).
Proof.
  intros Hs. rewrite post_decide_eq.
  destruct (authenticate _ _) as [r|user] eqn:Ha; simpl.
  { eexists. split; [done|]. left. split; [|done].
    unfold authenticate in Ha. repeat case_match; simplify_eq; simpl; lia. }
  destruct (valid_decision _) as [decision|] eqn:Hd; simpl.
  2: { eexists. split; [done|]. left. simpl. split; [lia|done]. }
  assert (Hcommit : ∀ alert,
    alerts (db w) !! q_alertId q = Some alert → a_status alert = PENDING →
    ∃ r, response_of (commit q w user decision alert).2 = Some r
         ∧ ((r_status r ≠ 200 ∧ (commit q w user decision alert).1 = w)
            ∨ (∃ alert0 decision0 approval,
                 alerts (db w) !! q_alertId q = Some alert0 ∧ a_status alert0 = PENDING
                 ∧ valid_decision (q_decision q) = Some decision0
                 ∧ ap_alertId approval = q_alertId q ∧ ap_decision approval = decision0
                 ∧ approvals (db (commit q w user decision alert).1)
                   = approvals (db w) ++ [approval]
                 ∧ alerts (db (commit q w user decision alert).1)
                   = <[q_alertId q := resolve decision0 (clock w) alert0]> (alerts (db w))
                 ∧ r = respond 200
                         (Decided (resolve decision0 (clock w) alert0)
                            (approvals_of (q_alertId q) (approvals (db w) ++ [approval]))
                            approval)))).
  { intros alert Hal Hst. destruct (Hs _ _ Hal) as (Hid & _).
    unfold commit. rewrite Hid, Hal. simpl.
    eexists. split; [reflexivity|]. right.
    do 3 eexists. repeat split; try reflexivity; try done.
    simpl. by rewrite Hid. }
  destruct (after_find user decision _) as [| | u d a | u d a | | |r] eqn:Hpc; simpl.
  - unfold after_find in Hpc. repeat case_match; simplify_eq.
  - unfold after_find in Hpc. repeat case_match; simplify_eq.
  - apply after_find_family in Hpc as (-> & -> & Hf & Hst & _).
    destruct (find_active_link _ _ _); simpl.
    + destruct (Hcommit a Hf Hst) as (r & Hr & Hcases). rewrite Hd in Hcases.
      exists r. split; [done|]. destruct Hcases as [?|Hdone]; [by left|by right].
    + eexists. split; [done|]. left. simpl. split; [lia|done].
  - apply after_find_senior in Hpc as (-> & -> & Hf & Hst & _).
    destruct (Hcommit a Hf Hst) as (r & Hr & Hcases). rewrite Hd in Hcases.
    exists r. split; [done|]. destruct Hcases as [?|Hdone]; [by left|by right].
  - unfold after_find in Hpc. repeat case_match; simplify_eq.
  - unfold after_find in Hpc. repeat case_match; simplify_eq.
  - apply after_find_refused in Hpc.
    eexists. split; [done|]. left. split; [lia|done].
Qed.

End Interleaved.

(** ** Two decisions at once (routes/alerts.js) *)

(** What does hold: a decision on an alert that is found resolved is
    refused with 409 and changes nothing. *)
Lemma decide_refuses_resolved w q user decision alert :
  authenticate (db w) (Alerts.q_token q) = inr user →
  Alerts.valid_decision (Alerts.q_decision q) = Some decision →
  alerts (db w) !! Alerts.q_alertId q = Some alert →
  a_status alert ≠ PENDING →
  Alerts.post_decide w q
  = (w, Some (respond 409
                (Error ("Alert already " +:+ Js.toLowerCase (status_name (a_status alert)))))).
Proof.
  intros Ha Hd Hal Hst. rewrite post_decide_eq, Ha, Hd, Hal. simpl.
  by rewrite bool_decide_eq_false_2.
Qed.

(** Run one after the other, the second of two decisions is refused. *)
Example decisions_in_turn :
  let st := Alerts.interleave [0; 0; 0; 0; 0; 1; 1] flagged both_in_flight in
  answers st = [Some 200; Some 409]
  ∧ observe st = (Some (APPROVED, Some 1), [APPROVED]).
Proof. split; vm_compute; reflexivity. Qed.

(** C1 (the code departs from it): Margaret's approval and Sarah's denial
    of the same PENDING alert are in flight together, and both requests read
    the alert before either writes. Both pass the status check and both
    commit: neither is answered 409, two approvals are recorded, and the
    alert ends with the status written last, DENIED, although the request
    answered first had approved it. *)
Theorem concurrent_decisions_both_commit :
  observe (flagged, both_in_flight) = (Some (PENDING, None), [])
  ∧ let st := Alerts.interleave race flagged both_in_flight in
    answers st = [Some 200; Some 200]
    ∧ observe st = (Some (DENIED, Some 2), [APPROVED; DENIED]).
Proof. split; [|split]; vm_compute; reflexivity. Qed.

(** C2 (the code departs from it): the approval and the status change are
    two commits. Once request 0 has recorded its approval the database shows
    an APPROVED approval on an alert that is still PENDING and unresolved;
    and request 1, resumed when the alert is APPROVED already, is not
    refused: it records its DENIED approval on the resolved alert, then
    overwrites the status, and is answered 200. *)
Theorem decide_is_not_atomic :
  let st1 := Alerts.interleave (both_checked ++ first_approval) flagged both_in_flight in
  let st2 := Alerts.interleave first_finishes st1.1 st1.2 in
  let st3 := Alerts.interleave second_approval st2.1 st2.2 in
  let st4 := Alerts.interleave second_finishes st3.1 st3.2 in
  observe st1 = (Some (PENDING, None), [APPROVED])
  ∧ observe st2 = (Some (APPROVED, Some 1), [APPROVED])
  ∧ observe st3 = (Some (APPROVED, Some 1), [APPROVED; DENIED])
  ∧ observe st4 = (Some (DENIED, Some 2), [APPROVED; DENIED])
  ∧ answers st4 = [Some 200; Some 200].
Proof. repeat split; vm_compute; reflexivity. Qed.

(** C6 (the code departs from it): with the two decisions interleaved as
    above, the alert is APPROVED and resolved when request 0 is answered,
    and DENIED when request 1 is answered: a status that was no longer
    PENDING changed again. *)
Theorem resolved_status_changes_again :
  let st := Alerts.interleave (both_checked ++ first_approval ++ first_finishes)
              flagged both_in_flight in
  let st' := Alerts.interleave (second_approval ++ second_finishes) st.1 st.2 in
  answers st = [Some 200; None]
  ∧ observe st = (Some (APPROVED, Some 1), [APPROVED])
  ∧ answers st' = [Some 200; Some 200]
  ∧ observe st' = (Some (DENIED, Some 2), [APPROVED; DENIED]).
Proof. repeat split; vm_compute; reflexivity. Qed.

(* ===================================================================== *)
(** * Part III: further properties of the code *)
(* ===================================================================== *)

(** ** What a request does to the tables *)
Section Effects.

Lemma put_transaction_twice d t t' next next' :
  t_id t' = t_id t →
  put_transaction (put_transaction d t next) t' next' = put_transaction d t' next'.
Proof.
  intros Hid. unfold put_transaction. simpl. rewrite Hid.
  by rewrite insert_insert_eq.
Qed.

(** A submission leaves the tables alone, or adds the transaction, or adds
    the transaction and a PENDING alert about it. *)
Lemma post_effect w token b ml gem :
  let d := db w in
  let d' := db (Transactions.post w token b ml gem).1 in
  d' = d
  ∨ ∃ user t,
      authenticate d token = inr user ∧ ru_role user = SENIOR
      ∧ t_id t = nextId d ∧ t_userId t = ru_id user
      ∧ (d' = put_transaction d t (S (nextId d))
         ∨ ∃ a, d' = put_alert (put_transaction d t (S (nextId d))) a (S (S (nextId d)))
                ∧ a_id a = S (nextId d) ∧ a_seniorId a = ru_id user
                ∧ a_transactionId a = nextId d
                ∧ a_status a = PENDING ∧ a_resolvedAt a = None).
Proof.
  unfold Transactions.post.
  destruct (authenticate _ _) as [r|user] eqn:Ha; simpl; [by left|].
  destruct (requireSenior user) as [r|] eqn:Hrs; simpl; [by left|].
  assert (Hrole : ru_role user = SENIOR).
  { unfold requireSenior in Hrs. by destruct (ru_role user). }
  right. exists user.
  set (txn := Transactions.created (ru_id user) b (nextId (db w)) (clock w)).
  destruct (MlService.scoreTransaction ml) as [riskResult|err]; simpl.
  - exists (Transactions.with_risk txn riskResult (clock w)).
    do 4 (split; [done|]).
    destruct (Qle_bool _ _); simpl.
    + unfold Transactions.raise_alert.
      destruct (Gemini.explainTransaction _ _) as [e|err]; simpl.
      * right. eexists. split; [by rewrite put_transaction_twice|done].
      * left. by rewrite put_transaction_twice.
    + left. by rewrite put_transaction_twice.
  - exists txn. do 4 (split; [done|]). by left.
Qed.

(** A decision served alone on a sound alert table leaves the tables alone,
    or adds one approval and resolves the alert it is about. *)
Lemma post_decide_effect w q :
  alerts_sound (db w) →
  let d := db w in
  let d' := db (Alerts.post_decide w q).1 in
  d' = d
  ∨ ∃ user decision alert,
      authenticate d (Alerts.q_token q) = inr user
      ∧ Alerts.valid_decision (Alerts.q_decision q) = Some decision
      ∧ alerts d !! Alerts.q_alertId q = Some alert
      ∧ a_status alert = PENDING
      ∧ may_access d user (a_seniorId alert)
      ∧ d' = put_alert
               (add_approval d
                  {| ap_id := nextId d; ap_alertId := Alerts.q_alertId q;
                     ap_userId := ru_id user; ap_decision := decision;
                     ap_note := Alerts.q_note q; ap_createdAt := clock w |})
               (resolve decision (clock w) alert) (S (nextId d)).
Proof.
  intros Hs. rewrite post_decide_eq.
  destruct (authenticate _ _) as [r|user] eqn:Ha; simpl; [by left|].
  destruct (Alerts.valid_decision _) as [decision|] eqn:Hd; simpl; [|by left].
  assert (Hcommit : ∀ alert,
    alerts (db w) !! Alerts.q_alertId q = Some alert →
    db (commit q w user decision alert).1
    = put_alert
        (add_approval (db w)
           {| ap_id := nextId (db w); ap_alertId := Alerts.q_alertId q;
              ap_userId := ru_id user; ap_decision := decision;
              ap_note := Alerts.q_note q; ap_createdAt := clock w |})
        (resolve decision (clock w) alert) (S (nextId (db w)))).
  { intros alert Hal. destruct (Hs _ _ Hal) as (Hid & _).
    unfold commit. rewrite Hid, Hal. reflexivity. }
  destruct (Alerts.after_find user decision _) as [| | u dd a | u dd a | | |r] eqn:Hpc;
    simpl; try (by left).
  - apply after_find_family in Hpc as (-> & -> & Hf & Hst & Hrole).
    destruct (find_active_link _ _ _) eqn:Hl; simpl; [|by left].
    right. exists user, decision, a. repeat split; try done.
    + unfold may_access. rewrite Hrole, Hl. eauto.
    + by apply Hcommit.
  - apply after_find_senior in Hpc as (-> & -> & Hf & Hst & Hrole & Hown).
    right. exists user, decision, a. repeat split; try done.
    + unfold may_access. by rewrite Hrole.
    + by apply Hcommit.
Qed.

(** An invitation leaves the tables alone, or sets the pair's REVOKED link
    to ACTIVE, or appends an ACTIVE link for a pair that had none. *)
Lemma post_invite_effect w token email :
  let d := db w in
  let d' := db (Trusted.post_invite w token email).1 in
  d' = d
  ∨ ∃ user familyUser,
      authenticate d token = inr user ∧ ru_role user = SENIOR
      ∧ familyUser ∈ users d ∧ u_role familyUser = FAMILY
      ∧ u_id familyUser ≠ ru_id user
      ∧ ((∃ l, find_link (ru_id user) (u_id familyUser) (trustedLinks d) = Some l
               ∧ l_status l = REVOKED
               ∧ d' = with_trustedLinks d
                        (update_link (l_id l) ACTIVE (trustedLinks d)) (nextId d))
         ∨ (find_link (ru_id user) (u_id familyUser) (trustedLinks d) = None
            ∧ d' = with_trustedLinks d
                     (trustedLinks d ++
                      [{| l_id := nextId d; l_seniorId := ru_id user;
                          l_familyId := u_id familyUser; l_status := ACTIVE |}])
                     (S (nextId d)))).
Proof.
  unfold Trusted.post_invite.
  destruct (authenticate _ _) as [r|user] eqn:Ha; simpl; [by left|].
  destruct (requireSenior user) as [r|] eqn:Hrs; simpl; [by left|].
  assert (Hrole : ru_role user = SENIOR).
  { unfold requireSenior in Hrs. by destruct (ru_role user). }
  destruct email as [email|]; simpl; [|by left].
  destruct (String.eqb email EmptyString); simpl; [by left|].
  destruct (find_user_by_email email _) as [familyUser|] eqn:Hf; simpl; [|by left].
  destruct (bool_decide (u_role familyUser = FAMILY)) eqn:Hfam; simpl; [|by left].
  destruct (bool_decide (u_id familyUser = ru_id user)) eqn:Hself; simpl; [by left|].
  apply bool_decide_eq_true in Hfam. apply bool_decide_eq_false in Hself.
  assert (Hin : familyUser ∈ users (db w)).
  { unfold find_user_by_email in Hf. apply find_some in Hf as [Hf _].
    by apply list_elem_of_In. }
  destruct (find_link _ _ _) as [l|] eqn:Hl; simpl.
  - destruct (bool_decide (l_status l = ACTIVE)) eqn:Hst; simpl; [by left|].
    apply bool_decide_eq_false in Hst.
    right. exists user, familyUser. repeat split; try done.
    left. exists l. repeat split; try done. by destruct (l_status l).
  - right. exists user, familyUser. repeat split; try done. by right.
Qed.

(** A removal leaves the tables alone, or sets the pair's link to REVOKED. *)
Lemma delete_effect w token familyId :
  let d := db w in
  let d' := db (Trusted.delete w token familyId).1 in
  d' = d
  ∨ ∃ user l,
      authenticate d token = inr user ∧ ru_role user = SENIOR
      ∧ find_link (ru_id user) familyId (trustedLinks d) = Some l
      ∧ d' = with_trustedLinks d
               (update_link (l_id l) REVOKED (trustedLinks d)) (nextId d).
Proof.
  unfold Trusted.delete.
  destruct (authenticate _ _) as [r|user] eqn:Ha; simpl; [by left|].
  destruct (requireSenior user) as [r|] eqn:Hrs; simpl; [by left|].
  assert (Hrole : ru_role user = SENIOR).
  { unfold requireSenior in Hrs. by destruct (ru_role user). }
  destruct (find_link _ _ _) as [l|] eqn:Hl; simpl; [|by left].
  right. by exists user, l.
Qed.

(** A settings update touches the user table only. *)
Lemma patch_settings_effect w token b :
  let d := db w in
  let d' := db (Users.patch_settings w token b).1 in
  d' = d
  ∨ ∃ user,
      authenticate d token = inr user ∧ ru_role user = SENIOR
      ∧ d' = with_users d
               ((λ x, if bool_decide (u_id x = ru_id user)
                      then Users.apply_settings b x else x) <$> users d).
Proof.
  unfold Users.patch_settings.
  destruct (authenticate _ _) as [r|user] eqn:Ha; simpl; [by left|].
  destruct (requireSenior user) as [r|] eqn:Hrs; simpl; [by left|].
  assert (Hrole : ru_role user = SENIOR).
  { unfold requireSenior in Hrs. by destruct (ru_role user). }
  destruct (find_user _ _); simpl; [|by left].
  right. by exists user.
Qed.

End Effects.

(** ** The tables stay sound *)
Section Soundness.

(** Every operation changes the tables in one of the ways of [db_change]. *)
Lemma apply_change w op :
  alerts_sound (db w) → db_change (db w) (clock w) (db (apply w op)).
Proof.
  intros Hs. destruct op; simpl; try apply change_none.
  - destruct (post_effect w token b ml gem)
      as [->|(user & t & _ & _ & Hid & Hu & [->|(a & -> & ? & ? & ? & ? & ?)])].
    + apply change_none.
    + by apply change_transaction.
    + apply change_alert; congruence.
  - destruct (post_decide_effect w q Hs)
      as [->|(user & decision & alert & _ & Hd & Hal & Hst & _ & ->)].
    + apply change_none.
    + destruct (Hs _ _ Hal) as (Hid & _).
      apply change_decision; try done.
      * by rewrite Hid.
      * by eapply valid_decision_cases.
  - destruct (post_invite_effect w token email)
      as [->|(user & fu & _ & _ & _ & _ & _ & [(l & Hl & _ & ->)|(Hl & ->)])].
    + apply change_none.
    + apply change_link_status.
      unfold find_link in Hl. apply find_some in Hl as [Hl _]. by apply list_elem_of_In.
    + by apply change_link_new.
  - destruct (delete_effect w token familyId) as [->|(user & l & _ & _ & Hl & ->)].
    + apply change_none.
    + apply change_link_status.
      unfold find_link in Hl. apply find_some in Hl as [Hl _]. by apply list_elem_of_In.
  - destruct (patch_settings_effect w token b) as [->|(user & _ & _ & ->)].
    + apply change_none.
    + apply change_users.
Qed.

Lemma db_change_nextId d now d' : db_change d now d' → nextId d ≤ nextId d'.
Proof. destruct 1; simpl; lia. Qed.

Lemma db_change_transactions_sound d now d' :
  db_change d now d' → transactions_sound d → transactions_sound d'.
Proof.
  intros Hc Hs. pose proof (db_change_nextId _ _ _ Hc) as Hn.
  assert (Hkeep : transactions d' = transactions d → transactions_sound d').
  { intros Heq k t' Hk. rewrite Heq in Hk. destruct (Hs k t' Hk). split; [done|lia]. }
  assert (Hput : ∀ t, t_id t = nextId d → nextId d < nextId d' →
            transactions d' = <[t_id t := t]> (transactions d) → transactions_sound d').
  { intros t Hid Hlt Heq k t' Hk. rewrite Heq in Hk.
    destruct (decide (k = t_id t)) as [->|Hne].
    - rewrite lookup_insert_eq in Hk. simplify_eq. split; [done|lia].
    - rewrite lookup_insert_ne in Hk by done. destruct (Hs k t' Hk). split; [done|lia]. }
  destruct Hc as [ | t Hid | t a Hid Haid Hatx Hasen Hast Hares
                 | alert decision ap Hal Hst Hdec Hapid Hapal Hapdec
                 | l st Hl | l Hnone Hlid | us ]; try (by apply Hkeep).
  - apply (Hput t); simpl; [done|lia|done].
  - apply (Hput t); simpl; [done|lia|done].
Qed.

Lemma db_change_references_sound d now d' :
  db_change d now d' → transactions_sound d → references_sound d →
  references_sound d'.
Proof.
  intros Hc Ht [Ha Hap]. unfold references_sound.
  destruct Hc as [ | t Hid | t a Hid Haid Hatx Hasen Hast Hares
                 | alert decision ap Hal Hst Hdec Hapid Hapal Hapdec
                 | l st Hl | l Hnone Hlid | us ]; simpl; try (split; done).
  - split; [|done]. intros k a Hk. destruct (Ha k a Hk) as (t' & Ht' & Hu).
    exists t'. split; [|done]. rewrite lookup_insert_ne; [done|].
    destruct (Ht _ _ Ht'). lia.
  - split.
    + intros k a' Hk. destruct (decide (k = a_id a)) as [->|Hne].
      * rewrite lookup_insert_eq in Hk. simplify_eq.
        exists t. split; [|done]. rewrite Hatx, <- Hid. apply lookup_insert_eq.
      * rewrite lookup_insert_ne in Hk by done.
        destruct (Ha k a' Hk) as (t' & Ht' & Hu).
        exists t'. split; [|done]. rewrite lookup_insert_ne; [done|].
        destruct (Ht _ _ Ht'). lia.
    + intros ap Hin. destruct (Hap ap Hin) as [a' Ha'].
      destruct (decide (ap_alertId ap = a_id a)) as [->|Hne].
      * rewrite lookup_insert_eq. eauto.
      * rewrite lookup_insert_ne by done. eauto.
  - split.
    + intros k a' Hk. destruct (decide (k = a_id alert)) as [->|Hne].
      * rewrite lookup_insert_eq in Hk. simplify_eq. simpl. by apply (Ha (a_id alert)).
      * rewrite lookup_insert_ne in Hk by done. by apply (Ha k).
    + intros ap' Hin. apply elem_of_app in Hin as [Hin|Hin].
      * destruct (Hap ap' Hin) as [a' Ha'].
        destruct (decide (ap_alertId ap' = a_id alert)) as [->|Hne].
        -- rewrite lookup_insert_eq. eauto.
        -- rewrite lookup_insert_ne by done. eauto.
      * apply list_elem_of_singleton in Hin as ->. rewrite Hapal.
        rewrite lookup_insert_eq. eauto.
Qed.

Lemma update_link_ids lid st ls : l_id <$> update_link lid st ls = l_id <$> ls.
Proof.
  unfold update_link. rewrite <- list_fmap_compose. apply list_fmap_ext.
  intros i x _. simpl. by destruct (bool_decide _).
Qed.

Lemma elem_of_update_link lid st ls l' :
  l' ∈ update_link lid st ls →
  ∃ l, l ∈ ls ∧ l_id l' = l_id l ∧ l_seniorId l' = l_seniorId l
       ∧ l_familyId l' = l_familyId l
       ∧ l' = (if bool_decide (l_id l = lid) then set_link_status st l else l).
Proof.
  unfold update_link. intros H. apply list_elem_of_fmap in H as (l & -> & Hl).
  exists l. split; [done|]. by destruct (bool_decide _).
Qed.

Lemma find_link_none s f ls l :
  find_link s f ls = None → l ∈ ls → ¬ (l_seniorId l = s ∧ l_familyId l = f).
Proof.
  unfold find_link. intros Hn Hl [Hs Hf].
  apply list_elem_of_In in Hl. pose proof (find_none _ _ Hn _ Hl) as Hx.
  simpl in Hx. rewrite !bool_decide_eq_true_2 in Hx by done. discriminate.
Qed.

Lemma db_change_links_sound d now d' :
  db_change d now d' → links_sound d → links_sound d'.
Proof.
  intros Hc (Hnd & Hlt & Hpair).
  pose proof (db_change_nextId _ _ _ Hc) as Hn.
  assert (Hkeep : trustedLinks d' = trustedLinks d → links_sound d').
  { intros Heq. unfold links_sound. rewrite Heq. repeat split; try done.
    intros l0 Hl0. pose proof (Hlt l0 Hl0). lia. }
  destruct Hc as [ | t Hid | t a Hid Haid Hatx Hasen Hast Hares
                 | alert decision ap Hal Hst Hdec Hapid Hapal Hapdec
                 | l st Hl | l Hnone Hlid | us ]; try (by apply Hkeep).
  - unfold links_sound. simpl. repeat split.
    + by rewrite update_link_ids.
    + intros l' Hl'. apply elem_of_update_link in Hl' as (l0 & Hl0 & Hid & _).
      rewrite Hid. by apply Hlt.
    + intros l1 l2 H1 H2 Hs Hf.
      apply elem_of_update_link in H1 as (x1 & Hx1 & _ & Hs1 & Hf1 & ->).
      apply elem_of_update_link in H2 as (x2 & Hx2 & _ & Hs2 & Hf2 & ->).
      assert (x1 = x2) as -> by (apply Hpair; congruence).
      done.
  - unfold links_sound. simpl. repeat split.
    + rewrite fmap_app. simpl. apply NoDup_app. split; [done|]. split.
      * intros x Hx Hx'. apply list_elem_of_singleton in Hx'. subst x.
        apply list_elem_of_fmap in Hx as (l0 & Hid & Hl0).
        pose proof (Hlt l0 Hl0). lia.
      * apply NoDup_singleton.
    + intros l0 Hl0. apply elem_of_app in Hl0 as [Hl0|Hl0].
      * pose proof (Hlt l0 Hl0). lia.
      * apply list_elem_of_singleton in Hl0 as ->. lia.
    + intros l1 l2 H1 H2 Hs Hf.
      apply elem_of_app in H1 as [H1|H1]; apply elem_of_app in H2 as [H2|H2].
      * by apply Hpair.
      * apply list_elem_of_singleton in H2 as ->.
        by destruct (find_link_none _ _ _ _ Hnone H1).
      * apply list_elem_of_singleton in H1 as ->.
        by destruct (find_link_none _ _ _ _ Hnone H2).
      * apply list_elem_of_singleton in H1, H2. congruence.
Qed.

Lemma apply_db_sound w op : db_sound (db w) → db_sound (db (apply w op)).
Proof.
  intros (Ha & Ht & Hr & Hl).
  pose proof (apply_change w op Ha) as Hc.
  split; [by apply apply_alerts_sound|].
  split; [by eapply db_change_transactions_sound|].
  split; [by eapply db_change_references_sound|].
  by eapply db_change_links_sound.
Qed.

Lemma apply_all_db_sound ops w : db_sound (db w) → db_sound (db (apply_all w ops)).
Proof.
  revert w. induction ops as [|op ops IH]; intros w Hs; [done|].
  simpl. apply IH. by apply apply_db_sound.
Qed.

Lemma household_sound : db_sound (db household).
Proof.
  unfold db_sound, alerts_sound, transactions_sound, references_sound, links_sound.
  unfold household. simpl.
  split; [|split; [|split; [split|split; [|split]]]].
  - intros k a Hk. by rewrite lookup_empty in Hk.
  - intros k a Hk. by rewrite lookup_empty in Hk.
  - intros k a Hk. by rewrite lookup_empty in Hk.
  - intros ap Hap. by apply elem_of_nil in Hap.
  - apply NoDup_nil_2.
  - intros l Hl. by apply elem_of_nil in Hl.
  - intros l l' Hl. by apply elem_of_nil in Hl.
Qed.

End Soundness.

(** ** Who is notified (lib/socket.js, routes/transactions.js, routes/alerts.js) *)
Section Fanout.

Import Socket.

Lemma elem_of_members sid r s : sid ∈ members r s ↔ subscribed sid r s.
Proof.
  unfold members, subscribed. rewrite list_elem_of_fmap. split.
  - intros ([sid' c] & -> & H). apply list_elem_of_In, filter_In in H as [Hin Hr].
    apply list_elem_of_In, elem_of_map_to_list in Hin.
    exists c. split; [done|]. unfold in_room in Hr. by apply bool_decide_eq_true in Hr.
  - intros (c & Hc & Hr). exists (sid, c). split; [done|].
    apply list_elem_of_In, filter_In. split.
    + apply list_elem_of_In. by apply elem_of_map_to_list.
    + unfold in_room. simpl. by apply bool_decide_eq_true.
Qed.

Lemma elem_of_fanout d e rooms s :
  d ∈ fanout e rooms s
  ↔ d_event d = e ∧ ∃ r, r ∈ rooms ∧ subscribed (d_socket d) r s.
Proof.
  unfold fanout. rewrite list_elem_of_bind. split.
  - intros (r & Hd & Hr). apply list_elem_of_fmap in Hd as (sid & -> & Hsid).
    apply elem_of_members in Hsid. simpl. eauto.
  - intros (He & r & Hr & Hsub). exists r. split; [|done].
    apply list_elem_of_fmap. exists (d_socket d). split.
    + destruct d. simpl in *. by subst.
    + by apply elem_of_members.
Qed.

Lemma elem_of_audience r d seniorId :
  r ∈ audience d seniorId
  ↔ r = UserRoom seniorId
    ∨ ∃ l, l ∈ trustedLinks d ∧ l_seniorId l = seniorId ∧ l_status l = ACTIVE
           ∧ r = UserRoom (l_familyId l).
Proof.
  unfold audience, active_links. rewrite elem_of_cons, list_elem_of_fmap.
  split; (intros [->|(l & H1 & H2)]; [by left|right]).
  - apply list_elem_of_In, filter_In in H2 as [Hin Hl].
    apply andb_true_iff in Hl as [Hs Hst].
    apply bool_decide_eq_true in Hs, Hst. apply list_elem_of_In in Hin. eauto.
  - destruct H2 as (Hs & Hst & ->). exists l. split; [done|].
    apply list_elem_of_In, filter_In. split; [by apply list_elem_of_In|].
    by rewrite !bool_decide_eq_true_2.
Qed.

Lemma fanout_sockets e rooms s s' :
  sockets s' = sockets s → fanout e rooms s' = fanout e rooms s.
Proof. intros H. unfold fanout, members. by rewrite H. Qed.

Lemma fanout_app e rs rs' s : fanout e (rs ++ rs') s = fanout e rs s ++ fanout e rs' s.
Proof. unfold fanout. apply bind_app. Qed.

Lemma announces_emit r e s : announces s (emit r e s) e [r].
Proof.
  split; [done|]. split; [done|]. unfold emit, fanout, members. simpl.
  rewrite app_nil_r. f_equal. by rewrite <- list_fmap_compose.
Qed.

Lemma announces_trans s1 s2 s3 e rs rs' :
  announces s1 s2 e rs → announces s2 s3 e rs' → announces s1 s3 e (rs ++ rs').
Proof.
  intros (H1 & H2 & H3) (H4 & H5 & H6). split; [congruence|]. split; [congruence|].
  rewrite H6, H3, fanout_app, (fanout_sockets _ _ s1 s2) by done.
  by rewrite app_assoc.
Qed.

Lemma announces_nil s e : announces s s e [].
Proof. split; [done|]. split; [done|]. unfold fanout. simpl. by rewrite app_nil_r. Qed.

Lemma announces_emit_each (room_of : TrustedLink → Room) e links s :
  announces s (foldl (λ s l, emit (room_of l) e s) s links) e (room_of <$> links).
Proof.
  revert s. induction links as [|l links IH]; intros s; simpl; [apply announces_nil|].
  apply (announces_trans _ (emit (room_of l) e s) _ e [room_of l]);
    [apply announces_emit|apply IH].
Qed.

Lemma announces_audience e seniorId d s :
  announces s
    (foldl (λ s l, emit (UserRoom (l_familyId l)) e s) (emit (UserRoom seniorId) e s)
       (active_links seniorId (trustedLinks d)))
    e (audience d seniorId).
Proof.
  apply (announces_trans _ (emit (UserRoom seniorId) e s) _ e [UserRoom seniorId]);
    [apply announces_emit|apply (announces_emit_each (λ l, UserRoom (l_familyId l)))].
Qed.

(** What a submission does to the sockets: nothing, unless it is answered
    with a new alert, which is emitted to the audience of its senior. *)
Lemma post_announces w token b ml gem :
  let w' := (Transactions.post w token b ml gem).1 in
  let r := (Transactions.post w token b ml gem).2 in
  (io w' = io w ∧ without_alert r)
  ∨ ∃ user txn alert level score,
      authenticate (db w) token = inr user
      ∧ r = respond 201 (Submitted txn (Some alert) level score)
      ∧ a_seniorId alert = ru_id user
      ∧ announces (io w) (io w')
          (AlertNew alert (ru_name user)
             (l_familyId <$> active_links (ru_id user) (trustedLinks (db w))))
          (audience (db w) (ru_id user)).
Proof.
  unfold Transactions.post.
  destruct (authenticate _ _) as [r|user] eqn:Ha; simpl.
  { left. split; [done|]. intros ? ? ? ? ->.
    unfold authenticate in Ha. repeat case_match; simplify_eq. }
  destruct (requireSenior user) as [r|] eqn:Hrs; simpl.
  { left. split; [done|]. intros ? ? ? ? ->.
    unfold requireSenior in Hrs. case_match; simplify_eq. }
  destruct (MlService.scoreTransaction ml) as [riskResult|err]; simpl;
    [|left; split; [done|by intros ? ? ? ?]].
  destruct (Qle_bool _ _); simpl; [|left; split; [done|by intros ? ? ? ?]].
  unfold Transactions.raise_alert.
  destruct (Gemini.explainTransaction _ _) as [e|err]; simpl;
    [|left; split; [done|by intros ? ? ? ?]].
  right. do 5 eexists. split; [done|]. split; [done|]. split; [done|].
  apply announces_audience.
Qed.

(** What the three writes-and-notify steps of a decision do to the sockets. *)
Lemma commit_announces q w user decision alert :
  let w' := (commit q w user decision alert).1 in
  let pc := (commit q w user decision alert).2 in
  (io w' = io w ∧ ∃ r, pc = Alerts.Done r ∧ r_status r = 500)
  ∨ ∃ updated withApprovals approval,
      pc = Alerts.Done (respond 200 (Decided updated withApprovals approval))
      ∧ announces (io w) (io w') (AlertUpdate updated withApprovals)
          (audience (db w) (a_seniorId alert)).
Proof.
  unfold commit. destruct (alerts (db w) !! a_id alert) as [row|]; simpl.
  - right. do 3 eexists. split; [done|]. apply announces_audience.
  - left. split; [done|]. eauto.
Qed.

(** What a decision served alone does to the sockets: nothing, unless it is
    answered 200; then the update is emitted to the audience of the alert's
    senior. *)
Lemma post_decide_announces w q :
  let w' := (Alerts.post_decide w q).1 in
  let r := (Alerts.post_decide w q).2 in
  (io w' = io w ∧ ∃ x, r = Some x ∧ r_status x ≠ 200)
  ∨ ∃ alert updated withApprovals approval,
      alerts (db w) !! Alerts.q_alertId q = Some alert
      ∧ r = Some (respond 200 (Decided updated withApprovals approval))
      ∧ announces (io w) (io w') (AlertUpdate updated withApprovals)
          (audience (db w) (a_seniorId alert)).
Proof.
  rewrite post_decide_eq.
  destruct (authenticate _ _) as [r|user] eqn:Ha; simpl.
  { left. split; [done|]. exists r. split; [done|].
    unfold authenticate in Ha. by repeat case_match; simplify_eq. }
  destruct (Alerts.valid_decision _) as [decision|]; simpl;
    [|left; split; [done|]; eexists; split; [done|]; simpl; lia].
  destruct (Alerts.after_find user decision _) as [| | u dd a | u dd a | | |r] eqn:Hpc;
    simpl.
  - unfold Alerts.after_find in Hpc. repeat case_match; simplify_eq.
  - unfold Alerts.after_find in Hpc. repeat case_match; simplify_eq.
  - apply after_find_family in Hpc as (-> & -> & Hf & _).
    destruct (find_active_link _ _ _); simpl;
      [|left; split; [done|]; eexists; split; [done|]; simpl; lia].
    destruct (commit_announces q w user decision a)
      as [(Hio & r & Hr & Hst)|(up & wa & ap & Hr & Hann)].
    + left. split; [done|]. exists r. rewrite Hr. simpl. split; [done|lia].
    + right. exists a, up, wa, ap. rewrite Hr. done.
  - apply after_find_senior in Hpc as (-> & -> & Hf & _).
    destruct (commit_announces q w user decision a)
      as [(Hio & r & Hr & Hst)|(up & wa & ap & Hr & Hann)].
    + left. split; [done|]. exists r. rewrite Hr. simpl. split; [done|lia].
    + right. exists a, up, wa, ap. rewrite Hr. done.
  - unfold Alerts.after_find in Hpc. repeat case_match; simplify_eq.
  - unfold Alerts.after_find in Hpc. repeat case_match; simplify_eq.
  - left. split; [done|]. exists r. split; [done|].
    apply after_find_refused in Hpc. lia.
Qed.

End Fanout.

(** X1: who hears of a new alert. A submission that is not answered with a
    new alert leaves the sockets and the delivery log as they were. One that
    is answered with a new alert emits a single [alert:new] event carrying
    that alert, and the copies of it that are delivered go to exactly the
    sockets that are in the senior's room or in the room of a family member
    whose link from that senior is ACTIVE when the request is served; no
    connection is opened or closed. *)
Theorem new_alert_reaches_its_audience (w : World) (token : Bearer)
    (b : Transactions.TxnBody) (ml : MlService.FetchOutcome) (gem : Gemini.Env) :
  let w' := (Transactions.post w token b ml gem).1 in
  let r := (Transactions.post w token b ml gem).2 in
  (without_alert r ∧ io w' = io w)
  ∨ (∃ txn alert level score e news,
       r = respond 201 (Submitted txn (Some alert) level score)
       ∧ Socket.event_name e = "alert:new" ∧ Socket.event_alert e = alert
       ∧ Socket.sockets (io w') = Socket.sockets (io w)
       ∧ Socket.delivered (io w') = Socket.delivered (io w) ++ news
       ∧ ∀ d, d ∈ news ↔
           Socket.d_event d = e
           ∧ (subscribed (Socket.d_socket d) (Socket.UserRoom (a_seniorId alert)) (io w)
              ∨ ∃ l, l ∈ trustedLinks (db w) ∧ l_seniorId l = a_seniorId alert
                     ∧ l_status l = ACTIVE
                     ∧ subscribed (Socket.d_socket d)
                         (Socket.UserRoom (l_familyId l)) (io w))).
Proof.
  intros w' r.
  destruct (post_announces w token b ml gem)
    as [[Hio Hr]|(user & txn & alert & level & score & Ha & Hr & Hs & Hsock & _ & Hdel)].
  { left. by split. }
  right. exists txn, alert, level, score. eexists (Socket.AlertNew alert _ _), _.
  split; [exact Hr|]. split; [done|]. split; [done|].
  split; [exact Hsock|]. split; [exact Hdel|].
  intros d. rewrite elem_of_fanout. rewrite Hs. split.
  - intros (He & room & Hroom & Hsub). split; [done|].
    apply elem_of_audience in Hroom as [->|(l & Hl & Hls & Hlst & ->)]; [by left|].
    right. eauto 10.
  - intros (He & [Hsub|(l & Hl & Hls & Hlst & Hsub)]); (split; [done|]).
    + exists (Socket.UserRoom (ru_id user)). split; [|done].
      apply elem_of_audience. by left.
    + exists (Socket.UserRoom (l_familyId l)). split; [|done].
      apply elem_of_audience. right. eauto 10.
Qed.

(** X2: who hears of a decision. A decision served alone that is not
    answered 200 leaves the sockets and the delivery log as they were. One
    that is answered 200 emits a single [alert:update] event carrying the
    updated alert of the answer, and its copies go to exactly the sockets
    that are in the room of the alert's senior or in the room of a family
    member whose link from that senior is ACTIVE. *)
Theorem alert_update_reaches_its_audience (w : World) (q : Alerts.DecideReq) :
  let w' := (Alerts.post_decide w q).1 in
  let r := (Alerts.post_decide w q).2 in
  ((∃ x, r = Some x ∧ r_status x ≠ 200) ∧ io w' = io w)
  ∨ (∃ alert updated withApprovals approval e news,
       alerts (db w) !! Alerts.q_alertId q = Some alert
       ∧ r = Some (respond 200 (Decided updated withApprovals approval))
       ∧ Socket.event_name e = "alert:update" ∧ Socket.event_alert e = updated
       ∧ Socket.sockets (io w') = Socket.sockets (io w)
       ∧ Socket.delivered (io w') = Socket.delivered (io w) ++ news
       ∧ ∀ d, d ∈ news ↔
           Socket.d_event d = e
           ∧ (subscribed (Socket.d_socket d) (Socket.UserRoom (a_seniorId alert)) (io w)
              ∨ ∃ l, l ∈ trustedLinks (db w) ∧ l_seniorId l = a_seniorId alert
                     ∧ l_status l = ACTIVE
                     ∧ subscribed (Socket.d_socket d)
                         (Socket.UserRoom (l_familyId l)) (io w))).
Proof.
  intros w' r.
  destruct (post_decide_announces w q)
    as [[Hio Hr]|(alert & up & wa & ap & Hal & Hr & Hsock & _ & Hdel)].
  { left. by split. }
  right. exists alert, up, wa, ap. eexists (Socket.AlertUpdate up wa), _.
  split; [exact Hal|]. split; [exact Hr|]. split; [done|]. split; [done|].
  split; [exact Hsock|]. split; [exact Hdel|].
  intros d. rewrite elem_of_fanout. split.
  - intros (He & room & Hroom & Hsub). split; [done|].
    apply elem_of_audience in Hroom as [->|(l & Hl & Hls & Hlst & ->)]; [by left|].
    right. eauto 10.
  - intros (He & [Hsub|(l & Hl & Hls & Hlst & Hsub)]); (split; [done|]).
    + exists (Socket.UserRoom (a_seniorId alert)). split; [|done].
      apply elem_of_audience. by left.
    + exists (Socket.UserRoom (l_familyId l)). split; [|done].
      apply elem_of_audience. right. eauto 10.
Qed.

Section Copies.

Import Socket.

Lemma filter_hit {A} (f : A → bool) (x : A) (l : list A) :
  x ∈ l → f x = true → 1 ≤ length (List.filter f l).
Proof.
  intros Hin Hf. assert (Hx : In x (List.filter f l)).
  { apply filter_In. split; [by apply list_elem_of_In|done]. }
  destruct (List.filter f l); [done|simpl; lia].
Qed.

Lemma filter_miss {A} (f : A → bool) (l : list A) :
  (∀ x, x ∈ l → f x = false) → List.filter f l = [].
Proof.
  induction l as [|x l IH]; intros H; simpl; [done|].
  rewrite (H x) by by left. apply IH. intros y Hy. apply H. by right.
Qed.

Lemma fanout_copy sid e rooms s r :
  r ∈ rooms → subscribed sid r s →
  1 ≤ length (List.filter (λ d, bool_decide (d_socket d = sid)) (fanout e rooms s)).
Proof.
  intros Hr Hsub. apply (filter_hit _ {| d_socket := sid; d_event := e |}).
  - apply elem_of_fanout. simpl. eauto.
  - by apply bool_decide_eq_true.
Qed.

Lemma fanout_cons e r rooms s : fanout e (r :: rooms) s = fanout e [r] s ++ fanout e rooms s.
Proof. apply (fanout_app e [r] rooms). Qed.

End Copies.

(** X3: one alert, two copies. A socket that is in the senior's room and
    also in the room of a family member with an ACTIVE link from that senior
    (the family dashboard's socket is in both: it joins its own room when it
    connects and the senior's through [join:senior]) is sent the [alert:new]
    event of a new alert at least twice. *)
Theorem new_alert_is_delivered_twice (w w' : World) (token : Bearer)
    (b : Transactions.TxnBody) (ml : MlService.FetchOutcome) (gem : Gemini.Env)
    (txn : Transaction) (alert : Alert) (level : string) (score : Q)
    (sid : Id) (l : TrustedLink) :
  Transactions.post w token b ml gem
    = (w', respond 201 (Submitted txn (Some alert) level score)) →
  l ∈ trustedLinks (db w) → l_seniorId l = a_seniorId alert → l_status l = ACTIVE →
  subscribed sid (Socket.UserRoom (a_seniorId alert)) (io w) →
  subscribed sid (Socket.UserRoom (l_familyId l)) (io w) →
  ∃ e news,
    Socket.event_alert e = alert
    ∧ Socket.delivered (io w') = Socket.delivered (io w) ++ news
    ∧ (∀ d, d ∈ news → Socket.d_event d = e)
    ∧ 2 ≤ length (deliveries_to sid (io w')) - length (deliveries_to sid (io w)).
Proof.
  intros Hpost Hl Hls Hlst Hsub1 Hsub2.
  pose proof (post_announces w token b ml gem) as H.
  rewrite Hpost in H. cbn [fst snd] in H.
  destruct H
    as [[_ Hr]|(user & txn' & alert' & level' & score' & Ha & Hr & Hs & _ & _ & Hdel)].
  { by destruct (Hr txn alert level score). }
  injection Hr as <- <- <- <-.
  eexists (Socket.AlertNew alert _ _), _. split; [|split; [exact Hdel|split]].
  - done.
  - intros d Hd. by apply elem_of_fanout in Hd as [He _].
  - unfold deliveries_to. rewrite Hdel, List.filter_app, length_app.
    unfold audience. rewrite fanout_cons, List.filter_app, length_app.
    pose proof (fanout_copy sid
      (Socket.AlertNew alert (ru_name user)
         (l_familyId <$> active_links (ru_id user) (trustedLinks (db w))))
      [Socket.UserRoom (ru_id user)] (io w) (Socket.UserRoom (ru_id user))) as H1.
    pose proof (fanout_copy sid
      (Socket.AlertNew alert (ru_name user)
         (l_familyId <$> active_links (ru_id user) (trustedLinks (db w))))
      ((λ l, Socket.UserRoom (l_familyId l))
         <$> active_links (ru_id user) (trustedLinks (db w)))
      (io w) (Socket.UserRoom (l_familyId l))) as H2.
    rewrite <- Hs in *.
    assert (Hin : Socket.UserRoom (l_familyId l) ∈
              (λ l, Socket.UserRoom (l_familyId l))
                <$> active_links (a_seniorId alert) (trustedLinks (db w))).
    { assert (Ha' : Socket.UserRoom (l_familyId l) ∈ audience (db w) (a_seniorId alert)).
      { apply elem_of_audience. right. eauto 10. }
      unfold audience in Ha'. apply elem_of_cons in Ha' as [Heq|Ha']; [|done].
      apply list_elem_of_fmap. exists l. split; [done|].
      unfold active_links. apply list_elem_of_In, filter_In.
      split; [by apply list_elem_of_In|]. by rewrite !bool_decide_eq_true_2. }
    specialize (H1 ltac:(by left) Hsub1). specialize (H2 Hin Hsub2). lia.
Qed.

Lemma new_alert_is_delivered_twice_witness :
  2 ≤ length (deliveries_to 7
                (io (apply watched
                       (Submit (Verified 1) coinflip (scored_as 0.97 "CRITICAL") no_gemini))))
      - length (deliveries_to 7 (io watched)).
Proof.
  edestruct new_alert_is_delivered_twice
    with (w := watched) (token := Verified 1) (b := coinflip)
         (ml := scored_as 0.97 "CRITICAL") (gem := no_gemini) (sid := 7)
         (l := {| l_id := 3; l_seniorId := 1; l_familyId := 2; l_status := ACTIVE |})
    as (e & news & _ & _ & _ & H).
  - vm_compute. reflexivity.
  - vm_compute. by left.
  - reflexivity.
  - reflexivity.
  - eexists. split; [vm_compute; reflexivity|]. vm_compute. set_solver.
  - eexists. split; [vm_compute; reflexivity|]. vm_compute. set_solver.
  - exact H.
Defined.

(** ** The registry of connections (lib/socket.js) *)
Section Registry.

Import Socket.

Lemma registry_sound_same s s' :
  sockets s' = sockets s → userSockets s' = userSockets s →
  registry_sound s → registry_sound s'.
Proof. intros H1 H2 H sid u. rewrite H1, H2. apply H. Qed.

Lemma connection_registry sid h s :
  sockets s !! sid = None → registry_sound s → registry_sound (connection sid h s).
Proof.
  intros Hfresh H. destruct h as [| |userId role]; simpl; [done|done|].
  intros sid' u. simpl.
  destruct (decide (u = userId)) as [->|Hu]; destruct (decide (sid' = sid)) as [->|Hs].
  - rewrite !lookup_insert_eq. split; intros _; eexists; (split; [done|]); [done|set_solver].
  - rewrite lookup_insert_eq, lookup_insert_ne by done. rewrite <- (H sid' userId). split.
    + intros (sids & [= <-] & Hin).
      apply elem_of_union in Hin as [Hin|Hin]; [set_solver|].
      destruct (userSockets s !! userId) as [sids|] eqn:Hus; simpl in Hin; [|set_solver].
      eauto.
    + intros (sids & Hus & Hin). eexists. split; [done|]. rewrite Hus. simpl. set_solver.
  - rewrite lookup_insert_eq, lookup_insert_ne by done. split.
    + intros Hl. apply H in Hl as (c & Hc & _). congruence.
    + intros (c & [= <-] & Hc). simpl in Hc. congruence.
  - rewrite !lookup_insert_ne by done. apply H.
Qed.

Lemma join_registry sid seniorId s :
  registry_sound s → registry_sound (on_join_senior sid seniorId s).
Proof.
  intros H sid' u. simpl. rewrite (H sid' u).
  destruct (decide (sid' = sid)) as [->|Hs].
  - rewrite lookup_alter_eq. split.
    + intros (c & Hc & Hu). rewrite Hc. simpl. eauto.
    + intros (c & Hc & Hu). destruct (sockets s !! sid) as [c0|]; simplify_eq/=. eauto.
  - by rewrite lookup_alter_ne.
Qed.

Lemma disconnect_registry sid s :
  registry_sound s → registry_sound (on_disconnect sid s).
Proof.
  intros H. unfold on_disconnect. destruct (sockets s !! sid) as [c|] eqn:Hc; [|done].
  intros sid' u. simpl.
  destruct (decide (sid' = sid)) as [->|Hs].
  - rewrite lookup_delete_eq. split; [|by intros (? & [=] & _)].
    intros (sids & Hus & Hin). exfalso.
    destruct (decide (u = s_userId c)) as [->|Hu].
    + rewrite lookup_alter_eq in Hus.
      destruct (userSockets s !! s_userId c) as [old|]; [|done].
      injection Hus as <-. apply elem_of_difference in Hin as [_ Hin].
      apply Hin. by apply elem_of_singleton.
    + rewrite lookup_alter_ne in Hus by done.
      destruct (proj1 (H sid u)) as (c' & Hc' & Hu'); [eauto|]. congruence.
  - rewrite lookup_delete_ne by done. rewrite <- (H sid' u).
    destruct (decide (u = s_userId c)) as [->|Hu].
    + rewrite lookup_alter_eq. split.
      * intros (sids & Hus & Hin).
        destruct (userSockets s !! s_userId c) as [old|]; [|done].
        injection Hus as <-. apply elem_of_difference in Hin as [Hin _]. eauto.
      * intros (sids & Hus & Hin). rewrite Hus. simpl. eexists. split; [done|set_solver].
    + by rewrite lookup_alter_ne.
Qed.

(** An HTTP request opens and closes no connection. *)
Lemma apply_io w op :
  match op with
  | Connect sid h => io (apply w op) = connection sid h (io w)
  | JoinSenior sid seniorId => io (apply w op) = on_join_senior sid seniorId (io w)
  | Disconnect sid => io (apply w op) = on_disconnect sid (io w)
  | _ => io (apply w op) = io w
         ∨ ∃ e rooms, announces (io w) (io (apply w op)) e rooms
  end.
Proof.
  destruct op; simpl; try done.
  - destruct (post_announces w token b ml gem) as [[H _]|(? & ? & ? & ? & ? & _ & _ & _ & H)];
      [by left|right; eauto].
  - destruct (post_decide_announces w q) as [[H _]|(? & ? & ? & ? & _ & _ & H)];
      [by left|right; eauto].
  - left. apply post_invite_io.
  - left. apply delete_io.
  - left. apply patch_settings_io.
Qed.

Lemma apply_registry w op :
  fresh_connect w op → registry_sound (io w) → registry_sound (io (apply w op)).
Proof.
  intros Hf H. pose proof (apply_io w op) as Hio.
  destruct op; try (destruct Hio as [->|(e & rooms & H1 & H2 & _)];
                    [done|by eapply registry_sound_same]); rewrite Hio.
  - by apply connection_registry.
  - by apply join_registry.
  - by apply disconnect_registry.
Qed.

Lemma own_room_same s s' : sockets s' = sockets s → own_room_sound s → own_room_sound s'.
Proof. intros H1 H sid c. rewrite H1. apply H. Qed.

Lemma apply_own_room w op : own_room_sound (io w) → own_room_sound (io (apply w op)).
Proof.
  intros H. pose proof (apply_io w op) as Hio.
  destruct op; try (destruct Hio as [->|(e & rooms & H1 & _)];
                    [done|by eapply own_room_same]); rewrite Hio.
  - destruct h as [| |userId role]; simpl; [done|done|].
    intros sid' c. simpl. destruct (decide (sid' = sid)) as [->|Hs].
    + rewrite lookup_insert_eq. intros [= <-]. simpl. set_solver.
    + rewrite lookup_insert_ne by done. apply H.
  - intros sid' c. simpl. destruct (decide (sid' = sid)) as [->|Hs].
    + rewrite lookup_alter_eq. destruct (sockets (io w) !! sid) as [c0|] eqn:Hc; [|done].
      intros [= <-]. simpl. apply elem_of_union. right. by apply (H sid).
    + rewrite lookup_alter_ne by done. apply H.
  - unfold on_disconnect. destruct (sockets (io w) !! sid) as [c0|] eqn:Hc; [|done].
    intros sid' c. simpl. destruct (decide (sid' = sid)) as [->|Hs].
    + by rewrite lookup_delete_eq.
    + rewrite lookup_delete_ne by done. apply H.
Qed.

Lemma apply_all_registry ops w :
  fresh_connects w ops → registry_sound (io w) → registry_sound (io (apply_all w ops)).
Proof.
  revert w. induction ops as [|op ops IH]; intros w Hf H; [done|].
  destruct Hf as [Hf Hfs]. simpl. apply IH; [done|]. by apply apply_registry.
Qed.

Lemma apply_all_own_room ops w :
  own_room_sound (io w) → own_room_sound (io (apply_all w ops)).
Proof.
  revert w. induction ops as [|op ops IH]; intros w H; [done|].
  simpl. apply IH. by apply apply_own_room.
Qed.

Lemma empty_io_sound : registry_sound empty_io ∧ own_room_sound empty_io.
Proof.
  split.
  - intros sid u. simpl. split.
    + intros (sids & Hs & _). by rewrite lookup_empty in Hs.
    + intros (c & Hc & _). by rewrite lookup_empty in Hc.
  - intros sid c. simpl. by rewrite lookup_empty.
Qed.

(** A socket that is not connected gets nothing. *)
Lemma apply_gone w op sid :
  not_connect sid op → sockets (io w) !! sid = None →
  sockets (io (apply w op)) !! sid = None
  ∧ deliveries_to sid (io (apply w op)) = deliveries_to sid (io w).
Proof.
  intros Hop Hgone. pose proof (apply_io w op) as Hio.
  assert (Hhttp : io (apply w op) = io w
                  ∨ (∃ e rooms, announces (io w) (io (apply w op)) e rooms) →
          sockets (io (apply w op)) !! sid = None
          ∧ deliveries_to sid (io (apply w op)) = deliveries_to sid (io w)).
  { intros [->|(e & rooms & H1 & _ & H3)]; [done|]. rewrite H1. split; [done|].
    unfold deliveries_to. rewrite H3, List.filter_app.
    rewrite (filter_miss _ (fanout e rooms (io w))); [by rewrite app_nil_r|].
    intros d Hd. apply elem_of_fanout in Hd as (_ & r & _ & c & Hc & _).
    apply bool_decide_eq_false. congruence. }
  destruct op; try (by apply Hhttp); rewrite Hio; simpl in Hop.
  - destruct h as [| |userId role]; simpl; [done|done|].
    by rewrite lookup_insert_ne.
  - simpl. split; [|done]. destruct (decide (sid0 = sid)) as [->|Hs].
    + by rewrite lookup_alter_eq, Hgone.
    + by rewrite lookup_alter_ne.
  - unfold on_disconnect. destruct (sockets (io w) !! sid0) as [c0|] eqn:Hc; [|done].
    simpl. split; [|done]. destruct (decide (sid0 = sid)) as [->|Hs].
    + by rewrite lookup_delete_eq.
    + by rewrite lookup_delete_ne.
Qed.

Lemma apply_all_gone ops w sid :
  Forall (not_connect sid) ops → sockets (io w) !! sid = None →
  deliveries_to sid (io (apply_all w ops)) = deliveries_to sid (io w).
Proof.
  revert w. induction ops as [|op ops IH]; intros w Hops Hgone; [done|].
  apply Forall_cons in Hops as [Hop Hops]. simpl.
  destruct (apply_gone w op sid) as [Hg Hd]; [done|done|].
  rewrite IH by done. exact Hd.
Qed.

End Registry.

(** X4: the registry of connections is exact. When every new socket comes
    with an id of its own, then after any sequence of requests and socket
    events the map [userSockets] lists a socket id under a user exactly when
    a live socket with that id was authenticated as that user: a connection
    is recorded when it is made and taken out when it closes, and nothing
    else touches the map. *)
Theorem registry_lists_the_live_sockets (w : World) (ops : list Op) :
  registry_sound (io w) → fresh_connects w ops →
  ∀ sid u,
    (∃ sids, Socket.userSockets (io (apply_all w ops)) !! u = Some sids ∧ sid ∈ sids)
    ↔ (∃ c, Socket.sockets (io (apply_all w ops)) !! sid = Some c ∧ Socket.s_userId c = u).
Proof. intros H Hf. by apply apply_all_registry. Qed.

Lemma registry_lists_the_live_sockets_witness :
  (∃ sids, Socket.userSockets
             (io (apply_all empty_world
                    [Connect 7 (Socket.Token 2 FAMILY); Connect 8 (Socket.Token 2 FAMILY);
                     JoinSenior 7 1; Disconnect 7])) !! 2 = Some sids ∧ 8 ∈ sids)
  ↔ (∃ c, Socket.sockets
            (io (apply_all empty_world
                   [Connect 7 (Socket.Token 2 FAMILY); Connect 8 (Socket.Token 2 FAMILY);
                    JoinSenior 7 1; Disconnect 7])) !! 8 = Some c ∧ Socket.s_userId c = 2).
Proof.
  apply (registry_lists_the_live_sockets empty_world
           [Connect 7 (Socket.Token 2 FAMILY); Connect 8 (Socket.Token 2 FAMILY);
            JoinSenior 7 1; Disconnect 7]).
  - apply empty_io_sound.
  - simpl. repeat split; vm_compute; reflexivity.
Defined.

(** X5: a message for a user reaches all of that user's connections. When
    every new socket comes with an id of its own, then after any sequence of
    requests and socket events [emitToUser(io, u, e)] delivers [e] to every
    socket that [userSockets] lists under [u]: a socket joins the room of
    its user when it connects and leaves no room before it closes. *)
Theorem emitToUser_reaches_every_connection (w : World) (ops : list Op)
    (u sid : Id) (sids : gset Id) (e : Socket.Event) :
  registry_sound (io w) → own_room_sound (io w) → fresh_connects w ops →
  Socket.userSockets (io (apply_all w ops)) !! u = Some sids → sid ∈ sids →
  {| Socket.d_socket := sid; Socket.d_event := e |}
    ∈ Socket.delivered (SocketHelpers.emitToUser (io (apply_all w ops)) u e).
Proof.
  intros H1 H2 Hf Hus Hin.
  pose proof (apply_all_registry ops w Hf H1) as Hr.
  pose proof (apply_all_own_room ops w H2) as Ho.
  destruct (proj1 (Hr sid u)) as (c & Hc & Hu); [eauto|].
  unfold SocketHelpers.emitToUser. apply emit_delivers.
  exists c. split; [done|]. rewrite <- Hu. by apply (Ho sid).
Qed.

Lemma emitToUser_reaches_every_connection_witness :
  {| Socket.d_socket := 7;
     Socket.d_event := Socket.AlertUpdate (resolve DENIED 1 coinflip_alert) [] |}
    ∈ Socket.delivered
        (SocketHelpers.emitToUser
           (io (apply_all empty_world
                  [Connect 7 (Socket.Token 2 FAMILY); Connect 8 (Socket.Token 1 SENIOR)]))
           2
           (Socket.AlertUpdate (resolve DENIED 1 coinflip_alert) [])).
Proof.
  apply (emitToUser_reaches_every_connection empty_world
           [Connect 7 (Socket.Token 2 FAMILY); Connect 8 (Socket.Token 1 SENIOR)]
           2 7 {[ 7 ]}).
  - apply empty_io_sound.
  - apply empty_io_sound.
  - simpl. repeat split; vm_compute; reflexivity.
  - vm_compute. reflexivity.
  - by apply elem_of_singleton.
Defined.

(** X6: a closed socket gets nothing. Once socket [sid] has disconnected,
    and as long as no new socket is opened under the same id, no request
    delivers anything to it, whatever rooms it was in. *)
Theorem closed_socket_gets_nothing (w : World) (sid : Id) (ops : list Op) :
  Forall (not_connect sid) ops →
  deliveries_to sid (io (apply_all (apply w (Disconnect sid)) ops))
  = deliveries_to sid (io w).
Proof.
  intros Hops. rewrite apply_all_gone; [|done|].
  - simpl. unfold Socket.on_disconnect.
    by destruct (Socket.sockets (io w) !! sid).
  - simpl. unfold Socket.on_disconnect.
    destruct (Socket.sockets (io w) !! sid) eqn:Hc; simpl; [|done].
    apply lookup_delete_eq.
Qed.

Lemma closed_socket_gets_nothing_witness :
  deliveries_to 7
    (io (apply_all (apply watched (Disconnect 7))
           [Submit (Verified 1) coinflip (scored_as 0.97 "CRITICAL") no_gemini;
            JoinSenior 7 1]))
  = deliveries_to 7 (io watched).
Proof.
  apply (closed_socket_gets_nothing watched 7).
  repeat constructor.
Defined.

(** ** What requests served one at a time keep (all routes) *)
Section Kept.

Lemma approvals_of_app k aps aps' :
  approvals_of k (aps ++ aps') = approvals_of k aps ++ approvals_of k aps'.
Proof. unfold approvals_of. apply List.filter_app. Qed.

Lemma approvals_of_none k aps :
  (∀ ap, ap ∈ aps → ap_alertId ap ≠ k) → approvals_of k aps = [].
Proof.
  intros H. unfold approvals_of. apply filter_miss.
  intros ap Hap. apply bool_decide_eq_false. by apply H.
Qed.

Lemma db_change_decided_once d now d' :
  db_change d now d' → alerts_sound d → references_sound d →
  decided_once d → decided_once d'.
Proof.
  intros Hc Ha [_ Hr] Hd.
  destruct Hc as [ | t Hid | t a Hid Haid Hatx Hasen Hast Hares
                 | alert decision ap Hal Hst Hdec Hapid Hapal Hapdec
                 | l st Hl | l Hnone Hlid | us ]; try done.
  - intros k a' Hk. simpl in *. destruct (decide (k = a_id a)) as [->|Hne].
    + rewrite lookup_insert_eq in Hk. injection Hk as <-. split; [|done].
      intros _. apply approvals_of_none. intros ap Hap Heq.
      destruct (Hr ap Hap) as [a0 Ha0]. destruct (Ha _ _ Ha0) as (_ & Hlt & _). lia.
    + rewrite lookup_insert_ne in Hk by done. by apply Hd.
  - intros k a' Hk. simpl in *. rewrite approvals_of_app.
    destruct (decide (k = a_id alert)) as [->|Hne].
    + rewrite lookup_insert_eq in Hk. injection Hk as <-. simpl.
      destruct (Hd _ _ Hal) as [Hnone _]. rewrite (Hnone Hst). split.
      * intros ->. by destruct Hdec.
      * intros _. exists ap. split; [|done].
        unfold approvals_of. simpl. by rewrite bool_decide_eq_true_2.
    + rewrite lookup_insert_ne in Hk by done.
      rewrite (approvals_of_none k [ap]), app_nil_r; [by apply Hd|].
      intros ap' Hap'. apply list_elem_of_singleton in Hap' as ->. congruence.
Qed.

Lemma history_kept_refl d : history_kept d d.
Proof.
  split; [done|]. split; [by eauto|]. split; [exists []; by rewrite app_nil_r|].
  by eauto.
Qed.

Lemma history_kept_trans d1 d2 d3 :
  history_kept d1 d2 → history_kept d2 d3 → history_kept d1 d3.
Proof.
  intros (T1 & A1 & [m1 P1] & L1) (T2 & A2 & [m2 P2] & L2).
  split; [by auto|]. split; [|split].
  - intros k a Hk. destruct (A1 k a Hk) as (a' & Hk' & Hc' & Hr').
    destruct (A2 k a' Hk') as (a'' & Hk'' & Hc'' & Hr'').
    exists a''. split; [done|]. split; [congruence|].
    intros Hst. rewrite <- (Hr' Hst). apply Hr''. by rewrite (Hr' Hst).
  - exists (m1 ++ m2). by rewrite P2, P1, app_assoc.
  - intros l Hl. destruct (L1 l Hl) as (l' & Hl' & ? & ? & ?).
    destruct (L2 l' Hl') as (l'' & Hl'' & ? & ? & ?).
    exists l''. split; [done|]. split; [congruence|]. split; congruence.
Qed.

Lemma db_change_history d now d' :
  db_change d now d' → alerts_sound d → transactions_sound d → history_kept d d'.
Proof.
  intros Hc Ha Ht.
  assert (Htx : ∀ t k t', t_id t = nextId d → transactions d !! k = Some t' →
            <[t_id t := t]> (transactions d) !! k = Some t').
  { intros t k t' Hid Hk. rewrite lookup_insert_ne; [done|].
    destruct (Ht _ _ Hk). lia. }
  assert (Hlinks : ∀ l, l ∈ trustedLinks d →
            ∃ l', l' ∈ trustedLinks d ∧ l_id l' = l_id l
                  ∧ l_seniorId l' = l_seniorId l ∧ l_familyId l' = l_familyId l)
    by eauto.
  assert (Halerts : ∀ k a, alerts d !! k = Some a →
            ∃ a', alerts d !! k = Some a' ∧ content a' = content a
                  ∧ (a_status a ≠ PENDING → a' = a)) by eauto.
  assert (Haps : ∃ more, approvals d = approvals d ++ more)
    by (exists []; by rewrite app_nil_r).
  destruct Hc as [ | t Hid | t a Hid Haid Hatx Hasen Hast Hares
                 | alert decision ap Hal Hst Hdec Hapid Hapal Hapdec
                 | l st Hl | l Hnone Hlid | us ].
  - apply history_kept_refl.
  - split; [|done]. intros k t' Hk. by apply Htx.
  - split; [|split; [|done]].
    + intros k t' Hk. by apply Htx.
    + intros k a' Hk. exists a'. split; [|done]. simpl.
      rewrite lookup_insert_ne; [done|]. destruct (Ha _ _ Hk) as (_ & Hlt & _). lia.
  - split; [done|]. split; [|split; [|done]].
    + intros k a' Hk. simpl. destruct (decide (k = a_id alert)) as [->|Hne].
      * rewrite lookup_insert_eq. rewrite Hal in Hk. injection Hk as <-.
        eexists. split; [done|]. split; [done|]. by intros [].
      * rewrite lookup_insert_ne by done. eauto.
    + by exists [ap].
  - split; [done|]. split; [done|]. split; [done|].
    intros l' Hl'. simpl.
    exists (if bool_decide (l_id l' = l_id l) then set_link_status st l' else l').
    split.
    + unfold update_link. apply list_elem_of_fmap. by exists l'.
    + by destruct (bool_decide _).
  - split; [done|]. split; [done|]. split; [done|].
    intros l' Hl'. exists l'. split; [|done]. simpl. apply elem_of_app. by left.
  - done.
Qed.

Lemma apply_all_history ops w :
  db_sound (db w) → history_kept (db w) (db (apply_all w ops)).
Proof.
  revert w. induction ops as [|op ops IH]; intros w Hs; [apply history_kept_refl|].
  simpl. apply (history_kept_trans _ (db (apply w op))).
  - destruct Hs as (Ha & Ht & _).
    eapply db_change_history; [by apply apply_change|done|done].
  - apply IH. by apply apply_db_sound.
Qed.

Lemma apply_all_decided_once ops w :
  db_sound (db w) → decided_once (db w) → decided_once (db (apply_all w ops)).
Proof.
  revert w. induction ops as [|op ops IH]; intros w Hs Hd; [done|].
  simpl. apply IH; [by apply apply_db_sound|].
  destruct Hs as (Ha & Ht & Hr & _).
  eapply db_change_decided_once; [by apply apply_change|done|done|done].
Qed.

Lemma household_decided_once : decided_once (db household).
Proof. intros k a Hk. unfold household in Hk. simpl in Hk. by rewrite lookup_empty in Hk. Qed.

End Kept.

(** X7: the tables stay sound. With requests served one at a time, whatever
    they are and however they are answered: every transaction and alert is
    stored under its own id, below the id counter; an alert is unresolved
    exactly while it is PENDING; every alert is about a stored transaction
    of its own senior; every approval is about a stored alert; no two
    trusted links share an id or join the same senior to the same family
    member. *)
Theorem tables_stay_sound (w : World) (ops : list Op) :
  db_sound (db w) → db_sound (db (apply_all w ops)).
Proof. apply apply_all_db_sound. Qed.

Lemma tables_stay_sound_witness :
  db_sound (db (apply_all household
                  [Invite (Verified 1) (Some "sarah@demo.com");
                   Submit (Verified 1) coinflip (scored_as 0.97 "CRITICAL") no_gemini;
                   Decide sarah_denies; Revoke (Verified 1) 2])).
Proof.
  apply (tables_stay_sound household). apply household_sound.
Defined.

(** X8: one decision per alert. With requests served one at a time, an
    alert that is PENDING has no approval, and an alert that is resolved has
    exactly one approval, which carries the status the alert has: no request
    adds a second approval, and none changes a status without recording
    one. *)
Theorem served_in_turn_one_decision_per_alert (w : World) (ops : list Op)
    (k : Id) (a : Alert) :
  db_sound (db w) → decided_once (db w) →
  alerts (db (apply_all w ops)) !! k = Some a →
  (a_status a = PENDING → approvals_of k (approvals (db (apply_all w ops))) = [])
  ∧ (a_status a ≠ PENDING →
       ∃ ap, approvals_of k (approvals (db (apply_all w ops))) = [ap]
             ∧ ap_decision ap = a_status a).
Proof. intros Hs Hd Hk. by apply (apply_all_decided_once ops w Hs Hd). Qed.

Lemma served_in_turn_one_decision_per_alert_witness :
  (a_status (resolve APPROVED 1 coinflip_alert) = PENDING →
   approvals_of 5
     (approvals (db (apply_all flagged [Decide margaret_approves; Decide sarah_denies]))) = [])
  ∧ (a_status (resolve APPROVED 1 coinflip_alert) ≠ PENDING →
     ∃ ap, approvals_of 5
             (approvals (db (apply_all flagged [Decide margaret_approves; Decide sarah_denies])))
           = [ap]
           ∧ ap_decision ap
             = a_status (resolve APPROVED 1 coinflip_alert)).
Proof.
  apply (served_in_turn_one_decision_per_alert flagged
           [Decide margaret_approves; Decide sarah_denies] 5).
  - apply (apply_all_db_sound
             [Invite (Verified 1) (Some "sarah@demo.com");
              Submit (Verified 1) coinflip (scored_as 0.97 "CRITICAL") no_gemini]
             household household_sound).
  - apply (apply_all_decided_once
             [Invite (Verified 1) (Some "sarah@demo.com");
              Submit (Verified 1) coinflip (scored_as 0.97 "CRITICAL") no_gemini]
             household household_sound household_decided_once).
  - vm_compute. reflexivity.
Defined.

(** X9: nothing stored is lost. With requests served one at a time, from a
    sound state: every stored transaction stays as it is; every alert stays,
    with the senior, transaction, explanation and creation time it was
    created with, and stays as it is altogether once it is resolved; the
    approvals are only added to; every trusted link stays, with its id,
    senior and family member. No request deletes or rewrites a row of the
    history. *)
Theorem served_in_turn_history_is_kept (w : World) (ops : list Op) :
  db_sound (db w) →
  let d := db w in
  let d' := db (apply_all w ops) in
  (∀ k t, transactions d !! k = Some t → transactions d' !! k = Some t)
  ∧ (∀ k a, alerts d !! k = Some a →
       ∃ a', alerts d' !! k = Some a' ∧ content a' = content a
             ∧ (a_status a ≠ PENDING → a' = a))
  ∧ (∃ more, approvals d' = approvals d ++ more)
  ∧ (∀ l, l ∈ trustedLinks d →
       ∃ l', l' ∈ trustedLinks d' ∧ l_id l' = l_id l
             ∧ l_seniorId l' = l_seniorId l ∧ l_familyId l' = l_familyId l).
Proof. intros Hs. by apply apply_all_history. Qed.

Lemma served_in_turn_history_is_kept_witness :
  history_kept (db flagged)
    (db (apply_all flagged [Decide sarah_denies; Revoke (Verified 1) 2])).
Proof.
  apply (served_in_turn_history_is_kept flagged).
  apply (apply_all_db_sound
           [Invite (Verified 1) (Some "sarah@demo.com");
            Submit (Verified 1) coinflip (scored_as 0.97 "CRITICAL") no_gemini]
           household household_sound).
Defined.

(** ** Who may decide and who may read (routes/alerts.js, middleware/auth.js) *)
Section Access.

Import Alerts.

Lemma commit_found q w user decision alert :
  alerts_sound (db w) → alerts (db w) !! q_alertId q = Some alert →
  ∃ x, response_of (commit q w user decision alert).2 = Some x ∧ r_status x = 200.
Proof.
  intros Hs Hal. destruct (Hs _ _ Hal) as (Hid & _).
  unfold commit. rewrite Hid, Hal. simpl. eauto.
Qed.

Lemma may_access_senior d user s :
  ru_role user = SENIOR → may_access d user s ↔ s = ru_id user.
Proof. intros H. unfold may_access. by rewrite H. Qed.

Lemma may_access_family d user s :
  ru_role user = FAMILY →
  may_access d user s ↔ is_Some (find_active_link s (ru_id user) (trustedLinks d)).
Proof. intros H. unfold may_access. by rewrite H. Qed.

(** The answer of a decision served alone, case by case. *)
Lemma post_decide_cases w q :
  alerts_sound (db w) →
  ∃ x, (post_decide w q).2 = Some x
    ∧ ((r_status x = 200
        ∧ ∃ user decision alert,
            authenticate (db w) (q_token q) = inr user
            ∧ valid_decision (q_decision q) = Some decision
            ∧ alerts (db w) !! q_alertId q = Some alert
            ∧ a_status alert = PENDING
            ∧ may_access (db w) user (a_seniorId alert))
       ∨ (r_status x ≠ 200 ∧ (post_decide w q).1 = w
          ∧ ¬ ∃ user decision alert,
              authenticate (db w) (q_token q) = inr user
              ∧ valid_decision (q_decision q) = Some decision
              ∧ alerts (db w) !! q_alertId q = Some alert
              ∧ a_status alert = PENDING
              ∧ may_access (db w) user (a_seniorId alert))).
Proof.
  intros Hs. rewrite post_decide_eq.
  destruct (authenticate _ _) as [r|user] eqn:Ha; simpl.
  { exists r. split; [done|]. right. split; [|split; [done|]].
    - unfold authenticate in Ha. repeat case_match; simplify_eq; simpl; lia.
    - by intros (? & ? & ? & [=] & _). }
  destruct (valid_decision _) as [decision|] eqn:Hd; simpl.
  2: { eexists. split; [done|]. right. split; [simpl; lia|]. split; [done|].
       by intros (? & ? & ? & _ & [=] & _). }
  destruct (after_find user decision _) as [| | u d a | u d a | | |r] eqn:Hpc; simpl.
  - unfold after_find in Hpc. repeat case_match; simplify_eq.
  - unfold after_find in Hpc. repeat case_match; simplify_eq.
  - apply after_find_family in Hpc as (-> & -> & Hf & Hst & Hrole).
    destruct (find_active_link _ _ _) as [l|] eqn:Hl; simpl.
    + destruct (commit_found q w user decision a Hs Hf) as (x & Hx & H200).
      exists x. split; [done|]. left. split; [done|].
      exists user, decision, a. repeat split; try done.
      apply may_access_family; [done|]. rewrite Hl. eauto.
    + eexists. split; [done|]. right. split; [simpl; lia|]. split; [done|].
      intros (u' & d' & a' & [= <-] & _ & Ha' & _ & Hacc).
      rewrite Hf in Ha'. injection Ha' as <-.
      apply may_access_family in Hacc; [|done]. rewrite Hl in Hacc. by destruct Hacc.
  - apply after_find_senior in Hpc as (-> & -> & Hf & Hst & Hrole & Hown).
    destruct (commit_found q w user decision a Hs Hf) as (x & Hx & H200).
    exists x. split; [done|]. left. split; [done|].
    exists user, decision, a. repeat split; try done.
    by apply may_access_senior.
  - unfold after_find in Hpc. repeat case_match; simplify_eq.
  - unfold after_find in Hpc. repeat case_match; simplify_eq.
  - exists r. split; [done|]. right.
    split; [apply after_find_refused in Hpc; lia|]. split; [done|].
    intros (u' & d' & a' & [= <-] & _ & Ha' & Hst & Hacc).
    rewrite Ha' in Hpc. unfold after_find in Hpc.
    rewrite bool_decide_eq_true_2 in Hpc by done. simpl in Hpc.
    destruct (ru_role user) eqn:Hrole; [|done].
    apply may_access_senior in Hacc; [|done].
    by rewrite bool_decide_eq_true_2 in Hpc.
Qed.

Lemma get_one_cases d token aid :
  match AlertsRead.get_one d token aid with
  | inr v => ∃ user alert,
      authenticate d token = inr user ∧ alerts d !! aid = Some alert
      ∧ may_access d user (a_seniorId alert) ∧ v = AlertsRead.include d alert
  | inl r => ¬ ∃ user alert,
      authenticate d token = inr user ∧ alerts d !! aid = Some alert
      ∧ may_access d user (a_seniorId alert)
  end.
Proof.
  unfold AlertsRead.get_one.
  destruct (authenticate d token) as [r|user] eqn:Ha; [by intros (? & ? & [=] & _)|].
  destruct (alerts d !! aid) as [alert|] eqn:Hal; [|by intros (? & ? & _ & [=] & _)].
  destruct (ru_role user) eqn:Hrole.
  - destruct (bool_decide (a_seniorId alert = ru_id user)) eqn:Hown; simpl.
    + apply bool_decide_eq_true in Hown. exists user, alert.
      repeat split; try done. by apply may_access_senior.
    + apply bool_decide_eq_false in Hown.
      intros (u' & a' & [= <-] & [= <-] & Hacc). by apply may_access_senior in Hacc.
  - destruct (find_active_link _ _ _) as [l|] eqn:Hl.
    + exists user, alert. repeat split; try done.
      apply may_access_family; [done|]. rewrite Hl. eauto.
    + intros (u' & a' & [= <-] & [= <-] & Hacc).
      apply may_access_family in Hacc; [|done]. rewrite Hl in Hacc. by destruct Hacc.
Qed.

End Access.

(** X10: who may decide. Served alone on a sound alert table,
    [POST /api/alerts/:id/decide] is answered 200 exactly when the caller is
    authenticated, the decision is APPROVED or DENIED, the alert exists and
    is PENDING, and the caller is the alert's senior or a family member
    with an ACTIVE link from that senior; a request that is not answered 200
    leaves the database, the sockets and the clock as they were. *)
Theorem decide_succeeds_iff (w : World) (q : Alerts.DecideReq) :
  alerts_sound (db w) →
  ((∃ x, (Alerts.post_decide w q).2 = Some x ∧ r_status x = 200)
   ↔ ∃ user decision alert,
       authenticate (db w) (Alerts.q_token q) = inr user
       ∧ Alerts.valid_decision (Alerts.q_decision q) = Some decision
       ∧ alerts (db w) !! Alerts.q_alertId q = Some alert
       ∧ a_status alert = PENDING
       ∧ may_access (db w) user (a_seniorId alert))
  ∧ ((∀ x, (Alerts.post_decide w q).2 = Some x → r_status x ≠ 200) →
     (Alerts.post_decide w q).1 = w).
Proof.
  intros Hs. destruct (post_decide_cases w q Hs) as (x & Hx & [[H200 Hc]|(Hn & Hw & Hc)]).
  - split; [split; [done|eauto]|]. intros H. by destruct (H x Hx).
  - split; [|done]. split; [|done].
    intros (y & Hy & H200). rewrite Hx in Hy. injection Hy as <-. done.
Qed.

Lemma decide_succeeds_iff_witness :
  (∃ x, (Alerts.post_decide flagged sarah_denies).2 = Some x ∧ r_status x = 200)
  ↔ ∃ user decision alert,
      authenticate (db flagged) (Alerts.q_token sarah_denies) = inr user
      ∧ Alerts.valid_decision (Alerts.q_decision sarah_denies) = Some decision
      ∧ alerts (db flagged) !! Alerts.q_alertId sarah_denies = Some alert
      ∧ a_status alert = PENDING
      ∧ may_access (db flagged) user (a_seniorId alert).
Proof.
  refine (proj1 (decide_succeeds_iff flagged sarah_denies _)).
  apply (apply_all_alerts_sound
           [Invite (Verified 1) (Some "sarah@demo.com");
            Submit (Verified 1) coinflip (scored_as 0.97 "CRITICAL") no_gemini]
           household).
  exact (proj1 household_sound).
Defined.

(** X11: who can open an alert can decide it. On a sound alert table, for a
    request with a valid decision on a PENDING alert, the decision is
    accepted exactly when [GET /api/alerts/:id] opens the same alert for the
    same caller: the two routes apply one access rule. *)
Theorem decide_and_get_agree (w : World) (q : Alerts.DecideReq)
    (decision : AlertStatus) (alert : Alert) :
  alerts_sound (db w) →
  Alerts.valid_decision (Alerts.q_decision q) = Some decision →
  alerts (db w) !! Alerts.q_alertId q = Some alert →
  a_status alert = PENDING →
  (∃ x, (Alerts.post_decide w q).2 = Some x ∧ r_status x = 200)
  ↔ (∃ v, AlertsRead.get_one (db w) (Alerts.q_token q) (Alerts.q_alertId q) = inr v).
Proof.
  intros Hs Hd Hal Hst.
  pose proof (get_one_cases (db w) (Alerts.q_token q) (Alerts.q_alertId q)) as Hg.
  destruct (post_decide_cases w q Hs) as (x & Hx & [[H200 Hc]|(Hn & Hw & Hc)]).
  - split; [|by eauto]. intros _.
    destruct (AlertsRead.get_one _ _ _) as [r|v]; [|by eauto].
    destruct Hc as (user & d' & a' & Ha & _ & Ha' & _ & Hacc). destruct Hg. eauto.
  - split.
    + intros (y & Hy & H200). rewrite Hx in Hy. by injection Hy as <-.
    + intros [v Hv]. rewrite Hv in Hg. destruct Hg as (user & a' & Ha & Ha' & Hacc & _).
      destruct Hc. exists user, decision, a'. rewrite Hal in Ha'. injection Ha' as <-. done.
Qed.

Lemma decide_and_get_agree_witness :
  (∃ x, (Alerts.post_decide flagged sarah_denies).2 = Some x ∧ r_status x = 200)
  ↔ (∃ v, AlertsRead.get_one (db flagged) (Verified 2) 5 = inr v).
Proof.
  apply (decide_and_get_agree flagged sarah_denies DENIED coinflip_alert).
  - apply (apply_all_alerts_sound
             [Invite (Verified 1) (Some "sarah@demo.com");
              Submit (Verified 1) coinflip (scored_as 0.97 "CRITICAL") no_gemini]
             household).
    exact (proj1 household_sound).
  - reflexivity.
  - vm_compute. reflexivity.
  - reflexivity.
Defined.

(** X12: the status of a resolved alert is told to callers who may not read
    it. The decide handler checks the status before it checks the access:
    an authenticated caller who is neither the alert's senior nor an
    actively linked family member, and whom [GET /api/alerts/:id] refuses
    with 403, is answered 409 with the alert's status in the message when
    the alert is resolved. *)
Theorem decide_tells_the_status_before_checking_access (w : World)
    (q : Alerts.DecideReq) (user : ReqUser) (decision : AlertStatus) (alert : Alert) :
  authenticate (db w) (Alerts.q_token q) = inr user →
  Alerts.valid_decision (Alerts.q_decision q) = Some decision →
  alerts (db w) !! Alerts.q_alertId q = Some alert →
  a_status alert ≠ PENDING →
  ¬ may_access (db w) user (a_seniorId alert) →
  (∃ r, AlertsRead.get_one (db w) (Alerts.q_token q) (Alerts.q_alertId q) = inl r
        ∧ r_status r = 403)
  ∧ (Alerts.post_decide w q).2
    = Some (respond 409
              (Error ("Alert already " +:+ Js.toLowerCase (status_name (a_status alert))))).
Proof.
  intros Ha Hd Hal Hst Hacc. split.
  - unfold AlertsRead.get_one. rewrite Ha, Hal. unfold may_access in Hacc.
    destruct (ru_role user).
    + rewrite bool_decide_eq_false_2 by done. simpl. eauto.
    + destruct (find_active_link _ _ _); [by destruct Hacc; eauto|]. eauto.
  - rewrite post_decide_eq, Ha, Hd, Hal. simpl.
    by rewrite bool_decide_eq_false_2.
Qed.

Lemma decide_tells_the_status_before_checking_access_witness :
  (∃ r, AlertsRead.get_one
          (db (apply_all flagged [Decide margaret_approves; Revoke (Verified 1) 2]))
          (Verified 2) 5 = inl r
        ∧ r_status r = 403)
  ∧ (Alerts.post_decide
       (apply_all flagged [Decide margaret_approves; Revoke (Verified 1) 2])
       sarah_denies).2
    = Some (respond 409 (Error "Alert already approved")).
Proof.
  apply (decide_tells_the_status_before_checking_access
           (apply_all flagged [Decide margaret_approves; Revoke (Verified 1) 2])
           sarah_denies
           {| ru_id := 2; ru_email := "sarah@demo.com"; ru_name := "Sarah Johnson";
              ru_role := FAMILY; ru_protectionMode := false |}
           DENIED (resolve APPROVED 1 coinflip_alert)).
  - vm_compute. reflexivity.
  - reflexivity.
  - vm_compute. reflexivity.
  - discriminate.
  - vm_compute. intros [x Hx]. discriminate.
Defined.

(** ** The lists (routes/alerts.js, routes/transactions.js) *)
Section Lists.

Lemma elem_of_values `{Countable K} {A} (m : gmap K A) (x : A) :
  x ∈ (map_to_list m).*2 ↔ ∃ k, m !! k = Some x.
Proof.
  rewrite list_elem_of_fmap. split.
  - intros ([k y] & -> & Hin). apply elem_of_map_to_list in Hin. eauto.
  - intros [k Hk]. exists (k, x). split; [done|]. by apply elem_of_map_to_list.
Qed.

Global Instance newer_or_same_trans : Transitive AlertsRead.newer_or_same.
Proof. unfold AlertsRead.newer_or_same. intros x y z. lia. Qed.

Global Instance newer_or_same_total : Total AlertsRead.newer_or_same.
Proof. unfold AlertsRead.newer_or_same. intros x y. lia. Qed.

Global Instance later_or_same_trans : Transitive TransactionsRead.later_or_same.
Proof. unfold TransactionsRead.later_or_same. intros x y z. lia. Qed.

Global Instance later_or_same_total : Total TransactionsRead.later_or_same.
Proof. unfold TransactionsRead.later_or_same. intros x y. lia. Qed.

Lemma elem_of_found_alerts d wh a :
  a ∈ AlertsRead.found d wh
  ↔ (∃ k, alerts d !! k = Some a) ∧ AlertsRead.matches wh a = true.
Proof.
  unfold AlertsRead.found. rewrite merge_sort_Permutation.
  rewrite list_elem_of_In, filter_In, <- list_elem_of_In. by rewrite elem_of_values.
Qed.

Lemma elem_of_found_transactions d uid t :
  t ∈ TransactionsRead.found d uid
  ↔ (∃ k, transactions d !! k = Some t) ∧ t_userId t = uid.
Proof.
  unfold TransactionsRead.found. rewrite merge_sort_Permutation.
  rewrite list_elem_of_In, filter_In, <- list_elem_of_In, elem_of_values.
  by rewrite bool_decide_eq_true.
Qed.

Lemma StronglySorted_page {A} (R : relation A) n o (l : list A) :
  StronglySorted R l → StronglySorted R (take n (drop o l)).
Proof.
  intros H. rewrite <- (take_drop o l) in H. apply StronglySorted_app_1_r in H.
  rewrite <- (take_drop n (drop o l)) in H. by apply StronglySorted_app_1_l in H.
Qed.

Lemma elem_of_page {A} (x : A) n o (l : list A) : x ∈ take n (drop o l) → x ∈ l.
Proof.
  intros H. apply (elem_of_sublist (take n (drop o l))); [done|].
  etrans; [apply sublist_take|apply sublist_drop].
Qed.

Lemma length_page {A} n o (l : list A) :
  length (take n (drop o l)) = n `min` (length l - o).
Proof. by rewrite length_take, length_drop. Qed.

Lemma status_of_name_Some name st :
  AlertsRead.status_of_name name = Some st ↔ status_name st = name.
Proof.
  unfold AlertsRead.status_of_name. split.
  - intros H. repeat case_match; simplify_eq;
      match goal with H : String.eqb _ _ = true |- _ => by apply String.eqb_eq in H end.
  - intros <-. by destruct st.
Qed.

Lemma elem_of_active_links_of_family l familyId ls :
  l ∈ AlertsRead.active_links_of_family familyId ls
  ↔ l ∈ ls ∧ l_familyId l = familyId ∧ l_status l = ACTIVE.
Proof.
  unfold AlertsRead.active_links_of_family.
  rewrite list_elem_of_In, filter_In, <- list_elem_of_In, andb_true_iff.
  by rewrite !bool_decide_eq_true.
Qed.

Lemma find_active_link_Some s f ls :
  is_Some (find_active_link s f ls)
  ↔ ∃ l, l ∈ ls ∧ l_seniorId l = s ∧ l_familyId l = f ∧ l_status l = ACTIVE.
Proof.
  unfold find_active_link. split.
  - intros [l Hl]. apply find_some in Hl as [Hin Hl].
    apply andb_true_iff in Hl as [Hl H3]. apply andb_true_iff in Hl as [H1 H2].
    apply bool_decide_eq_true in H1, H2, H3. exists l.
    split; [by apply list_elem_of_In|done].
  - intros (l & Hin & H1 & H2 & H3).
    destruct (List.find _ ls) as [l'|] eqn:Hf; [by eauto|].
    apply list_elem_of_In in Hin. pose proof (find_none _ _ Hf l Hin) as Hn.
    simpl in Hn. by rewrite !bool_decide_eq_true_2 in Hn.
Qed.

(** The seniors whose alerts a caller's list is taken from. *)
Lemma scope_inr d user seniorId ids :
  AlertsRead.scope d user seniorId = inr ids →
  ∃ l, ids = Some l
    ∧ ∀ s, s ∈ l ↔
        may_access d user s
        ∧ (ru_role user = FAMILY → ∀ s', seniorId = Some s' → s = s').
Proof.
  unfold AlertsRead.scope. destruct (ru_role user) eqn:Hrole.
  - intros [= <-]. eexists. split; [done|]. intros s.
    rewrite list_elem_of_singleton, may_access_senior by done.
    split; [intros ->; split; [done|]; intros Hf; congruence|by intros [-> _]].
  - destruct seniorId as [s0|].
    + destruct (find_active_link _ _ _) as [l0|] eqn:Hl; [|done].
      intros [= <-]. eexists. split; [done|]. intros s.
      rewrite list_elem_of_singleton, may_access_family by done. split.
      * intros ->. rewrite Hl. split; [by eauto|]. by intros _ s' [= <-].
      * intros [_ Hs]. by apply Hs.
    + intros [= <-]. eexists. split; [done|]. intros s.
      rewrite may_access_family, find_active_link_Some, list_elem_of_fmap by done.
      split.
      * intros (l & -> & Hl). apply elem_of_active_links_of_family in Hl as (? & ? & ?).
        split; [by eauto 10|]. by intros _ s' [=].
      * intros [(l & Hin & H1 & H2 & H3) _]. exists l. split; [done|].
        by apply elem_of_active_links_of_family.
Qed.

(** What [GET /api/alerts] answers with when it does not refuse. *)
Lemma get_list_inr d token q page total :
  AlertsRead.get_list d token q = inr (page, total) →
  ∃ user ids st,
    authenticate d token = inr user
    ∧ AlertsRead.scope d user (AlertsRead.lq_seniorId q) = inr (Some ids)
    ∧ (∀ name, AlertsRead.lq_status q = Some name → ∃ s, st = Some s ∧ status_name s = name)
    ∧ (AlertsRead.lq_status q = None → st = None)
    ∧ page = AlertsRead.include d
               <$> take (default 20 (AlertsRead.lq_limit q))
                     (drop (default 0 (AlertsRead.lq_offset q))
                        (AlertsRead.found d {| AlertsRead.wh_seniors := Some ids;
                                               AlertsRead.wh_status := st |}))
    ∧ total = length (AlertsRead.found d {| AlertsRead.wh_seniors := Some ids;
                                            AlertsRead.wh_status := st |}).
Proof.
  unfold AlertsRead.get_list.
  destruct (authenticate d token) as [r|user] eqn:Ha; [done|].
  destruct (AlertsRead.scope d user _) as [r|ids] eqn:Hsc; [done|].
  destruct (scope_inr _ _ _ _ Hsc) as (l & -> & _).
  destruct (AlertsRead.lq_status q) as [name|] eqn:Hq.
  - destruct (AlertsRead.status_of_name name) as [s|] eqn:Hn; [|done].
    intros [= <- <-]. exists user, l, (Some s). repeat split; try done.
    intros name' [= <-]. exists s. split; [done|]. by apply status_of_name_Some.
  - intros [= <- <-]. exists user, l, None. repeat split; done.
Qed.

Lemma get_one_inr d token aid v :
  AlertsRead.get_one d token aid = inr v
  ↔ ∃ user alert,
      authenticate d token = inr user ∧ alerts d !! aid = Some alert
      ∧ may_access d user (a_seniorId alert) ∧ v = AlertsRead.include d alert.
Proof.
  pose proof (get_one_cases d token aid) as H. split.
  - intros Hv. by rewrite Hv in H.
  - intros (user & alert & Ha & Hal & Hacc & ->).
    destruct (AlertsRead.get_one d token aid) as [r|v] eqn:Hg.
    + destruct H. eauto.
    + destruct H as (u' & a' & Ha' & Hal' & _ & ->). congruence.
Qed.

End Lists.

(** X13: the list shows nothing that the caller may not open. Every alert
    on a page of [GET /api/alerts] is one that [GET /api/alerts/:id] opens
    for the same caller, with the same content; it has the status that was
    asked for, when one was; and for a family member who names a senior it
    is an alert of that senior. When no senior is named and the whole list
    fits on the page, the page shows every alert with the status asked for
    that [GET /api/alerts/:id] opens for the caller. *)
Theorem alerts_list_agrees_with_get (d : Db) (token : Bearer)
    (q : AlertsRead.ListQuery) (page : list AlertsRead.AlertView) (total : nat) :
  AlertsRead.get_list d token q = inr (page, total) →
  (∀ v, v ∈ page →
     (∃ aid, AlertsRead.get_one d token aid = inr v)
     ∧ (∀ name, AlertsRead.lq_status q = Some name →
          status_name (a_status (AlertsRead.v_alert v)) = name)
     ∧ (∀ user s, authenticate d token = inr user → ru_role user = FAMILY →
          AlertsRead.lq_seniorId q = Some s → a_seniorId (AlertsRead.v_alert v) = s))
  ∧ (AlertsRead.lq_seniorId q = None →
     default 0 (AlertsRead.lq_offset q) = 0 →
     total ≤ default 20 (AlertsRead.lq_limit q) →
     ∀ aid v, AlertsRead.get_one d token aid = inr v →
       (∀ name, AlertsRead.lq_status q = Some name →
          status_name (a_status (AlertsRead.v_alert v)) = name) →
       v ∈ page).
Proof.
  intros Hl.
  destruct (get_list_inr _ _ _ _ _ Hl) as (user & ids & st & Ha & Hsc & Hst & Hnone & -> & ->).
  destruct (scope_inr _ _ _ _ Hsc) as (l & [= <-] & Hids).
  split.
  - intros v Hv. apply list_elem_of_fmap in Hv as (a & -> & Hin).
    apply elem_of_page, elem_of_found_alerts in Hin as [[k Hk] Hm].
    unfold AlertsRead.matches in Hm. simpl in Hm.
    apply andb_true_iff in Hm as [Hm1 Hm2]. apply bool_decide_eq_true in Hm1.
    apply Hids in Hm1 as [Hacc Hfam]. split; [|split].
    + exists k. apply get_one_inr. eauto 10.
    + intros name Hname. destruct (Hst name Hname) as (s & -> & <-). simpl.
      apply bool_decide_eq_true in Hm2. by rewrite Hm2.
    + intros user' s Ha' Hrole Hq. simpl. rewrite Ha in Ha'. injection Ha' as <-.
      by apply Hfam.
  - intros Hq Hoff Hfit aid v Hv Hstatus.
    apply get_one_inr in Hv as (user' & a & Ha' & Hal & Hacc & ->).
    rewrite Ha in Ha'. injection Ha' as <-.
    rewrite Hoff, take_ge by (by rewrite length_drop; lia).
    apply list_elem_of_fmap. exists a. split; [done|].
    simpl. apply elem_of_found_alerts. split; [by eauto|].
    unfold AlertsRead.matches. simpl. apply andb_true_iff. split.
    + apply bool_decide_eq_true, Hids. split; [done|]. intros _ s'. by rewrite Hq.
    + destruct (AlertsRead.lq_status q) as [name|] eqn:Hname.
      * destruct (Hst name eq_refl) as (s & -> & Hs).
        apply bool_decide_eq_true. specialize (Hstatus name eq_refl). simpl in Hstatus.
        rewrite <- Hs in Hstatus. by destruct (a_status a), s.
      * by rewrite (Hnone eq_refl).
Qed.

Lemma alerts_list_agrees_with_get_witness :
  ∃ aid, AlertsRead.get_one (db flagged) (Verified 2) aid
         = inr (AlertsRead.include (db flagged) coinflip_alert).
Proof.
  edestruct (alerts_list_agrees_with_get (db flagged) (Verified 2) plain_query) as [H _].
  - vm_compute. reflexivity.
  - apply (H (AlertsRead.include (db flagged) coinflip_alert)).
    vm_compute. by left.
Defined.

(** X14: the pages of [GET /api/alerts]. A page holds as many alerts as were
    asked for (20 when no limit is given), or as many as are left after the
    offset when those are fewer; it is ordered from the newest alert to the
    oldest; and the total that comes with it counts all alerts the query
    matches: asking for another page of the same query gives the same
    total. *)
Theorem alerts_list_pages (d : Db) (token : Bearer) (q : AlertsRead.ListQuery)
    (page : list AlertsRead.AlertView) (total : nat) :
  AlertsRead.get_list d token q = inr (page, total) →
  length page
    = default 20 (AlertsRead.lq_limit q) `min` (total - default 0 (AlertsRead.lq_offset q))
  ∧ StronglySorted no_older page
  ∧ ∀ limit offset, ∃ page',
      AlertsRead.get_list d token (with_page q limit offset) = inr (page', total).
Proof.
  intros Hl.
  destruct (get_list_inr _ _ _ _ _ Hl) as (user & ids & st & Ha & Hsc & Hst & Hnone & -> & ->).
  split; [|split].
  - by rewrite length_fmap, length_page.
  - apply (StronglySorted_fmap _ AlertsRead.newer_or_same); [done|].
    apply StronglySorted_page. unfold AlertsRead.found.
    apply StronglySorted_merge_sort; apply _.
  - intros limit offset. unfold AlertsRead.get_list. simpl. rewrite Ha, Hsc.
    destruct (AlertsRead.lq_status q) as [name|] eqn:Hname.
    + destruct (Hst name eq_refl) as (s & -> & Hs).
      apply status_of_name_Some in Hs. rewrite Hs. eauto.
    + rewrite (Hnone eq_refl). eauto.
Qed.

Lemma alerts_list_pages_witness :
  ∃ page', AlertsRead.get_list (db flagged) (Verified 2)
             (with_page plain_query (Some 1) (Some 5)) = inr (page', 1).
Proof.
  edestruct (alerts_list_pages (db flagged) (Verified 2) plain_query) as (_ & _ & H).
  - vm_compute. reflexivity.
  - exact (H (Some 1) (Some 5)).
Defined.

(** X15: whose transactions [GET /api/transactions] lists. When the route
    does not refuse, the transactions on the page all belong to one owner
    and are stored ones: the caller, or, for a family member who names a
    senior, that senior, and then only with an ACTIVE link from that senior.
    A senior who names somebody else is not refused: the parameter is
    ignored and the senior gets their own transactions. The page holds as
    many transactions as were asked for (20 when no limit is given) or as
    are left after the offset, latest first; and when the whole list fits on
    the page every stored transaction of the owner is on it. *)
Theorem transactions_list_scope (d : Db) (token : Bearer) (seniorId : option Id)
    (limit offset : option nat) (page : list TransactionsRead.TxnView) (total : nat) :
  TransactionsRead.get_list d token seniorId limit offset = inr (page, total) →
  ∃ user owner,
    authenticate d token = inr user
    ∧ ((owner = ru_id user ∧ (ru_role user = SENIOR ∨ seniorId = None))
       ∨ (ru_role user = FAMILY ∧ seniorId = Some owner ∧ may_access d user owner))
    ∧ (∀ v, v ∈ page →
         t_userId (TransactionsRead.tv_transaction v) = owner
         ∧ ∃ k, transactions d !! k = Some (TransactionsRead.tv_transaction v))
    ∧ length page = default 20 limit `min` (total - default 0 offset)
    ∧ StronglySorted no_earlier page
    ∧ (default 0 offset = 0 → total ≤ default 20 limit →
       ∀ k t, transactions d !! k = Some t → t_userId t = owner →
         TransactionsRead.include d t ∈ page).
Proof.
  unfold TransactionsRead.get_list.
  destruct (authenticate d token) as [r|user] eqn:Ha; [done|].
  destruct (TransactionsRead.target d user seniorId) as [r|owner] eqn:Ht; [done|].
  intros [= <- <-]. exists user, owner. split; [done|]. split; [|split; [|split; [|split]]].
  - unfold TransactionsRead.target in Ht.
    destruct (ru_role user) eqn:Hrole.
    + injection Ht as <-. left. by eauto.
    + destruct seniorId as [s|].
      * destruct (find_active_link _ _ _) as [l|] eqn:Hl; [|done]. injection Ht as <-.
        right. split; [done|]. split; [done|].
        apply may_access_family; [done|]. rewrite Hl. eauto.
      * injection Ht as <-. left. by eauto.
  - intros v Hv. apply list_elem_of_fmap in Hv as (t & -> & Hin).
    apply elem_of_page, elem_of_found_transactions in Hin as [Hk Hu]. done.
  - by rewrite length_fmap, length_page.
  - apply (StronglySorted_fmap _ TransactionsRead.later_or_same); [done|].
    apply StronglySorted_page. unfold TransactionsRead.found.
    apply StronglySorted_merge_sort; apply _.
  - intros Hoff Hfit k t Hk Hu.
    rewrite Hoff, take_ge by (by rewrite length_drop; lia).
    apply list_elem_of_fmap. exists t. split; [done|].
    simpl. apply elem_of_found_transactions. eauto.
Qed.

Lemma transactions_list_scope_witness :
  ∃ user owner,
    authenticate (db flagged) (Verified 2) = inr user
    ∧ ((owner = ru_id user ∧ (ru_role user = SENIOR ∨ Some 1 = None))
       ∨ (ru_role user = FAMILY ∧ Some 1 = Some owner ∧ may_access (db flagged) user owner)).
Proof.
  edestruct (transactions_list_scope (db flagged) (Verified 2) (Some 1) None None)
    as (user & owner & Ha & Hscope & _).
  - vm_compute. reflexivity.
  - exists user, owner. by split.
Defined.

(** X16: [GET /api/alerts/:id] checks access as the guard
    [requireTrustedAccess] does. For an authenticated caller and a stored
    alert, the route answers with the alert exactly when the guard, given
    the alert's senior, would call [next()], and refuses with the very
    response the guard would send otherwise. *)
Theorem get_one_checks_like_requireTrustedAccess (d : Db) (token : Bearer) (aid : Id)
    (user : ReqUser) (alert : Alert) :
  authenticate d token = inr user →
  alerts d !! aid = Some alert →
  match AlertsRead.get_one d token aid with
  | inl r => Middleware.requireTrustedAccess d user (Some (a_seniorId alert)) = Some r
  | inr v => Middleware.requireTrustedAccess d user (Some (a_seniorId alert)) = None
             ∧ v = AlertsRead.include d alert
  end.
Proof.
  intros Ha Hal. unfold AlertsRead.get_one, Middleware.requireTrustedAccess.
  rewrite Ha, Hal. destruct (ru_role user).
  - destruct (decide (a_seniorId alert = ru_id user)) as [Heq|Hne].
    + rewrite bool_decide_eq_true_2 by done.
      rewrite bool_decide_eq_true_2 by congruence. done.
    + rewrite bool_decide_eq_false_2 by done.
      rewrite bool_decide_eq_false_2 by congruence. done.
  - simpl. by destruct (find_active_link _ _ _).
Qed.

Lemma get_one_checks_like_requireTrustedAccess_witness :
  match AlertsRead.get_one (db (apply flagged (Revoke (Verified 1) 2))) (Verified 2) 5 with
  | inl r =>
      Middleware.requireTrustedAccess (db (apply flagged (Revoke (Verified 1) 2)))
        {| ru_id := 2; ru_email := "sarah@demo.com"; ru_name := "Sarah Johnson";
           ru_role := FAMILY; ru_protectionMode := false |}
        (Some (a_seniorId coinflip_alert)) = Some r
  | inr v =>
      Middleware.requireTrustedAccess (db (apply flagged (Revoke (Verified 1) 2)))
        {| ru_id := 2; ru_email := "sarah@demo.com"; ru_name := "Sarah Johnson";
           ru_role := FAMILY; ru_protectionMode := false |}
        (Some (a_seniorId coinflip_alert)) = None
      ∧ v = AlertsRead.include (db (apply flagged (Revoke (Verified 1) 2))) coinflip_alert
  end.
Proof.
  apply (get_one_checks_like_requireTrustedAccess
           (db (apply flagged (Revoke (Verified 1) 2))) (Verified 2) 5).
  - vm_compute. reflexivity.
  - vm_compute. reflexivity.
Defined.

(** ** Revocation and the routes (routes/trusted.js, routes/alerts.js,
    routes/transactions.js) *)
Section LockedOut.

Lemma post_links w token b ml gem :
  trustedLinks (db (Transactions.post w token b ml gem).1) = trustedLinks (db w).
Proof.
  destruct (post_effect w token b ml gem)
    as [->|(user & t & _ & _ & _ & _ & [->|(a & -> & _)])]; done.
Qed.

Lemma commit_links q w user decision alert :
  trustedLinks (db (commit q w user decision alert).1) = trustedLinks (db w).
Proof. unfold commit. by destruct (alerts (db w) !! a_id alert). Qed.

Lemma post_decide_links w q :
  trustedLinks (db (Alerts.post_decide w q).1) = trustedLinks (db w).
Proof.
  rewrite post_decide_eq. repeat case_match; simpl; try done; apply commit_links.
Qed.

Lemma patch_settings_links w token b :
  trustedLinks (db (Users.patch_settings w token b).1) = trustedLinks (db w).
Proof.
  destruct (patch_settings_effect w token b) as [->|(user & _ & _ & ->)]; done.
Qed.

Lemma find_active_link_None s f ls :
  find_active_link s f ls = None
  ↔ ∀ l, l ∈ ls → l_seniorId l = s → l_familyId l = f → l_status l ≠ ACTIVE.
Proof.
  split.
  - intros Hn l Hl H1 H2 H3.
    assert (Hs : is_Some (find_active_link s f ls))
      by (apply find_active_link_Some; eauto 10).
    rewrite Hn in Hs. by destruct Hs.
  - intros H. destruct (find_active_link s f ls) as [l|] eqn:Hl; [|done].
    assert (Hs : is_Some (find_active_link s f ls)) by (rewrite Hl; eauto).
    apply find_active_link_Some in Hs as (l' & Hin & H1 & H2 & H3).
    by destruct (H l' Hin H1 H2).
Qed.

Lemma update_link_revoked_keeps_none s f lid ls :
  find_active_link s f ls = None →
  find_active_link s f (update_link lid REVOKED ls) = None.
Proof.
  rewrite !find_active_link_None. intros H l' Hl' H1 H2.
  apply elem_of_update_link in Hl' as (l & Hl & _ & Hs & Hf & ->).
  destruct (bool_decide _); [done|]. apply (H l Hl); congruence.
Qed.

(** Revoking the pair's link leaves the pair without an ACTIVE link. *)
Lemma revoked_no_active d s f l :
  links_sound d → find_link s f (trustedLinks d) = Some l →
  find_active_link s f (update_link (l_id l) REVOKED (trustedLinks d)) = None.
Proof.
  intros (_ & _ & Hpair) Hl. apply find_active_link_None. intros l' Hl' H1 H2.
  apply elem_of_update_link in Hl' as (l0 & Hl0 & _ & Hs & Hf & ->).
  destruct (bool_decide (l_id l0 = l_id l)) eqn:Hid; [done|].
  apply bool_decide_eq_false in Hid. destruct Hid.
  destruct (find_link_pair _ _ _ _ Hl) as [Hls Hlf].
  assert (Hin : l ∈ trustedLinks d).
  { unfold find_link in Hl. apply find_some in Hl as [Hl _]. by apply list_elem_of_In. }
  f_equal. apply Hpair; [done|done|congruence|congruence].
Qed.

Lemma apply_no_active w op s f :
  not_invite op →
  find_active_link s f (trustedLinks (db w)) = None →
  find_active_link s f (trustedLinks (db (apply w op))) = None.
Proof.
  intros Hop Hn. destruct op; simpl; try done.
  - by rewrite post_links.
  - by rewrite post_decide_links.
  - destruct (delete_effect w token familyId) as [->|(user & l & _ & _ & _ & ->)];
      [done|]. simpl. by apply update_link_revoked_keeps_none.
  - by rewrite patch_settings_links.
Qed.

Lemma apply_all_no_active ops w s f :
  Forall not_invite ops →
  find_active_link s f (trustedLinks (db w)) = None →
  find_active_link s f (trustedLinks (db (apply_all w ops))) = None.
Proof.
  revert w. induction ops as [|op ops IH]; intros w Hops Hn; [done|].
  apply Forall_cons in Hops as [Hop Hops]. simpl. apply IH; [done|].
  by apply apply_no_active.
Qed.

(** What the routes answer a family member without an ACTIVE link. *)
Lemma no_access_refused w token reviewer s :
  authenticate (db w) token = inr reviewer → ru_role reviewer = FAMILY →
  find_active_link s (ru_id reviewer) (trustedLinks (db w)) = None →
  (∀ aid alert, alerts (db w) !! aid = Some alert → a_seniorId alert = s →
     ∃ r, AlertsRead.get_one (db w) token aid = inl r ∧ r_status r = 403)
  ∧ (∀ q alert, Alerts.q_token q = token →
       alerts (db w) !! Alerts.q_alertId q = Some alert → a_seniorId alert = s →
       ∃ x, Alerts.post_decide w q = (w, Some x) ∧ r_status x ≠ 200)
  ∧ (∀ status limit offset,
       ∃ r, AlertsRead.get_list (db w) token (alerts_of_senior s status limit offset)
            = inl r ∧ r_status r = 403)
  ∧ (∀ limit offset,
       ∃ r, TransactionsRead.get_list (db w) token (Some s) limit offset = inl r
            ∧ r_status r = 403).
Proof.
  intros Ha Hrole Hn. split; [|split; [|split]].
  - intros aid alert Hal <-. unfold AlertsRead.get_one.
    rewrite Ha, Hal, Hrole, Hn. eauto.
  - intros q alert <- Hal <-. rewrite post_decide_eq, Ha.
    destruct (Alerts.valid_decision _) as [decision|]; [|eexists; split; [done|simpl; lia]].
    rewrite Hal. unfold Alerts.after_find.
    destruct (bool_decide (a_status alert = PENDING)); simpl;
      [|eexists; split; [done|simpl; lia]].
    rewrite Hrole, Hn. eexists. split; [done|simpl; lia].
  - intros status limit offset. unfold AlertsRead.get_list, AlertsRead.scope. simpl.
    rewrite Ha, Hrole, Hn. eauto.
  - intros limit offset. unfold TransactionsRead.get_list, TransactionsRead.target.
    rewrite Ha, Hrole, Hn. eauto.
Qed.

End LockedOut.

(** X17: a revoked family member is locked out of the routes. After a
    senior's [DELETE /api/trusted/:familyId] was answered 200 on a sound
    link table, and for as long as no invitation is made, whatever other
    requests are served: for the removed family member [GET /api/alerts/:id]
    on an alert of that senior is refused with 403, a decision on such an
    alert is not accepted and changes nothing, and [GET /api/alerts] and
    [GET /api/transactions] asked for that senior are refused with 403. *)
Theorem revoked_member_is_locked_out (w : World) (token : Bearer) (familyId : Id)
    (user : ReqUser) (ops : list Op) (token' : Bearer) (reviewer : ReqUser) :
  links_sound (db w) →
  authenticate (db w) token = inr user →
  (Trusted.delete w token familyId).2 = respond 200 Success →
  Forall not_invite ops →
  let w' := apply_all (apply w (Revoke token familyId)) ops in
  authenticate (db w') token' = inr reviewer →
  ru_role reviewer = FAMILY → ru_id reviewer = familyId →
  (∀ aid alert, alerts (db w') !! aid = Some alert → a_seniorId alert = ru_id user →
     ∃ r, AlertsRead.get_one (db w') token' aid = inl r ∧ r_status r = 403)
  ∧ (∀ q alert, Alerts.q_token q = token' →
       alerts (db w') !! Alerts.q_alertId q = Some alert →
       a_seniorId alert = ru_id user →
       ∃ x, Alerts.post_decide w' q = (w', Some x) ∧ r_status x ≠ 200)
  ∧ (∀ status limit offset,
       ∃ r, AlertsRead.get_list (db w') token'
              (alerts_of_senior (ru_id user) status limit offset) = inl r
            ∧ r_status r = 403)
  ∧ (∀ limit offset,
       ∃ r, TransactionsRead.get_list (db w') token' (Some (ru_id user)) limit offset
            = inl r
            ∧ r_status r = 403).
Proof.
  intros Hs Ha Hdel Hops w' Ha' Hrole Hid.
  apply (no_access_refused w' token' reviewer); [done|done|]. rewrite Hid.
  apply apply_all_no_active; [done|]. simpl.
  unfold Trusted.delete in *. rewrite Ha in *.
  unfold requireSenior in *. destruct (ru_role user); [|by simplify_eq/=].
  destruct (find_link _ _ _) as [l|] eqn:Hl; [|by simplify_eq/=].
  simpl. by apply revoked_no_active.
Qed.

Lemma revoked_member_is_locked_out_witness :
  ∃ r, AlertsRead.get_one
         (db (apply_all (apply flagged (Revoke (Verified 1) 2))
                [Submit (Verified 1) coinflip (scored_as 0.97 "CRITICAL") no_gemini]))
         (Verified 2) 5 = inl r
       ∧ r_status r = 403.
Proof.
  edestruct (revoked_member_is_locked_out flagged (Verified 1) 2
               {| ru_id := 1; ru_email := "margaret@demo.com"; ru_name := "Margaret Johnson";
                  ru_role := SENIOR; ru_protectionMode := true |}
               [Submit (Verified 1) coinflip (scored_as 0.97 "CRITICAL") no_gemini]
               (Verified 2)
               {| ru_id := 2; ru_email := "sarah@demo.com"; ru_name := "Sarah Johnson";
                  ru_role := FAMILY; ru_protectionMode := false |})
    as (H & _).
  - apply (apply_all_db_sound
             [Invite (Verified 1) (Some "sarah@demo.com");
              Submit (Verified 1) coinflip (scored_as 0.97 "CRITICAL") no_gemini]
             household household_sound).
  - vm_compute. reflexivity.
  - vm_compute. reflexivity.
  - repeat constructor.
  - vm_compute. reflexivity.
  - reflexivity.
  - reflexivity.
  - apply (H 5 coinflip_alert); [vm_compute; reflexivity|reflexivity].
Defined.

(** ** Writes that can be repeated (routes/trusted.js, routes/users.js) *)
Section Repeated.

Lemma update_link_twice lid st st' ls :
  update_link lid st' (update_link lid st ls)
  = (λ l, if bool_decide (l_id l = lid) then set_link_status st' l else l) <$> ls.
Proof.
  unfold update_link. rewrite <- list_fmap_compose. apply list_fmap_ext.
  intros i l _. simpl. destruct (bool_decide (l_id l = lid)) eqn:Hid; simpl; by rewrite Hid.
Qed.

Lemma set_link_status_same l : set_link_status (l_status l) l = l.
Proof. by destruct l. Qed.

Lemma update_link_back lid st st' ls :
  (∀ l, l ∈ ls → l_id l = lid → l_status l = st') →
  update_link lid st' (update_link lid st ls) = ls.
Proof.
  intros H. rewrite update_link_twice. rewrite <- (list_fmap_id ls) at 2.
  apply list_fmap_ext. intros i l Hl. apply list_elem_of_lookup_2 in Hl. simpl.
  destruct (bool_decide (l_id l = lid)) eqn:Hid; [|done].
  apply bool_decide_eq_true in Hid. rewrite <- (H l Hl Hid). apply set_link_status_same.
Qed.

Lemma links_sound_id d l l' :
  links_sound d → l ∈ trustedLinks d → l' ∈ trustedLinks d → l_id l' = l_id l → l' = l.
Proof.
  intros (Hnd & _) Hl Hl' Hid.
  apply list_elem_of_lookup in Hl as [i Hi]. apply list_elem_of_lookup in Hl' as [j Hj].
  assert (i = j) as ->; [|congruence].
  eapply NoDup_lookup; [exact Hnd| |]; rewrite list_lookup_fmap.
  - by rewrite Hi.
  - rewrite Hj. simpl. by rewrite Hid.
Qed.

Lemma find_user_fmap (f : User → User) uid us :
  (∀ u, u_id (f u) = u_id u) →
  find_user uid (f <$> us) = f <$> find_user uid us.
Proof.
  intros Hf. unfold find_user. induction us as [|u us IH]; simpl; [done|].
  rewrite Hf. by destruct (bool_decide (u_id u = uid)).
Qed.

Lemma apply_settings_twice b u :
  Users.apply_settings b (Users.apply_settings b u) = Users.apply_settings b u.
Proof.
  unfold Users.apply_settings. simpl.
  destruct (Users.name b), (Users.phone b), (Users.protectionMode b),
    (Users.riskThreshold b); reflexivity.
Qed.

(** A settings update changes nothing, or rewrites the caller's row. *)
Lemma patch_settings_cases w token b :
  Users.patch_settings w token b = (w, (Users.patch_settings w token b).2)
  ∨ ∃ user u,
      authenticate (db w) token = inr user ∧ requireSenior user = None
      ∧ find_user (ru_id user) (users (db w)) = Some u
      ∧ Users.patch_settings w token b
        = (with_db w (with_users (db w)
                        ((λ x, if bool_decide (u_id x = ru_id user)
                               then Users.apply_settings b x else x) <$> users (db w))),
           respond 200 (Settings (Users.apply_settings b u))).
Proof.
  unfold Users.patch_settings.
  destruct (authenticate (db w) token) as [r|user] eqn:Ha; [by left|].
  destruct (requireSenior user) as [r|] eqn:Hrs; [by left|].
  destruct (find_user (ru_id user) (users (db w))) as [u|] eqn:Hu; [|by left].
  right. by exists user, u.
Qed.

End Repeated.

(** X18: removing and inviting can be repeated. A second
    [DELETE /api/trusted/:familyId] with the same parameters is answered as
    the first was and leaves the world as the first left it (a link that is
    already REVOKED is revoked again with 200, not refused); a second
    [POST /api/trusted/invite] with the same body changes nothing more: it
    never adds a second link for the pair. *)
Theorem trusted_circle_writes_are_idempotent (w : World) (token : Bearer) :
  (∀ familyId,
     Trusted.delete (Trusted.delete w token familyId).1 token familyId
     = Trusted.delete w token familyId)
  ∧ (∀ email,
       (Trusted.post_invite (Trusted.post_invite w token email).1 token email).1
       = (Trusted.post_invite w token email).1).
Proof.
  split.
  - intros familyId. unfold Trusted.delete at 2 3.
    destruct (authenticate (db w) token) as [r|user] eqn:Ha; simpl.
    { unfold Trusted.delete. by rewrite Ha. }
    destruct (requireSenior user) as [r|] eqn:Hrs; simpl.
    { unfold Trusted.delete. by rewrite Ha, Hrs. }
    destruct (find_link _ _ _) as [l|] eqn:Hl; simpl.
    2: { unfold Trusted.delete. by rewrite Ha, Hrs, Hl. }
    unfold Trusted.delete. simpl.
    change (authenticate _ token) with (authenticate (db w) token).
    rewrite Ha, Hrs. rewrite (find_link_update _ _ _ _ REVOKED Hl). simpl.
    unfold with_db, with_trustedLinks. simpl. do 3 f_equal.
    rewrite update_link_twice. unfold update_link. done.
  - intros email. unfold Trusted.post_invite at 2 3.
    destruct (authenticate (db w) token) as [r|user] eqn:Ha; simpl.
    { unfold Trusted.post_invite. by rewrite Ha. }
    destruct (requireSenior user) as [r|] eqn:Hrs; simpl.
    { unfold Trusted.post_invite. by rewrite Ha, Hrs. }
    destruct email as [email|]; simpl.
    2: { unfold Trusted.post_invite. by rewrite Ha, Hrs. }
    destruct (String.eqb email EmptyString) eqn:He; simpl.
    { unfold Trusted.post_invite. by rewrite Ha, Hrs, He. }
    destruct (find_user_by_email email _) as [fu|] eqn:Hf; simpl.
    2: { unfold Trusted.post_invite. by rewrite Ha, Hrs, He, Hf. }
    destruct (bool_decide (u_role fu = FAMILY)) eqn:Hfam; simpl.
    2: { unfold Trusted.post_invite. by rewrite Ha, Hrs, He, Hf, Hfam. }
    destruct (bool_decide (u_id fu = ru_id user)) eqn:Hself; simpl.
    { unfold Trusted.post_invite. by rewrite Ha, Hrs, He, Hf, Hfam, Hself. }
    destruct (find_link _ _ _) as [l|] eqn:Hl; simpl.
    + destruct (bool_decide (l_status l = ACTIVE)) eqn:Hst; simpl.
      { unfold Trusted.post_invite. by rewrite Ha, Hrs, He, Hf, Hfam, Hself, Hl, Hst. }
      unfold Trusted.post_invite. simpl.
      change (authenticate _ token) with (authenticate (db w) token).
      rewrite Ha, Hrs, He, Hf, Hfam, Hself. simpl.
      by rewrite (find_link_update _ _ _ _ ACTIVE Hl).
    + unfold Trusted.post_invite. simpl.
      change (authenticate _ token) with (authenticate (db w) token).
      rewrite Ha, Hrs, He, Hf, Hfam, Hself. simpl.
      by rewrite (find_link_new _ _ _
                    {| l_id := nextId (db w); l_seniorId := ru_id user;
                       l_familyId := u_id fu; l_status := ACTIVE |} Hl eq_refl eq_refl).
Qed.

(** X19: removing and inviting undo each other. On a sound link table, for a
    senior and a family account joined by a link: when the link is ACTIVE,
    removing the family member and inviting them again leaves the world
    exactly as it was; when the link is REVOKED, inviting them and removing
    them again does. The link keeps its id all along. *)
Theorem revoke_and_invite_undo_each_other (w : World) (token : Bearer)
    (user : ReqUser) (email : string) (fu : User) (l : TrustedLink) :
  links_sound (db w) →
  authenticate (db w) token = inr user → ru_role user = SENIOR →
  email ≠ EmptyString →
  find_user_by_email email (users (db w)) = Some fu →
  u_role fu = FAMILY → u_id fu ≠ ru_id user →
  find_link (ru_id user) (u_id fu) (trustedLinks (db w)) = Some l →
  (l_status l = ACTIVE →
   apply_all w [Revoke token (u_id fu); Invite token (Some email)] = w)
  ∧ (l_status l = REVOKED →
     apply_all w [Invite token (Some email); Revoke token (u_id fu)] = w).
Proof.
  intros Hs Ha Hrole Hemail Hf Hfam Hself Hl.
  assert (Hin : l ∈ trustedLinks (db w)).
  { unfold find_link in Hl. apply find_some in Hl as [Hl _]. by apply list_elem_of_In. }
  assert (Hrs : requireSenior user = None) by (unfold requireSenior; by rewrite Hrole).
  apply String.eqb_neq in Hemail.
  assert (Hback : ∀ st, update_link (l_id l) (l_status l)
                          (update_link (l_id l) st (trustedLinks (db w)))
                        = trustedLinks (db w)).
  { intros st. apply update_link_back. intros l' Hl' Hid.
    by rewrite (links_sound_id _ _ _ Hs Hin Hl' Hid). }
  split; intros Hst; simpl.
  - unfold Trusted.delete at 1. rewrite Ha, Hrs, Hl. simpl.
    unfold Trusted.post_invite. simpl.
    change (authenticate _ token) with (authenticate (db w) token).
    rewrite Ha, Hrs, Hemail, Hf, Hfam. simpl.
    rewrite (bool_decide_eq_false_2 _ Hself).
    rewrite (find_link_update _ _ _ _ REVOKED Hl). simpl.
    rewrite <- Hst, Hback. destruct w as [[] ? ? ?]. reflexivity.
  - unfold Trusted.post_invite at 1. rewrite Ha, Hrs, Hemail, Hf, Hfam. simpl.
    rewrite (bool_decide_eq_false_2 _ Hself), Hl, Hst. simpl.
    unfold Trusted.delete. simpl.
    change (authenticate _ token) with (authenticate (db w) token).
    rewrite Ha, Hrs. rewrite (find_link_update _ _ _ _ ACTIVE Hl). simpl.
    rewrite <- Hst, Hback. destruct w as [[] ? ? ?]. reflexivity.
Qed.

Lemma revoke_and_invite_undo_each_other_witness :
  apply_all circle [Revoke (Verified 1) 2; Invite (Verified 1) (Some "sarah@demo.com")]
  = circle.
Proof.
  refine (proj1 (revoke_and_invite_undo_each_other circle (Verified 1)
            {| ru_id := 1; ru_email := "margaret@demo.com"; ru_name := "Margaret Johnson";
               ru_role := SENIOR; ru_protectionMode := true |}
            "sarah@demo.com" sarah
            {| l_id := 3; l_seniorId := 1; l_familyId := 2; l_status := ACTIVE |}
            _ _ _ _ _ _ _ _) _).
  - apply (apply_all_db_sound [Invite (Verified 1) (Some "sarah@demo.com")]
             household household_sound).
  - reflexivity.
  - reflexivity.
  - discriminate.
  - reflexivity.
  - reflexivity.
  - simpl. lia.
  - reflexivity.
  - reflexivity.
Defined.

(** X20: what a settings update can change. [PATCH /api/users/settings]
    leaves the transactions, alerts, approvals, trusted links, sockets and
    clock alone and every user row but the caller's as it is; it never
    changes whom a token stands for: after it every token authenticates as
    the same user id, email and role as before, or is refused as before;
    and sending the same update a second time is answered the same and
    changes nothing more. *)
Theorem settings_update_keeps_identities (w : World) (token : Bearer)
    (b : Users.SettingsBody) :
  let w' := (Users.patch_settings w token b).1 in
  db w' = with_users (db w) (users (db w'))
  ∧ io w' = io w ∧ clock w' = clock w
  ∧ (∀ user u, authenticate (db w) token = inr user →
       u ∈ users (db w) → u_id u ≠ ru_id user → u ∈ users (db w'))
  ∧ (∀ tok, identity_of (authenticate (db w') tok) = identity_of (authenticate (db w) tok))
  ∧ Users.patch_settings w' token b = Users.patch_settings w token b.
Proof.
  intros w'. subst w'.
  destruct (patch_settings_cases w token b) as [Hp|(user & u & Ha & Hrs & Hu & Hp)].
  { rewrite Hp. simpl. rewrite <- Hp. repeat split; try done. by destruct (db w). }
  rewrite Hp. simpl.
  set (f := λ x, if bool_decide (u_id x = ru_id user)
                 then Users.apply_settings b x else x).
  assert (Hfid : ∀ x, u_id (f x) = u_id x).
  { intros x. unfold f. by destruct (bool_decide _). }
  assert (Hauth : ∀ tok, identity_of (authenticate (with_users (db w) (f <$> users (db w))) tok)
                         = identity_of (authenticate (db w) tok)).
  { intros [| |uid]; try done. unfold authenticate. simpl.
    rewrite (find_user_fmap f uid _ Hfid).
    destruct (find_user uid (users (db w))) as [x|]; simpl; [|done].
    unfold f. by destruct (bool_decide _). }
  split; [done|]. split; [done|]. split; [done|]. split; [|split; [done|]].
  - intros user' x Ha' Hx Hne. rewrite Ha in Ha'. injection Ha' as <-.
    apply list_elem_of_fmap. exists x. split; [|done].
    unfold f. by rewrite bool_decide_eq_false_2.
  - unfold Users.patch_settings. simpl.
    pose proof (Hauth token) as Hid. rewrite Ha in Hid.
    destruct (authenticate (with_users (db w) (f <$> users (db w))) token)
      as [r'|user'] eqn:Ha'; [done|].
    simpl in Hid. injection Hid as Hid1 Hid2 Hid3.
    assert (Hrs' : requireSenior user' = None).
    { unfold requireSenior in *. by rewrite Hid3. }
    rewrite Hrs', Hid1. rewrite (find_user_fmap f _ _ Hfid), Hu. simpl.
    pose proof (find_user_id _ _ _ Hu) as Huid.
    unfold with_db, with_users. simpl. f_equal.
    + do 2 f_equal. rewrite <- list_fmap_compose. apply list_fmap_ext.
      intros i x _. simpl. unfold f.
      destruct (bool_decide (u_id x = ru_id user)) eqn:Hx; simpl; rewrite Hx; [|done].
      by rewrite apply_settings_twice.
    + unfold f. rewrite bool_decide_eq_true_2 by done. simpl.
      by rewrite apply_settings_twice.
Qed.

(** ** The submission pipeline as a whole (routes/transactions.js,
    lib/mlService.js, lib/gemini.js) *)
Section Pipeline.

Lemma scoreTransaction_returns ml : ∃ r, MlService.scoreTransaction ml = Js.Normal r.
Proof.
  unfold MlService.scoreTransaction. destruct (MlService.fetch_score ml); simpl; eauto.
Qed.

End Pipeline.

(** X21: an exception of the explainer fails the submission, after the
    transaction has been stored and scored. For an authenticated senior
    whose transaction is scored at 0.3 or above: when [explainTransaction]
    throws, the route answers 500 with the message of the exception; by
    then the transaction is stored under the next id with the submitted
    fields and with the score and level of the answer, and it has been sent
    for scoring once; no alert is stored and nothing is emitted; users,
    approvals and trusted links are as before. *)
Theorem explainer_exception_fails_the_submission (w : World) (token : Bearer)
    (user : ReqUser) (b : Transactions.TxnBody) (ml : MlService.FetchOutcome)
    (gem : Gemini.Env) (r : RiskResult) (err : string) :
  authenticate (db w) token = inr user → ru_role user = SENIOR →
  MlService.scoreTransaction ml = Js.Normal r →
  (0.3 <= risk_score r)%Q →
  Gemini.explainTransaction gem (gemini_prompt_context r) = Js.Throw err →
  ∃ w' txn,
    Transactions.post w token b ml gem = (w', respond 500 (Error err))
    ∧ transactions (db w') = <[nextId (db w) := txn]> (transactions (db w))
    ∧ t_id txn = nextId (db w)
    ∧ t_userId txn = ru_id user
    ∧ t_amount txn = Transactions.amount b
    ∧ t_merchant txn = Transactions.merchant b
    ∧ t_riskScore txn = Some (risk_score r)
    ∧ t_riskLevel txn = Some (risk_level r)
    ∧ scored w' = scored w ++ [nextId (db w)]
    ∧ alerts (db w') = alerts (db w)
    ∧ users (db w') = users (db w)
    ∧ approvals (db w') = approvals (db w)
    ∧ trustedLinks (db w') = trustedLinks (db w)
    ∧ io w' = io w.
Proof.
  intros Ha Hrole Hml Hle He. unfold Transactions.post. rewrite Ha.
  unfold requireSenior. rewrite Hrole, Hml. cbn [log_scored with_db db].
  apply Qle_bool_iff in Hle. unfold Transactions.threshold. rewrite Hle.
  unfold Transactions.raise_alert. rewrite He.
  do 2 eexists. split; [reflexivity|]. simpl.
  split; [by rewrite insert_insert_eq|]. done.
Qed.

Lemma explainer_exception_fails_the_submission_witness :
  ∃ w' txn,
    Transactions.post circle (Verified 1) coinflip
      (scored_with 0.97 "CRITICAL" string_amount_context) no_gemini
      = (w', respond 500 (Error "amount.toFixed is not a function"))
    ∧ t_riskScore txn = Some 0.97%Q
    ∧ transactions (db w') = <[4 := txn]> (transactions (db circle))
    ∧ alerts (db w') = alerts (db circle).
Proof.
  edestruct (explainer_exception_fails_the_submission circle (Verified 1)
               {| ru_id := 1; ru_email := "margaret@demo.com";
                  ru_name := "Margaret Johnson"; ru_role := SENIOR;
                  ru_protectionMode := true |}
               coinflip (scored_with 0.97 "CRITICAL" string_amount_context) no_gemini)
    as (w' & txn & Hp & Htx & _ & _ & _ & _ & Hsc & _ & _ & Hal & _).
  - reflexivity.
  - reflexivity.
  - reflexivity.
  - unfold Qle. simpl. lia.
  - vm_compute. reflexivity.
  - exists w', txn. split; [exact Hp|]. split; [exact Hsc|]. split; [exact Htx|exact Hal].
Defined.

(** ** Decisions in flight together: what no interleaving does
    (routes/alerts.js) *)
Section Bound.

Import Alerts.

Local Ltac nothing_created :=
  repeat split; try done; exists []; rewrite app_nil_r; split; [done|simpl; lia].

Lemma step_creates_once q w pc :
  users (db (step q w pc).1) = users (db w)
  ∧ transactions (db (step q w pc).1) = transactions (db w)
  ∧ trustedLinks (db (step q w pc).1) = trustedLinks (db w)
  ∧ ∃ more, approvals (db (step q w pc).1) = approvals (db w) ++ more
            ∧ length more + before_create (step q w pc).2 ≤ before_create pc.
Proof.
  destruct pc; simpl.
  - destruct (authenticate _ _); simpl; [nothing_created|].
    destruct (valid_decision _); simpl; nothing_created.
  - repeat split; try done. exists []. rewrite app_nil_r. split; [done|].
    destruct (after_find _ _ _); simpl; lia.
  - destruct (find_active_link _ _ _); simpl; nothing_created.
  - repeat split; try done. eexists. split; [done|]. simpl. lia.
  - destruct (alerts (db w) !! a_id alert); simpl; nothing_created.
  - nothing_created.
  - nothing_created.
Qed.

Lemma still_to_create_insert tasks i k k' :
  tasks !! i = Some k →
  still_to_create (<[i := k']> tasks) + before_create (k_pc k)
  = still_to_create tasks + before_create (k_pc k').
Proof.
  unfold still_to_create. revert i.
  induction tasks as [|x tasks IH]; intros [|i] Hi; [done|done| |].
  - injection Hi as ->.
    change (<[0 := k']> (k :: tasks)) with (k' :: tasks).
    rewrite !fmap_cons. cbn [sum_list sum_list_with]. unfold id in *. lia.
  - specialize (IH i Hi).
    change (<[S i := k']> (x :: tasks)) with (x :: <[i := k']> tasks).
    rewrite !fmap_cons. cbn [sum_list sum_list_with]. unfold id in *. lia.
Qed.

Lemma resume_creates_once i w tasks :
  users (db (resume i (w, tasks)).1) = users (db w)
  ∧ transactions (db (resume i (w, tasks)).1) = transactions (db w)
  ∧ trustedLinks (db (resume i (w, tasks)).1) = trustedLinks (db w)
  ∧ ∃ more, approvals (db (resume i (w, tasks)).1) = approvals (db w) ++ more
            ∧ length more + still_to_create (resume i (w, tasks)).2
              ≤ still_to_create tasks.
Proof.
  unfold resume. simpl. destruct (tasks !! i) as [k|] eqn:Hk; simpl.
  - destruct (step_creates_once (k_req k) w (k_pc k)) as (Hu & Ht & Hl & more & Hm & Hle).
    destruct (step (k_req k) w (k_pc k)) as [w' pc']. simpl in *.
    repeat split; try done. exists more. split; [done|].
    pose proof (still_to_create_insert tasks i k {| k_req := k_req k; k_pc := pc' |} Hk) as H.
    simpl in H. lia.
  - repeat split; try done. exists []. by rewrite app_nil_r.
Qed.

Lemma interleave_creates_once schedule w tasks :
  users (db (interleave schedule w tasks).1) = users (db w)
  ∧ transactions (db (interleave schedule w tasks).1) = transactions (db w)
  ∧ trustedLinks (db (interleave schedule w tasks).1) = trustedLinks (db w)
  ∧ ∃ more, approvals (db (interleave schedule w tasks).1) = approvals (db w) ++ more
            ∧ length more + still_to_create (interleave schedule w tasks).2
              ≤ still_to_create tasks.
Proof.
  unfold interleave. revert w tasks.
  induction schedule as [|i schedule IH]; intros w tasks; simpl.
  { repeat split; try done. exists []. by rewrite app_nil_r. }
  destruct (resume_creates_once i w tasks) as (Hu & Ht & Hl & more & Hm & Hle).
  destruct (resume i (w, tasks)) as [w1 tasks1]. simpl in *.
  destruct (IH w1 tasks1) as (Hu' & Ht' & Hl' & more' & Hm' & Hle').
  split; [congruence|]. split; [congruence|]. split; [congruence|].
  exists (more ++ more'). split; [by rewrite Hm', Hm, app_assoc|].
  rewrite length_app. lia.
Qed.

Lemma still_to_create_start qs : still_to_create (start <$> qs) = length qs.
Proof.
  unfold still_to_create. induction qs as [|q qs IH]; [done|].
  rewrite !fmap_cons. cbn [sum_list sum_list_with]. rewrite IH. done.
Qed.

End Bound.

(** X22: what no interleaving of decisions does. However the event loop
    interleaves any number of decide requests at their awaits, the approvals
    that were there stay, in their order; the requests add at most one
    approval each; and they touch no user, no transaction and no trusted
    link. *)
Theorem interleaved_decisions_record_at_most_one_approval_each
    (schedule : list nat) (w : World) (qs : list Alerts.DecideReq) :
  let w' := (Alerts.interleave schedule w (Alerts.start <$> qs)).1 in
  (∃ more, approvals (db w') = approvals (db w) ++ more ∧ length more ≤ length qs)
  ∧ users (db w') = users (db w)
  ∧ transactions (db w') = transactions (db w)
  ∧ trustedLinks (db w') = trustedLinks (db w).
Proof.
  intros w'. subst w'.
  destruct (interleave_creates_once schedule w (Alerts.start <$> qs))
    as (Hu & Ht & Hl & more & Hm & Hle).
  rewrite still_to_create_start in Hle.
  split; [|done]. exists more. split; [done|lia].
Qed.



(** X24: a settings update is read back. When [PATCH /api/users/settings]
    is answered 200, the user it answers with is the caller's row as
    [GET /api/auth/me] then returns it for the same token: it has each
    setting the body gave, and the row's earlier value for each setting the
    body left out; id, email and role are as before. *)
Theorem settings_update_is_read_back (w w' : World) (token : Bearer)
    (b : Users.SettingsBody) (u' : User) :
  Users.patch_settings w token b = (w', respond 200 (Settings u')) →
  Auth.get_me (db w') token = inr (Some u')
  ∧ ∃ u, Auth.get_me (db w) token = inr (Some u)
         ∧ u_id u' = u_id u ∧ u_email u' = u_email u ∧ u_role u' = u_role u
         ∧ u_name u' = default (u_name u) (Users.name b)
         ∧ u_phone u' = from_option Some (u_phone u) (Users.phone b)
         ∧ u_protectionMode u' = default (u_protectionMode u) (Users.protectionMode b)
         ∧ u_riskThreshold u' = default (u_riskThreshold u) (Users.riskThreshold b).
Proof.
  intros Hp. unfold Users.patch_settings in Hp.
  destruct (authenticate (db w) token) as [r|user] eqn:Ha.
  { injection Hp as _ ->. unfold authenticate in Ha. repeat case_match; simplify_eq. }
  destruct (requireSenior user) as [r|] eqn:Hrs.
  { injection Hp as _ ->. unfold requireSenior in Hrs. case_match; simplify_eq. }
  destruct (find_user (ru_id user) (users (db w))) as [u|] eqn:Hu; [|by simplify_eq].
  injection Hp as <- <-.
  set (f := λ x, if bool_decide (u_id x = ru_id user)
                 then Users.apply_settings b x else x).
  assert (Hfid : ∀ x, u_id (f x) = u_id x).
  { intros x. unfold f. by destruct (bool_decide _). }
  pose proof (find_user_id _ _ _ Hu) as Huid.
  split.
  - unfold Auth.get_me, authenticate. destruct token as [| |uid]; try done. simpl.
    unfold authenticate in Ha.
    rewrite (find_user_fmap f uid _ Hfid).
    destruct (find_user uid (users (db w))) as [x|] eqn:Hx; [|done].
    injection Ha as <-. simpl. pose proof (find_user_id _ _ _ Hx) as Hxid.
    rewrite Hfid. rewrite (find_user_fmap f _ _ Hfid).
    simpl in Hu. rewrite Hu. simpl. unfold f. by rewrite bool_decide_eq_true_2.
  - exists u. unfold Auth.get_me. rewrite Ha, Hu. split; [done|].
    unfold Users.apply_settings. simpl. repeat split; done.
Qed.

Lemma settings_update_is_read_back_witness :
  Auth.get_me
    (db (apply household
           (PatchSettings (Verified 1)
              {| Users.protectionMode := None; Users.riskThreshold := Some 0.9%Q;
                 Users.name := None; Users.phone := Some "555-0100" |})))
    (Verified 1)
  = inr (Some {| u_id := 1; u_email := "margaret@demo.com"; u_name := "Margaret Johnson";
                 u_role := SENIOR; u_phone := Some "555-0100"; u_protectionMode := true;
                 u_riskThreshold := 0.9 |}).
Proof.
  refine (proj1 (settings_update_is_read_back household _ (Verified 1)
            {| Users.protectionMode := None; Users.riskThreshold := Some 0.9%Q;
               Users.name := None; Users.phone := Some "555-0100" |} _ _)).
  reflexivity.
Defined.
